(** * Post-processing pipeline of the renderer: a shallow embedding

    The kernels of the post-processing header (Gaussian kernels,
    histogram and auto exposure, down-scaling, median filter, bloom,
    lens flare, tone mapping, sharpening, output copy) are embedded as
    Rocq functions.

    Numbers.  A CUDA [float] is read as the real number it denotes:
    arithmetic is exact, there is neither rounding nor NaN nor infinity.
    The range of a value that can be a NaN or an infinity in floats
    (the quotient 0 / 0 in the average luminance, a power of a negative
    base, a quotient by a zero distance) is stated under the hypotheses
    that exclude it.
    [int] and [uint] values are integers in [Z]; array subscripts that
    the code keeps small and non-negative are [nat]. *)

From Stdlib Require Import Reals Lra Lia ZArith List Bool Permutation Sorted.
Import ListNotations.

Local Open Scope R_scope.

(** ** Vectors *)

Record Float2 := mkFloat2 { f2x : R; f2y : R }.
Record Float3 := mkFloat3 { f3x : R; f3y : R; f3z : R }.
Record Int2 := mkInt2 { i2x : Z; i2y : Z }.

(** Component-wise operations of the vector types, as the kernels use
    them ([+], [-], [*] by a scalar, [dot]). *)
Definition add3 (a b : Float3) : Float3 :=
  mkFloat3 (f3x a + f3x b) (f3y a + f3y b) (f3z a + f3z b).
Definition sub3 (a b : Float3) : Float3 :=
  mkFloat3 (f3x a - f3x b) (f3y a - f3y b) (f3z a - f3z b).
Definition scale3 (a : Float3) (k : R) : Float3 :=
  mkFloat3 (f3x a * k) (f3y a * k) (f3z a * k).
Definition splat3 (k : R) : Float3 := mkFloat3 k k k.
Definition dot3 (a b : Float3) : R :=
  f3x a * f3x b + f3y a * f3y b + f3z a * f3z b.

(** ** Arrays addressed by subscript *)

Section Arrays.
Context {A : Type}.

(** [p[i] = v]; a subscript past the end is not modelled (the kernels
    never produce one) and leaves the array as it is. *)
Fixpoint upd (i : nat) (v : A) (p : list A) : list A :=
  match p, i with
  | [], _ => []
  | _ :: t, O => v :: t
  | h :: t, S j => h :: upd j v t
  end.
End Arrays.

(** ** Histogram and auto exposure *)

Module AutoExposure.

(** Modelled from the spec: [clampf] is declared in linear_math.h, which
    is not among the sources; the spec says the value is "clamped to
    [0.1, 10.0]". *)
Definition clampf (a lo hi : R) : R := Rmax lo (Rmin a hi).

Definition exp2f (x : R) : R := Rpower 2 x.
Definition expf (x : R) : R := exp x.
Definition log10f (x : R) : R := ln x / ln 10.

Definition BinToLum (i : nat) : R := exp2f ((INR i / (63 * 0.99999) - 0.75) / 0.1).

Definition darkThreshold : R := 0.4.
Definition brightThreshold : R := 0.9.

(** The local variables both scans share. *)
Record scan := mkScan {
  lumiSum : R;
  lumiSumArea : R;
  accuHistArea : R;
  brightLum : R;
  i : nat
}.

(** "first loop for dark cut line": [n] is the number of iterations
    left, 64 - i.  A [break] leaves [i] where it is. *)
Fixpoint dark_loop (histogram : list Z) (area : R) (n : nat) (s : scan) : scan :=
  match n with
  | O => s
  | S n' =>
      let hist := nth (i s) histogram 0%Z in
      let fHist := IZR hist / area in
      let lum := BinToLum (i s) in
      let accu := accuHistArea s + fHist in
      let dark := accu - darkThreshold in
      if Rlt_dec 0 dark
      then mkScan (lumiSum s + dark * lum) (lumiSumArea s + dark) accu (brightLum s) (i s)
      else dark_loop histogram area n'
             (mkScan (lumiSum s) (lumiSumArea s) accu (brightLum s) (S (i s)))
  end.

(** "second part of loop for bright cut line" *)
Fixpoint bright_loop (histogram : list Z) (area : R) (n : nat) (s : scan) : scan :=
  match n with
  | O => s
  | S n' =>
      let hist := nth (i s) histogram 0%Z in
      let fHist := IZR hist / area in
      let lum := BinToLum (i s) in
      let accu := accuHistArea s + fHist in
      let bright := accu - brightThreshold in
      if Rlt_dec 0 bright
      then
        let partial := brightThreshold - (accu - fHist) in
        mkScan (lumiSum s + partial * lum) (lumiSumArea s + partial) accu lum (i s)
      else bright_loop histogram area n'
             (mkScan (lumiSum s + fHist * lum) (lumiSumArea s + fHist) accu
                     (brightLum s) (S (i s)))
  end.

(** The first scan, from the initial values of the locals ([i = 0], so
    64 iterations at most). *)
Definition dark_scan (histogram : list Z) (area : R) : scan :=
  dark_loop histogram area 64 (mkScan 0 0 0 0 0).

(** Both scans: the second goes on from the [i] the first one left. *)
Definition scan_histogram (histogram : list Z) (area : R) : scan :=
  let s := dark_scan histogram area in
  bright_loop histogram area (64 - i s) s.

(** "get average lum" and its clamp.  (When the accepted mass is 0,
    which is the case when the first scan never crosses the dark
    threshold, the quotient is 0 / 0: not a number in floats, and the
    clamp does not repair it, while it is 0 in the reals.  The range of
    the stored average and of the exposure value is therefore stated
    for histograms that cross the dark threshold, where the mass is
    positive; see [scan_area_positive].) *)
Definition aveLum (s : scan) : R := clampf (lumiSum s / lumiSumArea s) 0.1 10.0.

(** "perform eye adaption" *)
Definition adapt (lumTemp target deltaTime : R) : R :=
  lumTemp + (target - lumTemp) * (1.0 - expf (- deltaTime * 0.001)).

(** The kernel: [exposure] is the device array of four floats. *)
Definition AutoExposure (exposure : list R) (histogram : list Z) (area deltaTime : R)
  : list R :=
  let s := scan_histogram histogram area in
  let aveLum := aveLum s in
  let lumTemp := nth 1 exposure 0 in
  let lumBrightTemp := nth 2 exposure 0 in
  let lumTemp := adapt lumTemp aveLum deltaTime in
  let lumBrightTemp := adapt lumBrightTemp (brightLum s) deltaTime in
  let EC := 1.03 - 2.0 / (log10f (lumTemp + 1.0) + 2.0) in
  let EV := 7.0 * EC / lumTemp in
  upd 2 lumBrightTemp (upd 1 lumTemp (upd 0 EV exposure)).

(** The normalised mass of the [n] buckets from bucket [i0] on. *)
Fixpoint mass_from (histogram : list Z) (area : R) (i0 n : nat) : R :=
  match n with
  | O => 0
  | S n' => IZR (nth i0 histogram 0%Z) / area + mass_from histogram area (S i0) n'
  end.

(** RayTracer::init: the array at start-up. *)
Definition initExposureLum : list R := [0.0; 1.0; 1.0; 0.0].

(** An all-dark frame of 100 pixels: every pixel in bucket 0. *)
Definition all_dark : list Z := 100%Z :: repeat 0%Z 63.

End AutoExposure.

(** ** The median filter's sorting network *)

Module Sort9.

Record LumaIdxPair := mkPair { luma : R; idx : Z }.

Definition dummy : LumaIdxPair := mkPair 0 0.

(** [p[i]] *)
Definition get (i : nat) (p : list LumaIdxPair) : LumaIdxPair := nth i p dummy.

Definition min (a b : LumaIdxPair) : LumaIdxPair :=
  if Rlt_dec (luma a) (luma b) then a else b.
Definition max (a b : LumaIdxPair) : LumaIdxPair :=
  if Rgt_dec (luma a) (luma b) then a else b.

Definition min3 (v1 v2 v3 : LumaIdxPair) := min (min v1 v2) v3.
Definition max3 (v1 v2 v3 : LumaIdxPair) := max (max v1 v2) v3.

(** The C++ functions take references into the array; here they take
    the subscripts of the referenced cells. *)
Definition swap (i j : nat) (p : list LumaIdxPair) : list LumaIdxPair :=
  let temp := get i p in
  let p := upd i (get j p) p in
  upd j temp p.

Definition sort2 (i j : nat) (p : list LumaIdxPair) : list LumaIdxPair :=
  if Rgt_dec (luma (get i p)) (luma (get j p)) then swap i j p else p.

Definition sort3 (i j k : nat) (p : list LumaIdxPair) : list LumaIdxPair :=
  let p := sort2 j k p in
  let p := sort2 i j p in
  sort2 j k p.

Definition sort9 (p : list LumaIdxPair) : list LumaIdxPair :=
  let p := sort3 0 1 2 p in
  let p := sort3 3 4 5 p in
  let p := sort3 6 7 8 p in
  let p := upd 6 (max3 (get 0 p) (get 3 p) (get 6 p)) p in
  let p := upd 2 (min3 (get 2 p) (get 5 p) (get 8 p)) p in
  let p := sort3 1 4 7 p in
  sort3 2 4 6 p.

(** *** The network as a term over four selectors *)

(** What [sort2] leaves in its first and in its second cell. *)
Definition lo (a b : LumaIdxPair) := if Rgt_dec (luma a) (luma b) then b else a.
Definition hi (a b : LumaIdxPair) := if Rgt_dec (luma a) (luma b) then a else b.

Section Net.
Context {T : Type}.
Variables (lo2 hi2 mn mx : T -> T -> T).

Definition s3lo (a b c : T) := lo2 a (lo2 b c).
Definition s3mid (a b c : T) := lo2 (hi2 a (lo2 b c)) (hi2 b c).
Definition s3hi (a b c : T) := hi2 (hi2 a (lo2 b c)) (hi2 b c).

(** The value that ends in cell 4. *)
Definition net9 (a0 a1 a2 a3 a4 a5 a6 a7 a8 : T) : T :=
  s3mid (mn (mn (s3hi a0 a1 a2) (s3hi a3 a4 a5)) (s3hi a6 a7 a8))
        (s3mid (s3mid a0 a1 a2) (s3mid a3 a4 a5) (s3mid a6 a7 a8))
        (mx (mx (s3lo a0 a1 a2) (s3lo a3 a4 a5)) (s3lo a6 a7 a8)).
End Net.

(** *** Ranks *)

(** Thresholding: is [x] strictly above, or at least, [t]? *)
Definition above (t x : R) : bool := if Rlt_dec t x then true else false.
Definition atleast (t x : R) : bool := if Rle_dec t x then true else false.

Definition b2n (b : bool) : nat := if b then 1 else 0.

(** How many elements of [l] pass the test [f]. *)
Fixpoint countb (f : R -> bool) (l : list R) : nat :=
  match l with
  | [] => 0
  | x :: t => b2n (f x) + countb f t
  end.

(** The luminances [1,1,1,1,1,1,1,1,1000], cell subscripts 0 to 8. *)
Definition outlier_last : list LumaIdxPair :=
  [mkPair 1 0; mkPair 1 1; mkPair 1 2; mkPair 1 3; mkPair 1 4;
   mkPair 1 5; mkPair 1 6; mkPair 1 7; mkPair 1000 8].

End Sort9.

(** ** The median filter kernel *)

Module MedianFilter.
Import Sort9.

(** One cell of the shared tile. *)
Record LDS := mkLDS { color : Float3; depth : R; normal : Float3; mask : Z }.

(** A texel of the colour surface: three halves and a 16-bit mask. *)
Record Float3Ushort1 := mkFloat3Ushort1 { xyz : Float3; w : Z }.

Definition blockdim : nat := 8.
Definition ldsBlockdim : nat := 10.
Definition ldsAccessOffset : nat := 1.
Definition kernelDim : nat := 3.

Definition dummyLDS : LDS := mkLDS (splat3 0) 0 (splat3 0) 0%Z.

(** Modelled from the spec: [lerp3f] is declared in linear_math.h, which
    is not among the sources; the spec writes the blend as
    [lerp(median, lerp(original, median, weight), 0.5)], the linear
    interpolation from the first argument to the second. *)
Definition lerp3f (a b : Float3) (t : R) : Float3 := add3 a (scale3 (sub3 b a) t).

(** Modelled from the spec: [min1f], also of linear_math.h, the smaller
    of two floats. *)
Definition min1f (a b : R) : R := Rmin a b.

Definition expf (x : R) : R := exp x.

(** A real number is never NaN. *)
Definition isnan (x : R) : bool := false.

Section Kernel.

(** Helpers and constants of headers that are not among the sources. *)
Variable GetLuma : Float3 -> R.
Variable DecodeNormal_R11_G10_B11 : R -> Float3.
Variable RayMax : R.

(** The two surfaces the kernel reads, as what a load returns at each
    coordinate (whatever the surface's boundary mode returns outside). *)
Variable colorBuffer : Int2 -> Float3Ushort1.
Variable normalDepthBuffer : Int2 -> Float2.

(** "global load" and the cell value built from it. *)
Definition global_load (at_ : Int2) : LDS :=
  let colorAndMask := colorBuffer at_ in
  let normalAndDepth := normalDepthBuffer at_ in
  let colorValue := xyz colorAndMask in
  let depthValue := f2y normalAndDepth in
  let normalValue := DecodeNormal_R11_G10_B11 (f2x normalAndDepth) in
  let maskValue := w colorAndMask in
  mkLDS colorValue depthValue normalValue maskValue.

(** The coordinate loaded into tile cell [c] by the thread that owns it:
    [x1, y1] for [c = id], [x2, y2] for [c = id + blockdim * blockdim]. *)
Definition cell_coord (bx by_ c : nat) : Int2 :=
  mkInt2 (Z.of_nat (bx * blockdim) - Z.of_nat ldsAccessOffset + Z.of_nat (c mod ldsBlockdim))
         (Z.of_nat (by_ * blockdim) - Z.of_nat ldsAccessOffset + Z.of_nat (c / ldsBlockdim)).

(** The cells one thread stores before the barrier. *)
Definition lds_stores (bx by_ tx ty : nat) : list (nat * LDS) :=
  let id := (tx + ty * blockdim)%nat in
  (id, global_load (cell_coord bx by_ id))
  :: (if (id + blockdim * blockdim <? ldsBlockdim * ldsBlockdim)%nat
      then [((id + blockdim * blockdim)%nat,
             global_load (cell_coord bx by_ (id + blockdim * blockdim)))]
      else []).

Definition apply_stores (sts : list (nat * LDS)) (sharedBuffer : list LDS) : list LDS :=
  fold_left (fun sb st => upd (fst st) (snd st) sb) sts sharedBuffer.

(** The threads of a block, [threadIdx.y] major. *)
Definition block_threads : list (nat * nat) :=
  flat_map (fun ty => map (fun tx => (tx, ty)) (seq 0 blockdim)) (seq 0 blockdim).

(** The tile once every thread of the block has reached [__syncthreads]. *)
Definition tile_at_barrier (bx by_ : nat) (sharedBuffer : list LDS) : list LDS :=
  fold_left (fun sb t => apply_stores (lds_stores bx by_ (fst t) (snd t)) sb)
            block_threads sharedBuffer.

(** The nine luma-index pairs a thread collects from its 3x3 window. *)
Definition neighbourLumaIdx (sharedBuffer : list LDS) (tx ty : nat) : list LumaIdxPair :=
  flat_map (fun i =>
    map (fun j =>
           let bufferReadTmp := nth (tx + j + (ty + i) * ldsBlockdim) sharedBuffer dummyLDS in
           mkPair (GetLuma (color bufferReadTmp)) (Z.of_nat (j + i * kernelDim)))
        (seq 0 kernelDim))
    (seq 0 kernelDim).

Definition medianColorIdx (sharedBuffer : list LDS) (tx ty : nat) : Z :=
  idx (get 4 (sort9 (neighbourLumaIdx sharedBuffer tx ty))).

(** "get values": the sample used as the median candidate. *)
Definition median_sample (sharedBuffer : list LDS) (tx ty : nat) : LDS :=
  nth (Z.to_nat (medianColorIdx sharedBuffer tx ty)) sharedBuffer dummyLDS.

(** "calculate blend factor" *)
Definition blend_weight (center median : LDS) : R :=
  let weight := 1 in
  let t := sub3 (normal center) (normal median) in
  let dist2 := dot3 t t in
  let weight := weight * min1f (expf (- dist2 / 0.1)) 1 in
  let dist2 := depth center - depth median in
  let dist2 := dist2 * dist2 in
  let weight := weight * min1f (expf (- dist2 / 0.1)) 1 in
  let dist2 := if (mask center =? mask median)%Z then 0 else 1 in
  weight * min1f (expf (- dist2 / 0.1)) 1.

(** "final blend" *)
Definition final_blend (colorValue medianColor : Float3) (weight : R) : Float3 :=
  lerp3f medianColor (lerp3f colorValue medianColor weight) 0.5.

(** The part of the kernel after the barrier, for one thread: the texel
    it stores and where, or [None] when it returns without storing. *)
Definition filter_pixel (sharedBuffer : list LDS) (size : Int2) (bx by_ tx ty : nat)
  : option (Int2 * Float3Ushort1) :=
  let x := Z.of_nat (tx + bx * blockdim) in
  let y := Z.of_nat (ty + by_ * blockdim) in
  if ((x >=? i2x size) || (y >=? i2y size))%Z then None else
  let center := nth (tx + ldsAccessOffset + (ty + ldsAccessOffset) * ldsBlockdim)
                    sharedBuffer dummyLDS in
  let colorValue := color center in
  let maskValue := mask center in
  if Rle_dec RayMax (depth center) then None else
  let median := median_sample sharedBuffer tx ty in
  let weight := blend_weight center median in
  let finalColor := final_blend colorValue (color median) weight in
  let finalColor :=
    if isnan (f3x finalColor) || isnan (f3y finalColor) || isnan (f3z finalColor)
    then splat3 0 else finalColor in
  Some (mkInt2 x y, mkFloat3Ushort1 finalColor maskValue).

(** One block of the kernel: the stores of its threads. *)
Definition MedianFilter (size : Int2) (bx by_ : nat) (sharedBuffer : list LDS)
  : list (option (Int2 * Float3Ushort1)) :=
  let tile := tile_at_barrier bx by_ sharedBuffer in
  map (fun t => filter_pixel tile size bx by_ (fst t) (snd t)) block_threads.

(** The tile cells of a thread's own 3x3 window, row by row. *)
Definition window_cells (tx ty : nat) : list nat :=
  flat_map (fun i => map (fun j => (tx + j + (ty + i) * ldsBlockdim)%nat) (seq 0 kernelDim))
           (seq 0 kernelDim).

End Kernel.

(** *** Example data *)

(** A tile whose cells all hold [base], except cell 4, which holds [out]. *)
Definition tile_outlier_at_4 (base out : LDS) : list LDS := upd 4 out (repeat base 100).

(** A luminance for the example: the Rec. 709 weights. *)
Definition luma709 (c : Float3) : R := 0.2126 * f3x c + 0.7152 * f3y c + 0.0722 * f3z c.

Definition grey_sample (v : R) : LDS := mkLDS (splat3 v) 1 (mkFloat3 0 0 1) 0%Z.

End MedianFilter.

(** ** Threads and surfaces *)

(** The x and y components of [blockIdx], [blockDim] and [threadIdx]. *)
Record dim2 := mkDim2 { dx : nat; dy : nat }.

(** [blockIdx * blockDim + threadIdx], the pixel of a thread. *)
Definition global_idx (blockIdx blockDim threadIdx : dim2) : Int2 :=
  mkInt2 (Z.of_nat (dx blockIdx * dx blockDim + dx threadIdx))
         (Z.of_nat (dy blockIdx * dy blockDim + dy threadIdx)).

(** A texel of a four-channel half surface. *)
Record Float4 := mkFloat4 { f4xyz : Float3; f4w : R }.

(** [idx.x >= size.x || idx.y >= size.y], the guard of the per-pixel
    kernels. *)
Definition outside (idx size : Int2) : bool :=
  ((i2x idx >=? i2x size) || (i2y idx >=? i2y size))%Z.

(** [floorf], and the conversion of a float to an integer type, which
    drops the fraction (towards zero). *)
Definition floorf (x : R) : R := IZR (Int_part x).
Definition truncate (x : R) : Z :=
  if Rle_dec 0 x then Int_part x else (- Int_part (- x))%Z.

(** ** Memory operations of the kernels

    For the claims about bounds and barriers a thread is read as the
    sequence of memory operations it performs, in program order. *)

Module Trace.

(** The surfaces, by the name of the kernel parameter. *)
Inductive buffer :=
| InBuffer | OutBuffer | colorBuffer | normalDepthBuffer
| inBuffer | outBuffer | outputResColor | renderTarget.

Inductive event :=
| Load (b : buffer) (at_ : Int2)      (* a surface read *)
| Store (b : buffer) (at_ : Int2)     (* a surface write *)
| SharedStore (cell : nat)            (* a write to the block's shared array *)
| SharedLoad (cell : nat)             (* a read of the block's shared array *)
| SyncThreads.                        (* __syncthreads() *)

(** [a[x][y]] of a shared array declared [a[n][n]]. *)
Definition cell2 (n x y : nat) : nat := x * n + y.

Definition in_bounds (size at_ : Int2) : Prop :=
  (0 <= i2x at_ < i2x size)%Z /\ (0 <= i2y at_ < i2y size)%Z.

(** The surface operations among the events of a trace. *)
Definition surface_coord (e : event) : option Int2 :=
  match e with
  | Load _ c | Store _ c => Some c
  | _ => None
  end.

(** *** The per-pixel kernels *)

(** Histogram2: the guard, then one load (the atomic increment goes to
    the histogram array, which is not a surface). *)
Definition Histogram2 (size : Int2) (blockIdx blockDim threadIdx : dim2) : list event :=
  let idx := global_idx blockIdx blockDim threadIdx in
  if outside idx size then [] else [Load InBuffer idx].

Definition LensFlare (size : Int2) (blockIdx blockDim threadIdx : dim2) : list event :=
  let idx := global_idx blockIdx blockDim threadIdx in
  if outside idx size then [] else [Load colorBuffer idx; Store colorBuffer idx].

Definition ToneMapping (size : Int2) (blockIdx blockDim threadIdx : dim2) : list event :=
  let idx := global_idx blockIdx blockDim threadIdx in
  if outside idx size then [] else [Load colorBuffer idx; Store colorBuffer idx].

(** CopyToOutput: the write is addressed by the byte offset [idx.x * 4]
    of a four-byte texel, that is texel [idx.x]. *)
Definition CopyToOutput (outSize : Int2) (blockIdx blockDim threadIdx : dim2) : list event :=
  let idx := global_idx blockIdx blockDim threadIdx in
  if outside idx outSize then [] else [Load outputResColor idx; Store renderTarget idx].

(** SharpeningFilter: the guard, the 3x3 loads around the pixel, then
    the store. *)
Definition SharpeningFilter (texSize : Int2) (blockIdx blockDim threadIdx : dim2)
  : list event :=
  let idx := global_idx blockIdx blockDim threadIdx in
  if outside idx texSize then [] else
  flat_map (fun i => map (fun j =>
      Load colorBuffer (mkInt2 (i2x idx + (Z.of_nat i - 1)) (i2y idx + (Z.of_nat j - 1))))
      (seq 0 3)) (seq 0 3)
  ++ [Store colorBuffer idx].

(** *** The tile kernels *)

(** DownScale4: [size] is not used. *)
Definition DownScale4 (size : Int2) (blockIdx blockDim threadIdx : dim2) : list event :=
  let idx := global_idx blockIdx blockDim threadIdx in
  let tx := dx threadIdx in
  let ty := dy threadIdx in
  [Load InBuffer idx; SharedStore (cell2 8 tx ty)]
  ++ (if ((tx mod 2 =? 0) && (ty mod 2 =? 0))%nat
      then [SharedLoad (cell2 8 tx ty); SharedLoad (cell2 8 (tx + 1) ty);
            SharedLoad (cell2 8 tx (ty + 1)); SharedLoad (cell2 8 (tx + 1) (ty + 1));
            SharedStore (cell2 8 tx ty)]
      else [])
  ++ (if ((tx mod 4 =? 0) && (ty mod 4 =? 0))%nat
      then [SharedLoad (cell2 8 tx ty); SharedLoad (cell2 8 (tx + 2) ty);
            SharedLoad (cell2 8 tx (ty + 2)); SharedLoad (cell2 8 (tx + 2) (ty + 2));
            Store OutBuffer (mkInt2 (Z.quot (i2x idx) 4) (Z.quot (i2y idx) 4))]
      else []).

(** BloomGuassian: blocks of 16x16 threads for tiles of 12x12 pixels;
    [size] is not used.  (The read of [exposure[2]] goes to a device
    array, not to a surface.) *)
Definition BloomGuassian (size : Int2) (blockIdx threadIdx : dim2) : list event :=
  let tx := dx threadIdx in
  let ty := dy threadIdx in
  let idx2 := mkInt2 (Z.of_nat (dx blockIdx * 12 + tx) - 2)
                     (Z.of_nat (dy blockIdx * 12 + ty) - 2) in
  [Load inBuffer idx2; SharedStore (cell2 16 tx ty)]
  ++ (if ((tx <? 2) || (ty <? 2) || (13 <? tx) || (13 <? ty))%nat then [] else
      SyncThreads
      :: map (fun i => SharedLoad (cell2 16 (tx + i mod 5 - 2) (ty + i / 5 - 2))) (seq 0 25)
      ++ [Store outBuffer idx2]).

(** MedianFilter: what the thread does after the guard depends on the
    tile, through the depth test and the subscript of the candidate. *)
Definition MedianFilter (GetLuma : Float3 -> R) (RayMax : R)
  (sharedBuffer : list MedianFilter.LDS) (size : Int2) (blockIdx threadIdx : dim2)
  : list event :=
  let bx := dx blockIdx in
  let by_ := dy blockIdx in
  let tx := dx threadIdx in
  let ty := dy threadIdx in
  let x := Z.of_nat (tx + bx * MedianFilter.blockdim) in
  let y := Z.of_nat (ty + by_ * MedianFilter.blockdim) in
  let id := (tx + ty * MedianFilter.blockdim)%nat in
  let second := (id + MedianFilter.blockdim * MedianFilter.blockdim)%nat in
  [Load colorBuffer (MedianFilter.cell_coord bx by_ id);
   Load normalDepthBuffer (MedianFilter.cell_coord bx by_ id);
   SharedStore id]
  ++ (if (second <? MedianFilter.ldsBlockdim * MedianFilter.ldsBlockdim)%nat
      then [Load colorBuffer (MedianFilter.cell_coord bx by_ second);
            Load normalDepthBuffer (MedianFilter.cell_coord bx by_ second);
            SharedStore second]
      else [])
  ++ [SyncThreads]
  ++ (if outside (mkInt2 x y) size then [] else
      let center := (tx + MedianFilter.ldsAccessOffset
                     + (ty + MedianFilter.ldsAccessOffset) * MedianFilter.ldsBlockdim)%nat in
      SharedLoad center
      :: (if Rle_dec RayMax (MedianFilter.depth (nth center sharedBuffer MedianFilter.dummyLDS))
          then [] else
          map SharedLoad (MedianFilter.window_cells tx ty)
          ++ repeat (SharedLoad (Z.to_nat (MedianFilter.medianColorIdx GetLuma sharedBuffer tx ty))) 4
          ++ [Store colorBuffer (mkInt2 x y)])).

(** *** Barriers *)

(** The operations of a trace, each with the number of barriers the
    thread has passed before it. *)
Fixpoint phases (k : nat) (tr : list event) : list (nat * event) :=
  match tr with
  | [] => []
  | SyncThreads :: t => phases (S k) t
  | e :: t => (k, e) :: phases k t
  end.

(** How many barriers a thread executes. *)
Fixpoint syncs (tr : list event) : nat :=
  match tr with
  | [] => 0
  | SyncThreads :: t => S (syncs t)
  | _ :: t => syncs t
  end.

(** A store to a cell by one thread and a load of that cell by another
    thread have a barrier between them: the storing thread has passed
    fewer barriers before its store than the loading thread before its
    load. *)
Definition barrier_separated (threads : list dim2) (trace : dim2 -> list event) : Prop :=
  forall t1 t2 c k1 k2,
    In t1 threads -> In t2 threads -> t1 <> t2 ->
    In (k1, SharedStore c) (phases 0 (trace t1)) ->
    In (k2, SharedLoad c) (phases 0 (trace t2)) ->
    (k1 < k2)%nat.

(** Every thread of the block executes every barrier. *)
Definition barriers_by_all (threads : list dim2) (trace : dim2 -> list event) : Prop :=
  forall t1 t2, In t1 threads -> In t2 threads -> syncs (trace t1) = syncs (trace t2).

(** The threads of a block of [n] x [n] threads. *)
Definition block (n : nat) : list dim2 :=
  flat_map (fun ty => map (fun tx => mkDim2 tx ty) (seq 0 n)) (seq 0 n).

(** A kernel is guarded when a thread whose pixel is outside [size]
    performs no operation at all and every surface operation of the
    other threads is at the thread's own pixel, which is in bounds. *)
Definition guarded (kernel : Int2 -> dim2 -> dim2 -> dim2 -> list event) : Prop :=
  forall size blockIdx blockDim threadIdx,
    (outside (global_idx blockIdx blockDim threadIdx) size = true ->
     kernel size blockIdx blockDim threadIdx = []) /\
    (forall e c, In e (kernel size blockIdx blockDim threadIdx) ->
                 surface_coord e = Some c ->
                 c = global_idx blockIdx blockDim threadIdx /\ in_bounds size c).

End Trace.

(** ** Lens flare *)

Module LensFlare.

Definition add2 (a b : Float2) : Float2 := mkFloat2 (f2x a + f2x b) (f2y a + f2y b).
Definition sub2 (a b : Float2) : Float2 := mkFloat2 (f2x a - f2x b) (f2y a - f2y b).
Definition scale2 (a : Float2) (k : R) : Float2 := mkFloat2 (f2x a * k) (f2y a * k).
Definition div2 (a : Float2) (k : R) : Float2 := mkFloat2 (f2x a / k) (f2y a / k).
Definition adds2 (a : Float2) (k : R) : Float2 := mkFloat2 (f2x a + k) (f2y a + k).
Definition length2 (a : Float2) : R := sqrt (f2x a * f2x a + f2y a * f2y a).

Definition adds3 (a : Float3) (k : R) : Float3 := mkFloat3 (f3x a + k) (f3y a + k) (f3z a + k).
Definition cos3f (a : Float3) : Float3 := mkFloat3 (cos (f3x a)) (cos (f3y a)) (cos (f3z a)).

Definition sinf (x : R) : R := sin x.
Definition cosf (x : R) : R := cos x.

(** [powf] on the arguments the kernel gives it: a base that is never
    negative and an exponent that is positive. *)
Definition powf (x y : R) : R := if Rlt_dec 0 x then Rpower x y else 0.

Definition TWO_PI : R := 2 * PI.

Section Kernel.

(** [atan2f] and two helpers of linear_math.h, which is not among the
    sources. *)
Variable atan2f : R -> R -> R.
Variable fract : R -> R.
Variable smoothstep1f : R -> R -> R -> R.

Definition LensFlareRand (w : R) : R := fract (sinf w * 1000.0).

Definition LensFlareRegShape (p : Float2) (N : Z) : R :=
  let a := atan2f (f2x p) (f2y p) + 0.2 in
  let b := TWO_PI / IZR N in
  let f := smoothstep1f 0.5 0.51 (cosf (floorf (0.5 + a / b) * b - a) * length2 p) in
  f.

(** The four shapes of one flare element. *)
Definition circle_c (p : Float2) (size dist : R) (mouse : Float2) : R :=
  Rmax (0.01 - powf (length2 (add2 p (scale2 mouse dist))) (size * 1.4)) 0.0 * 30.0.
Definition circle_c1 (p : Float2) (size dist : R) (mouse : Float2) : R :=
  let l := length2 (add2 p (scale2 mouse (dist * 4.0))) + size / 2.0 in
  Rmax (0.001 - powf (l - 0.3) (1.0 / 40.0) + sinf (l * 30.0)) 0.0 * 3.0.
Definition circle_c2 (p : Float2) (size dist : R) (mouse : Float2) : R :=
  Rmax (0.04 / powf (length2 (adds2 (sub2 p (div2 (scale2 mouse dist) 2.0)) 0.09) * 1.0) 1.0)
       0.0 / 20.0.
Definition circle_s (p : Float2) (size dist : R) (mouse : Float2) : R :=
  Rmax (0.01 - powf (LensFlareRegShape
                       (adds2 (add2 (scale2 p 5.0) (scale2 (scale2 mouse dist) 5.0)) 0.9)
                       (truncate 6.0)) 1.0) 0.0 * 6.0.

Definition LensFlareCircle (p : Float2) (size dist : R) (mouse : Float2) : Float3 :=
  let c := circle_c p size dist mouse in
  let c1 := circle_c1 p size dist mouse in
  let c2 := circle_c2 p size dist mouse in
  let s := circle_s p size dist mouse in
  let color :=
    adds3 (scale3 (cos3f (adds3 (scale3 (mkFloat3 0.44 0.24 0.2) 8.0) (dist * 4.0))) 0.5) 0.5 in
  let f := scale3 color c in
  let f := add3 f (scale3 color c1) in
  let f := add3 f (scale3 color c2) in
  let f := add3 f (scale3 color s) in
  adds3 f (- 0.01).

(** The texture coordinate of a pixel, centred and aspect-corrected. *)
Definition pixel_uv (idx size : Int2) : Float2 :=
  let uv := mkFloat2 (IZR (i2x idx) / IZR (i2x size)) (IZR (i2y idx) / IZR (i2y size)) in
  let uv := sub2 uv (mkFloat2 0.5 0.5) in
  mkFloat2 (f2x uv * (IZR (i2x size) / IZR (i2y size))) (f2y uv).

(** The element of iteration [i] of the loop. *)
Definition flare_element (i : R) (uv sunPos : Float2) : Float3 :=
  LensFlareCircle uv
    (powf (LensFlareRand (i * 2000.0) * 1.8) 2.0 + 1.41)
    (LensFlareRand (i * 20.0) * 3.0 + 0.2 - 0.5)
    sunPos.

(** "add the sun with the frill things": the two scalars added to
    every channel.  (At [len = 0] the quotient of the second one is
    infinite in floats and 0 in the reals; the properties below are
    stated for [0 < len].) *)
Definition sun_glow1 (len angle : R) : R :=
  Rmax (0.1 / Rmax (powf (len * 10.0) 5.0) 0.0001) 0.0
  * Rabs (sinf (angle * 5.0 + cosf (angle * 9.0))) / 20.0.
Definition sun_glow2 (len angle : R) : R :=
  Rmax (0.1 / powf (len * 10.0) (1.0 / 20.0)) 0.0
  + Rabs (sinf (angle * 3.0 + cosf (angle * 9.0))) / 16.0 * Rabs (sinf (angle * 9.0)).

(** The kernel for one thread: the texel it stores and where, or [None]
    when the thread returns at the guard. *)
Definition LensFlare (sunPos : Float2) (colorBuffer : Int2 -> Float4) (size : Int2)
  (blockIdx blockDim threadIdx : dim2) : option (Int2 * Float4) :=
  let idx := global_idx blockIdx blockDim threadIdx in
  if outside idx size then None else
  let uv := pixel_uv idx size in
  let vec := sub2 uv sunPos in
  let len := length2 vec in
  let color := f4xyz (colorBuffer idx) in
  let color := add3 color (flare_element 0 uv sunPos) in
  let color := add3 color (flare_element 1 uv sunPos) in
  let angle := atan2f (f2y vec) (f2x vec) in
  let color := adds3 color (sun_glow1 len angle) in
  let color := adds3 color (sun_glow2 len angle) in
  Some (idx, mkFloat4 color 1.0).

End Kernel.

(** *** The helpers with their usual meaning, and example data *)

Definition fract_std (x : R) : R := x - floorf x.
Definition smoothstep_std (edge0 edge1 x : R) : R :=
  let t := Rmax 0 (Rmin ((x - edge0) / (edge1 - edge0)) 1) in
  t * t * (3 - 2 * t).
Definition atan2_std (y x : R) : R :=
  if Rlt_dec 0 x then atan (y / x)
  else if Rlt_dec x 0 then (if Rle_dec 0 y then atan (y / x) + PI else atan (y / x) - PI)
  else if Rlt_dec 0 y then PI / 2
  else if Rlt_dec y 0 then - (PI / 2) else 0.

(** The pixel at uv = (0.76, 0) with the sun at (-0.8, 0). *)
Definition far_uv : Float2 := mkFloat2 0.76 0.
Definition left_sun : Float2 := mkFloat2 (-0.8) 0.

(** A sun far outside the image, for the leftmost pixel of the middle
    row of a 64 x 16 image, whose uv is (-2, 0): seen from that pixel
    the sun is at distance 10^18, in the direction of 60 degrees. *)
Definition edge_uv : Float2 := mkFloat2 (-2) 0.
Definition far_sun : Float2 := mkFloat2 (-2 - 5 * 10 ^ 17) (- (sqrt 3 * (5 * 10 ^ 17))).

End LensFlare.

(** ** Copy to the output surface *)

Module CopyToOutput.

Record uchar4 := make_uchar4 { ucx : Z; ucy : Z; ucz : Z; ucw : Z }.

(** Modelled from the spec: [clamp3f] is declared in linear_math.h,
    which is not among the sources; the output writer "clamps ... to
    [0,1] per channel". *)
Definition clamp3f (v lo hi : Float3) : Float3 :=
  mkFloat3 (Rmax (f3x lo) (Rmin (f3x v) (f3x hi)))
           (Rmax (f3y lo) (Rmin (f3y v) (f3y hi)))
           (Rmax (f3z lo) (Rmin (f3z v) (f3z hi))).

(** A float passed where [make_uchar4] expects an [unsigned char]. *)
Definition uchar_of_float (x : R) : Z := truncate x.

(** The kernel for one thread: the four bytes it writes, with the byte
    offset [idx.x * 4] and the row [idx.y] of the write, or [None] when
    the thread returns at the guard. *)
Definition CopyToOutput (outputResColor : Int2 -> Float4) (outSize : Int2)
  (blockIdx blockDim threadIdx : dim2) : option (Z * Z * uchar4) :=
  let idx := global_idx blockIdx blockDim threadIdx in
  if outside idx outSize then None else
  let sampledColor := f4xyz (outputResColor idx) in
  let sampledColor := clamp3f sampledColor (splat3 0) (splat3 1) in
  Some ((i2x idx * 4)%Z, i2y idx,
        make_uchar4 (uchar_of_float (f3x sampledColor * 255 + 0.5))
                    (uchar_of_float (f3y sampledColor * 255 + 0.5))
                    (uchar_of_float (f3z sampledColor * 255 + 0.5))
                    (uchar_of_float 1.0)).

End CopyToOutput.

(** ** More component-wise operations

    Vector by vector, scalar by vector, vector by scalar, negation. *)

Definition mul3 (a b : Float3) : Float3 :=
  mkFloat3 (f3x a * f3x b) (f3y a * f3y b) (f3z a * f3z b).
Definition div3 (a b : Float3) : Float3 :=
  mkFloat3 (f3x a / f3x b) (f3y a / f3y b) (f3z a / f3z b).
Definition smul3 (k : R) (a : Float3) : Float3 :=
  mkFloat3 (k * f3x a) (k * f3y a) (k * f3z a).
Definition sdiv3 (k : R) (a : Float3) : Float3 :=
  mkFloat3 (k / f3x a) (k / f3y a) (k / f3z a).
Definition subs3 (a : Float3) (k : R) : Float3 :=
  mkFloat3 (f3x a - k) (f3y a - k) (f3z a - k).
Definition ssub3 (k : R) (a : Float3) : Float3 :=
  mkFloat3 (k - f3x a) (k - f3y a) (k - f3z a).
Definition neg3 (a : Float3) : Float3 := mkFloat3 (- f3x a) (- f3y a) (- f3z a).

(** ** The histogram kernel *)

Module Histogram2.
Import AutoExposure.

Definition log2f (x : R) : R := ln x / ln 2.

(** [rintf]: the nearest integer, a tie going to the even one. *)
Definition rintf (x : R) : R :=
  let n := Int_part x in
  let r := x - IZR n in
  if Rlt_dec r 0.5 then IZR n
  else if Rlt_dec 0.5 r then IZR (n + 1)
  else if Z.even n then IZR n else IZR (n + 1).

(** The bucket of a luminance.  ([log2f] of a luminance that is not
    positive is minus infinity or NaN; the properties below are stated
    for positive luminances.) *)
Definition fBucket (luminance : R) : Z :=
  let logLuminance := log2f luminance * 0.1 + 0.75 in
  truncate (rintf (clampf logLuminance 0.0 1.0 * 63 * 0.99999)).

(** [atomicInc(address, val)]: the new value of the counter. *)
Definition atomicInc (old val : Z) : Z :=
  if (old >=? val)%Z then 0%Z else (old + 1)%Z.

Section Kernel.

(** [Float3::getmax] is a member of linear_math.h, which is not among
    the sources. *)
Variable getmax : Float3 -> R.
Variable InBuffer : Int2 -> Float4.

(** The kernel for one thread: the histogram after its atomic
    increment. *)
Definition Histogram2 (histogram : list Z) (size : Int2)
  (blockIdx blockDim threadIdx : dim2) : list Z :=
  let idx := global_idx blockIdx blockDim threadIdx in
  if outside idx size then histogram else
  let color := f4xyz (InBuffer idx) in
  let luminance := getmax color in
  let fBucket := Z.to_nat (fBucket luminance) in
  upd fBucket (atomicInc (nth fBucket histogram 0%Z) (i2x size * i2y size)) histogram.

(** The index vectors below [n], [y] major. *)
Definition indices (n : dim2) : list dim2 :=
  flat_map (fun y => map (fun x => mkDim2 x y) (seq 0 (dx n))) (seq 0 (dy n)).

(** The threads of a launch, each with its block. *)
Definition launch (gridDim blockDim : dim2) : list (dim2 * dim2) :=
  flat_map (fun b => map (pair b) (indices blockDim)) (indices gridDim).

(** The atomic increments take effect one after the other, in the
    order [order] of the threads. *)
Definition run (order : list (dim2 * dim2)) (blockDim : dim2) (size : Int2)
  (histogram : list Z) : list Z :=
  fold_left (fun h bt => Histogram2 h size (fst bt) blockDim (snd bt)) order histogram.

End Kernel.

(** Is the pixel of a thread inside the image? *)
Definition inside (blockDim : dim2) (size : Int2) (bt : dim2 * dim2) : bool :=
  negb (outside (global_idx (fst bt) blockDim (snd bt)) size).

(** The sum of the counters. *)
Definition total (histogram : list Z) : Z := fold_right Z.add 0%Z histogram.

End Histogram2.

(** ** More example data for the median filter *)

Module MedianFilterData.
Import MedianFilter.

(** A grey sample of another material: as [grey_sample], with mask 1. *)
Definition other_material (v : R) : LDS := mkLDS (splat3 v) 1 (mkFloat3 0 0 1) 1%Z.

End MedianFilterData.

(** ** Cells of the shared arrays *)

Module SharedTile.
Import Trace.

(** The cell an operation on the shared array addresses. *)
Definition shared_cell (e : event) : option nat :=
  match e with
  | SharedStore c | SharedLoad c => Some c
  | _ => None
  end.

(** [c] is the cell [a[x][y]] of an array declared [a[n][n]] for
    subscripts [x] and [y] below [n]. *)
Definition within (n c : nat) : Prop :=
  exists x y, (x < n)%nat /\ (y < n)%nat /\ c = cell2 n x y.

End SharedTile.

(** ** Tone mapping *)

Module ToneMapping.

(** [pow3f] is declared in linear_math.h, which is not among the
    sources: [powf] on every component, with [powf] as in the lens
    flare.  (That [powf] gives 0 for a base that is not positive; C's
    gives 0 for the base 0 and is not a number for a negative base.
    The curve is negative for some negative arguments, so the
    properties of the tone mapping are stated for texels and exposure
    values that are not negative, where no base is negative.) *)
Definition pow3f (a : Float3) (y : R) : Float3 :=
  mkFloat3 (LensFlare.powf (f3x a) y) (LensFlare.powf (f3y a) y) (LensFlare.powf (f3z a) y).

Definition Uncharted2Tonemap (x : Float3) : Float3 :=
  let A := 0.15 in
  let B := 0.50 in
  let C := 0.10 in
  let D := 0.20 in
  let E := 0.02 in
  let F := 0.30 in
  subs3 (div3 (LensFlare.adds3 (mul3 x (LensFlare.adds3 (smul3 A x) (C * B))) (D * E))
              (LensFlare.adds3 (mul3 x (LensFlare.adds3 (smul3 A x) B)) (D * F)))
        (E / F).

(** The kernel for one thread: the texel it stores and where, or [None]
    when the thread returns at the guard. *)
Definition ToneMapping (colorBuffer : Int2 -> Float4) (size : Int2) (exposure : list R)
  (blockIdx blockDim threadIdx : dim2) : option (Int2 * Float4) :=
  let idx := global_idx blockIdx blockDim threadIdx in
  if outside idx size then None else
  let W := 11.2 in
  let texColor := f4xyz (colorBuffer idx) in
  let texColor := scale3 texColor (nth 0 exposure 0) in
  let ExposureBias := 2.0 in
  let curr := Uncharted2Tonemap (smul3 ExposureBias texColor) in
  let whiteScale := sdiv3 1.0 (Uncharted2Tonemap (splat3 W)) in
  let color := mul3 curr whiteScale in
  let retColor := CopyToOutput.clamp3f (pow3f color (1.0 / 2.2)) (splat3 0) (splat3 1) in
  Some (idx, mkFloat4 retColor 1.0).

(** One channel of the curve. *)
Definition curve (x : R) : R :=
  (x * (0.15 * x + 0.10 * 0.50) + 0.20 * 0.02) / (x * (0.15 * x + 0.50) + 0.20 * 0.30)
  - 0.02 / 0.30.

(** One channel of the kernel's result. *)
Definition tone (c e : R) : R :=
  Rmax 0 (Rmin (LensFlare.powf (curve (2.0 * (c * e)) * (1.0 / curve 11.2)) (1.0 / 2.2)) 1).

(** The component-wise order of colours. *)
Definition le3 (a b : Float3) : Prop :=
  f3x a <= f3x b /\ f3y a <= f3y b /\ f3z a <= f3z b.

End ToneMapping.

(** ** Sharpening *)

Module SharpeningFilter.

(** [rsqrt3f] is declared in linear_math.h, which is not among the
    sources: by its name, the reciprocal square root [rsqrtf] on every
    component.  (At 0 the reciprocal square root of a float is
    +infinity and the weight computed from it is -0; in the reals 1 / 0
    is 0 and the weight is 0 as well.) *)
Definition rsqrt3f (a : Float3) : Float3 :=
  mkFloat3 (1 / sqrt (f3x a)) (1 / sqrt (f3y a)) (1 / sqrt (f3z a)).

Definition sharpness : R := 1.0.

Section Kernel.

(** Helpers of linear_math.h, which is not among the sources: [clamp3f]
    with one argument (its default bounds are declared there), [min3f]
    and [max3f]. *)
Variable clamp3f : Float3 -> Float3.
Variables min3f max3f : Float3 -> Float3 -> Float3.

Definition min3f3 (v1 v2 v3 : Float3) : Float3 := min3f (min3f v1 v2) v3.
Definition max3f3 (v1 v2 v3 : Float3) : Float3 := max3f (max3f v1 v2) v3.

(** The kernel for one thread: the texel it stores and where, or [None]
    when the thread returns at the guard. *)
Definition SharpeningFilter (colorBuffer : Int2 -> Float4) (texSize : Int2)
  (blockIdx blockDim threadIdx : dim2) : option (Int2 * Float4) :=
  let idx := global_idx blockIdx blockDim threadIdx in
  if outside idx texSize then None else
  let color (i j : Z) :=
    f4xyz (colorBuffer (mkInt2 (i2x idx + (i - 1))%Z (i2y idx + (j - 1))%Z)) in
  let x := 1%Z in
  let y := 1%Z in
  let tmp1 := max3f3 (color x y) (color (x - 1)%Z y) (color (x + 1)%Z y) in
  let tmp2 := max3f3 tmp1 (color x (y - 1)%Z) (color x (y + 1)%Z) in
  let tmp3 := max3f3 tmp2 (color (x - 1)%Z (y - 1)%Z) (color (x - 1)%Z (y + 1)%Z) in
  let tmp4 := max3f3 tmp3 (color (x + 1)%Z (y - 1)%Z) (color (x + 1)%Z (y + 1)%Z) in
  let softmax := add3 tmp2 tmp4 in
  let tmp1 := min3f3 (color x y) (color (x - 1)%Z y) (color (x + 1)%Z y) in
  let tmp2 := min3f3 tmp1 (color x (y - 1)%Z) (color x (y + 1)%Z) in
  let tmp3 := min3f3 tmp2 (color (x - 1)%Z (y - 1)%Z) (color (x - 1)%Z (y + 1)%Z) in
  let tmp4 := min3f3 tmp3 (color (x + 1)%Z (y - 1)%Z) (color (x + 1)%Z (y + 1)%Z) in
  let softmin := add3 tmp2 tmp4 in
  let amp := clamp3f (div3 (min3f softmin (ssub3 2.0 softmax)) softmax) in
  let amp := rsqrt3f amp in
  let peak := 8.0 - 3.0 * sharpness in
  let w := div3 (neg3 (splat3 1.0)) (scale3 amp peak) in
  let outColor :=
    add3 (mul3 (add3 (add3 (add3 (color 0 1)%Z (color 2 1)%Z) (color 1 0)%Z) (color 1 2)%Z) w)
         (color 1 1)%Z in
  let outColor := div3 outColor (add3 (splat3 1.0) (mul3 (splat3 4.0) w)) in
  Some (idx, mkFloat4 outColor 1.0).

End Kernel.

(** The weight of the four neighbours, on one channel, from the clamped
    amplitude [a]. *)
Definition weight (a : R) : R := Ropp 1.0 / (1 / sqrt a * (8.0 - 3.0 * sharpness)).

(** One channel of the result, from the centre [c], the sum [s] of the
    four neighbours and the weight. *)
Definition sharpened (c s w : R) : R := (s * w + c) / (1.0 + 4.0 * w).

(** The texel of the colour surface at offset (i, j) from a pixel. *)
Definition texel_at (colorBuffer : Int2 -> Float4) (idx : Int2) (i j : Z) : Float3 :=
  f4xyz (colorBuffer (mkInt2 (i2x idx + i)%Z (i2y idx + j)%Z)).

(** The sum of the four axis neighbours of a pixel. *)
Definition cross_sum (colorBuffer : Int2 -> Float4) (idx : Int2) : Float3 :=
  add3 (add3 (add3 (texel_at colorBuffer idx (-1) 0) (texel_at colorBuffer idx 1 0))
             (texel_at colorBuffer idx 0 (-1)))
       (texel_at colorBuffer idx 0 1).

(** The helpers with their usual meaning: the smaller and the larger
    of two colours and the clamp to [0, 1], on every component. *)
Definition min3f_std (a b : Float3) : Float3 :=
  mkFloat3 (Rmin (f3x a) (f3x b)) (Rmin (f3y a) (f3y b)) (Rmin (f3z a) (f3z b)).
Definition max3f_std (a b : Float3) : Float3 :=
  mkFloat3 (Rmax (f3x a) (f3x b)) (Rmax (f3y a) (f3y b)) (Rmax (f3z a) (f3z b)).
Definition clamp3f_std (v : Float3) : Float3 :=
  CopyToOutput.clamp3f v (splat3 0) (splat3 1).

(** Between 0 and 1 on every component. *)
Definition unit3 (a : Float3) : Prop :=
  0 <= f3x a <= 1 /\ 0 <= f3y a <= 1 /\ 0 <= f3z a <= 1.

End SharpeningFilter.

(** ** Quantisation to bytes *)

Module Quantise.
(** The byte [b] is the nearest one to 255 times the channel [c]
    clamped to [0, 1], a tie going up. *)
Definition nearest_byte (c : R) (b : Z) : Prop :=
  IZR b - 1 / 2 <= 255 * Rmax 0 (Rmin c 1) < IZR b + 1 / 2.
End Quantise.

(** ** The Gaussian kernels of the bloom *)

Module Gaussian.

Definition GAUSSIAN_5x5_SIGMA : R := 1.0.

Definition GaussianIsotropic2D (x y sigma : R) : R :=
  exp (- (x * x + y * y) / (2 * sigma * sigma)) / (2 * PI * sigma * sigma).

Section Kernel.
Variables (sigma : R) (radius : nat).

Definition size : nat := radius * 2 + 1.
Definition step : nat := 100.
Definition kernelSize : nat := size * size.
Definition sampleDimSize : nat := size * step.
Definition sampleCount : nat := sampleDimSize * sampleDimSize.

(** The first loop: the Gaussian sampled on a grid of [step] points per
    cell. *)
Definition sampleData : list R :=
  map (fun i =>
         let xi := (i mod sampleDimSize)%nat in
         let yi := (i / sampleDimSize)%nat in
         let x := INR xi / INR step in
         let y := INR yi / INR step in
         let offset := INR size / 2 in
         let x := x - offset in
         let y := y - offset in
         GaussianIsotropic2D x y sigma)
      (seq 0 sampleCount).

(** The two inner loops of the second loop: the sum of the samples of
    cell (xi, yi). *)
Definition valSum (xi yi : nat) : R :=
  fold_left (fun valSum x =>
               fold_left (fun valSum y => valSum + nth (y * sampleDimSize + x) sampleData 0)
                         (seq (yi * step) step) valSum)
            (seq (xi * step) step) 0.

(** The array [fGaussian] the function fills. *)
Definition CalculateGaussianKernel : list R :=
  map (fun i =>
         let xi := (i mod size)%nat in
         let yi := (i / size)%nat in
         valSum xi yi / INR (step * step))
      (seq 0 kernelSize).

End Kernel.

(** What CalculateGaussian5x5 copies to the device. *)
Definition cGaussian5x5 : list R := CalculateGaussianKernel GAUSSIAN_5x5_SIGMA 2.

(** The sum of a list of reals. *)
Definition Rsum (l : list R) : R := fold_right Rplus 0 l.

End Gaussian.

(** * Properties *)

Lemma upd_length {A : Type} i (v : A) p : length (upd i v p) = length p.
Proof.
  revert i; induction p as [|h t IH]; intros [|j]; simpl; auto.
Qed.

(** ** sort9 leaves the median in cell 4 *)

Module Sort9Facts.
Import Sort9.

Section NetMorphism.
Context {T U : Type}.
Variables (lo2 hi2 mn mx : T -> T -> T) (lo2' hi2' mn' mx' : U -> U -> U).
Variable f : T -> U.
Hypothesis f_lo : forall a b, f (lo2 a b) = lo2' (f a) (f b).
Hypothesis f_hi : forall a b, f (hi2 a b) = hi2' (f a) (f b).
Hypothesis f_mn : forall a b, f (mn a b) = mn' (f a) (f b).
Hypothesis f_mx : forall a b, f (mx a b) = mx' (f a) (f b).

Lemma net9_morphism a0 a1 a2 a3 a4 a5 a6 a7 a8 :
  f (net9 lo2 hi2 mn mx a0 a1 a2 a3 a4 a5 a6 a7 a8)
  = net9 lo2' hi2' mn' mx' (f a0) (f a1) (f a2) (f a3) (f a4) (f a5) (f a6) (f a7) (f a8).
Proof.
  unfold net9, s3lo, s3mid, s3hi.
  repeat (rewrite f_lo || rewrite f_hi || rewrite f_mn || rewrite f_mx).
  reflexivity.
Qed.
End NetMorphism.

(** Every comparison of the network, decided one at a time. *)
Ltac decide_cmp :=
  repeat match goal with
         | |- context [Rgt_dec ?a ?b] => destruct (Rgt_dec a b); simpl in *
         | |- context [Rlt_dec ?a ?b] => destruct (Rlt_dec a b); simpl in *
         end.

(** [sort3] on explicit cells: three selections, whatever the positions. *)
Ltac sort3_cells :=
  intros; unfold sort3, sort2, swap, get, s3lo, s3mid, s3hi, lo, hi; simpl;
  decide_cmp; first [reflexivity | exfalso; lra].

Lemma sort3_012 b0 b1 b2 b3 b4 b5 b6 b7 b8 :
  sort3 0 1 2 [b0; b1; b2; b3; b4; b5; b6; b7; b8]
  = [s3lo lo b0 b1 b2; s3mid lo hi b0 b1 b2; s3hi lo hi b0 b1 b2; b3; b4; b5; b6; b7; b8].
Proof. sort3_cells. Qed.

Lemma sort3_345 b0 b1 b2 b3 b4 b5 b6 b7 b8 :
  sort3 3 4 5 [b0; b1; b2; b3; b4; b5; b6; b7; b8]
  = [b0; b1; b2; s3lo lo b3 b4 b5; s3mid lo hi b3 b4 b5; s3hi lo hi b3 b4 b5; b6; b7; b8].
Proof. sort3_cells. Qed.

Lemma sort3_678 b0 b1 b2 b3 b4 b5 b6 b7 b8 :
  sort3 6 7 8 [b0; b1; b2; b3; b4; b5; b6; b7; b8]
  = [b0; b1; b2; b3; b4; b5; s3lo lo b6 b7 b8; s3mid lo hi b6 b7 b8; s3hi lo hi b6 b7 b8].
Proof. sort3_cells. Qed.

Lemma sort3_147 b0 b1 b2 b3 b4 b5 b6 b7 b8 :
  sort3 1 4 7 [b0; b1; b2; b3; b4; b5; b6; b7; b8]
  = [b0; s3lo lo b1 b4 b7; b2; b3; s3mid lo hi b1 b4 b7; b5; b6; s3hi lo hi b1 b4 b7; b8].
Proof. sort3_cells. Qed.

Lemma sort3_246 b0 b1 b2 b3 b4 b5 b6 b7 b8 :
  sort3 2 4 6 [b0; b1; b2; b3; b4; b5; b6; b7; b8]
  = [b0; b1; s3lo lo b2 b4 b6; b3; s3mid lo hi b2 b4 b6; b5; s3hi lo hi b2 b4 b6; b7; b8].
Proof. sort3_cells. Qed.

(** On nine explicit cells the network computes [net9] in cell 4. *)
Lemma sort9_cell4 a0 a1 a2 a3 a4 a5 a6 a7 a8 :
  get 4 (sort9 [a0; a1; a2; a3; a4; a5; a6; a7; a8])
  = net9 lo hi min max a0 a1 a2 a3 a4 a5 a6 a7 a8.
Proof.
  unfold sort9.
  rewrite sort3_012, sort3_345, sort3_678.
  cbn [get nth upd].
  rewrite sort3_147, sort3_246.
  reflexivity.
Qed.

(** The luminance of a selected pair is the minimum or the maximum of
    the two luminances, whichever way ties are broken. *)
Lemma luma_lo a b : luma (lo a b) = Rmin (luma a) (luma b).
Proof. unfold lo, Rmin; destruct Rgt_dec, Rle_dec; try reflexivity; lra. Qed.

Lemma luma_hi a b : luma (hi a b) = Rmax (luma a) (luma b).
Proof. unfold hi, Rmax; destruct Rgt_dec, Rle_dec; try reflexivity; lra. Qed.

Lemma luma_min a b : luma (min a b) = Rmin (luma a) (luma b).
Proof. unfold min, Rmin; destruct Rlt_dec, Rle_dec; try reflexivity; lra. Qed.

Lemma luma_max a b : luma (max a b) = Rmax (luma a) (luma b).
Proof. unfold max, Rmax; destruct Rgt_dec, Rle_dec; try reflexivity; lra. Qed.

Lemma above_Rmin t a b : above t (Rmin a b) = above t a && above t b.
Proof. unfold above, Rmin; destruct Rle_dec; repeat destruct Rlt_dec; try reflexivity; lra. Qed.

Lemma above_Rmax t a b : above t (Rmax a b) = above t a || above t b.
Proof. unfold above, Rmax; destruct Rle_dec; repeat destruct Rlt_dec; try reflexivity; lra. Qed.

Lemma atleast_Rmin t a b : atleast t (Rmin a b) = atleast t a && atleast t b.
Proof.
  unfold atleast, Rmin; destruct (Rle_dec a b);
    destruct (Rle_dec t a), (Rle_dec t b); try reflexivity; lra.
Qed.

Lemma atleast_Rmax t a b : atleast t (Rmax a b) = atleast t a || atleast t b.
Proof.
  unfold atleast, Rmax; destruct (Rle_dec a b);
    destruct (Rle_dec t a), (Rle_dec t b); try reflexivity; lra.
Qed.

Lemma countb_perm f l l' : Permutation l l' -> countb f l = countb f l'.
Proof. induction 1; simpl; lia. Qed.

Lemma b2n_le1 b : (b2n b <= 1)%nat.
Proof. destruct b; simpl; lia. Qed.

(** On truth values the network is the majority of nine: the zero-one
    principle applied to cell 4. *)
Lemma net9_majority b0 b1 b2 b3 b4 b5 b6 b7 b8 :
  net9 andb orb andb orb b0 b1 b2 b3 b4 b5 b6 b7 b8
  = (5 <=? b2n b0 + (b2n b1 + (b2n b2 + (b2n b3 + (b2n b4 +
          (b2n b5 + (b2n b6 + (b2n b7 + (b2n b8 + 0)))))))))%nat.
Proof.
  destruct b0, b1, b2, b3, b4, b5, b6, b7, b8; reflexivity.
Qed.

(** The luminance in cell 4 is the lattice term [net9] of the nine
    input luminances. *)
Lemma sort9_cell4_luma a0 a1 a2 a3 a4 a5 a6 a7 a8 :
  luma (get 4 (sort9 [a0; a1; a2; a3; a4; a5; a6; a7; a8]))
  = net9 Rmin Rmax Rmin Rmax (luma a0) (luma a1) (luma a2) (luma a3)
         (luma a4) (luma a5) (luma a6) (luma a7) (luma a8).
Proof.
  rewrite sort9_cell4.
  apply (net9_morphism lo hi min max Rmin Rmax Rmin Rmax luma
           luma_lo luma_hi luma_min luma_max).
Qed.

(** Fewer than five inputs are strictly above the luminance of cell 4,
    and at least five inputs are at least as large. *)
Lemma sort9_cell4_counts (p : list LumaIdxPair) :
  length p = 9%nat ->
  (countb (above (luma (get 4 (sort9 p)))) (map luma p) <= 4)%nat /\
  (5 <= countb (atleast (luma (get 4 (sort9 p)))) (map luma p))%nat.
Proof.
  intros Hlen.
  do 9 (destruct p as [|? p]; [discriminate Hlen|]).
  destruct p; [clear Hlen|discriminate Hlen].
  set (m := luma (get 4 (sort9 _))).
  assert (Hm : m = luma (get 4 (sort9 [l; l0; l1; l2; l3; l4; l5; l6; l7])))
    by reflexivity.
  split.
  - assert (H : above m m = false)
      by (unfold above; destruct Rlt_dec; [lra | reflexivity]).
    rewrite Hm in H at 2. rewrite sort9_cell4_luma in H.
    rewrite (net9_morphism Rmin Rmax Rmin Rmax andb orb andb orb (above m)
               (above_Rmin m) (above_Rmax m) (above_Rmin m) (above_Rmax m)) in H.
    rewrite net9_majority in H. apply Nat.leb_gt in H.
    simpl map. simpl countb. lia.
  - assert (H : atleast m m = true)
      by (unfold atleast; destruct Rle_dec; [reflexivity | lra]).
    rewrite Hm in H at 2. rewrite sort9_cell4_luma in H.
    rewrite (net9_morphism Rmin Rmax Rmin Rmax andb orb andb orb (atleast m)
               (atleast_Rmin m) (atleast_Rmax m) (atleast_Rmin m) (atleast_Rmax m)) in H.
    rewrite net9_majority in H. apply Nat.leb_le in H.
    simpl map. simpl countb. lia.
Qed.

(** A selector returns one of its two arguments. *)
Section NetSelects.
Context {T : Type}.
Variables (lo2 hi2 mn mx : T -> T -> T) (P : T -> Prop).
Hypothesis P_lo : forall a b, P a -> P b -> P (lo2 a b).
Hypothesis P_hi : forall a b, P a -> P b -> P (hi2 a b).
Hypothesis P_mn : forall a b, P a -> P b -> P (mn a b).
Hypothesis P_mx : forall a b, P a -> P b -> P (mx a b).

Lemma net9_selects a0 a1 a2 a3 a4 a5 a6 a7 a8 :
  P a0 -> P a1 -> P a2 -> P a3 -> P a4 -> P a5 -> P a6 -> P a7 -> P a8 ->
  P (net9 lo2 hi2 mn mx a0 a1 a2 a3 a4 a5 a6 a7 a8).
Proof.
  intros; unfold net9, s3lo, s3mid, s3hi.
  repeat first [assumption | apply P_lo | apply P_hi | apply P_mn | apply P_mx].
Qed.
End NetSelects.

Lemma sort9_cell4_In (p : list LumaIdxPair) :
  length p = 9%nat -> In (get 4 (sort9 p)) p.
Proof.
  intros Hlen.
  do 9 (destruct p as [|? p]; [discriminate Hlen|]).
  destruct p; [clear Hlen|discriminate Hlen].
  rewrite sort9_cell4.
  apply net9_selects; try (simpl; tauto); intros a b Ha Hb.
  - unfold lo; destruct Rgt_dec; assumption.
  - unfold hi; destruct Rgt_dec; assumption.
  - unfold min; destruct Rlt_dec; assumption.
  - unfold max; destruct Rgt_dec; assumption.
Qed.

Lemma above_true t x : t < x -> above t x = true.
Proof. intros; unfold above; destruct Rlt_dec; [reflexivity | lra]. Qed.

Lemma atleast_false t x : x < t -> atleast t x = false.
Proof. intros; unfold atleast; destruct Rle_dec; [lra | reflexivity]. Qed.

(** In a sorted list of nine reals, the value [m] that has fewer than
    five elements above it and at least five elements not below it is
    the fifth element. *)
Lemma sorted9_rank4 (s : list R) (m : R) :
  length s = 9%nat -> Sorted Rle s ->
  (countb (above m) s <= 4)%nat -> (5 <= countb (atleast m) s)%nat ->
  nth 4 s 0 = m.
Proof.
  intros Hlen Hs Hab Hat.
  do 9 (destruct s as [|? s]; [discriminate Hlen|]).
  destruct s; [clear Hlen|discriminate Hlen].
  repeat match goal with
         | H : Sorted _ (_ :: _) |- _ => apply Sorted_inv in H; destruct H
         | H : HdRel _ _ (_ :: _) |- _ => apply HdRel_inv in H
         end.
  simpl nth. simpl in Hab, Hat.
  destruct (Rtotal_order r3 m) as [Hlt | [Heq | Hgt]]; [exfalso | exact Heq | exfalso].
  - rewrite (atleast_false m r), (atleast_false m r0), (atleast_false m r1),
      (atleast_false m r2), (atleast_false m r3) in Hat by lra.
    pose proof (b2n_le1 (atleast m r4)); pose proof (b2n_le1 (atleast m r5)).
    pose proof (b2n_le1 (atleast m r6)); pose proof (b2n_le1 (atleast m r7)).
    simpl in Hat. lia.
  - rewrite (above_true m r3), (above_true m r4), (above_true m r5),
      (above_true m r6), (above_true m r7) in Hab by lra.
    simpl in Hab. lia.
Qed.

(** C4. For every array of nine luma-index pairs, the pair that sort9
    leaves in cell 4 is one of the nine input pairs and its luminance
    is the median of the nine input luminances: it is the element of
    rank 4 (counting from 0) of the input luminances put in
    non-decreasing order. *)
Theorem sort9_median (p : list LumaIdxPair) (s : list R) :
  length p = 9%nat ->
  Permutation s (map luma p) -> Sorted Rle s ->
  luma (get 4 (sort9 p)) = nth 4 s 0 /\ In (get 4 (sort9 p)) p.
Proof.
  intros Hlen Hperm Hsort. split; [| apply sort9_cell4_In; exact Hlen].
  destruct (sort9_cell4_counts p Hlen) as [Hab Hat].
  symmetry. apply sorted9_rank4; trivial.
  - rewrite (Permutation_length Hperm), length_map; exact Hlen.
  - rewrite (countb_perm _ _ _ Hperm); exact Hab.
  - rewrite (countb_perm _ _ _ Hperm); exact Hat.
Qed.

Lemma sort9_median_witness :
  luma (get 4 (sort9 outlier_last)) = nth 4 [1; 1; 1; 1; 1; 1; 1; 1; 1000] 0
  /\ In (get 4 (sort9 outlier_last)) outlier_last.
Proof.
  apply (sort9_median outlier_last [1; 1; 1; 1; 1; 1; 1; 1; 1000]).
  - reflexivity.
  - apply Permutation_refl.
  - repeat constructor; lra.
Defined.

End Sort9Facts.

(** ** The median filter reads its candidate from the wrong cells *)

Module MedianFilterFacts.
Import Sort9 Sort9Facts MedianFilter.

(** The selectors on pairs whose luminances compare in a known way. *)
Lemma lo_keep a b : luma a <= luma b -> lo a b = a.
Proof. intros; unfold lo; destruct Rgt_dec; [lra | reflexivity]. Qed.
Lemma lo_swap a b : luma a > luma b -> lo a b = b.
Proof. intros; unfold lo; destruct Rgt_dec; [reflexivity | lra]. Qed.
Lemma hi_keep a b : luma a <= luma b -> hi a b = b.
Proof. intros; unfold hi; destruct Rgt_dec; [lra | reflexivity]. Qed.
Lemma hi_swap a b : luma a > luma b -> hi a b = a.
Proof. intros; unfold hi; destruct Rgt_dec; [reflexivity | lra]. Qed.
Lemma min_fst a b : luma a < luma b -> min a b = a.
Proof. intros; unfold min; destruct Rlt_dec; [reflexivity | lra]. Qed.
Lemma min_snd a b : luma b <= luma a -> min a b = b.
Proof. intros; unfold min; destruct Rlt_dec; [lra | reflexivity]. Qed.
Lemma max_fst a b : luma a > luma b -> max a b = a.
Proof. intros; unfold max; destruct Rgt_dec; [reflexivity | lra]. Qed.
Lemma max_snd a b : luma a <= luma b -> max a b = b.
Proof. intros; unfold max; destruct Rgt_dec; [lra | reflexivity]. Qed.

(** Evaluate a term of selectors from the inside, each comparison being
    settled by linear arithmetic from the facts at hand. *)
Ltac eval_selectors :=
  repeat match goal with
         | |- context [lo ?a ?b] =>
             first [rewrite (lo_keep a b) by (simpl; lra) | rewrite (lo_swap a b) by (simpl; lra)]
         | |- context [hi ?a ?b] =>
             first [rewrite (hi_keep a b) by (simpl; lra) | rewrite (hi_swap a b) by (simpl; lra)]
         | |- context [min ?a ?b] =>
             first [rewrite (min_fst a b) by (simpl; lra) | rewrite (min_snd a b) by (simpl; lra)]
         | |- context [max ?a ?b] =>
             first [rewrite (max_fst a b) by (simpl; lra) | rewrite (max_snd a b) by (simpl; lra)]
         end.

Lemma neighbourLumaIdx_length GetLuma sb tx ty :
  length (neighbourLumaIdx GetLuma sb tx ty) = 9%nat.
Proof. reflexivity. Qed.

(** The subscript found by the sort is a position 0..8 of the window. *)
Lemma medianColorIdx_range GetLuma sb tx ty :
  (0 <= medianColorIdx GetLuma sb tx ty <= 8)%Z.
Proof.
  unfold medianColorIdx.
  pose proof (sort9_cell4_In (neighbourLumaIdx GetLuma sb tx ty)
                (neighbourLumaIdx_length GetLuma sb tx ty)) as HIn.
  revert HIn. generalize (get 4 (sort9 (neighbourLumaIdx GetLuma sb tx ty))).
  intros q HIn. unfold neighbourLumaIdx in HIn. simpl in HIn.
  repeat (destruct HIn as [<- | HIn]; [simpl; lia|]). contradiction.
Qed.

(** X28. Whatever the thread and the tile, the sample taken as the
    median candidate is one of the first nine cells of the tile, that is
    of the top row of the halo: the window position 0..8 found by the
    sort is used as a tile subscript. *)
Lemma median_sample_first_cells GetLuma sb tx ty :
  exists k, (k <= 8)%nat /\ median_sample GetLuma sb tx ty = nth k sb dummyLDS.
Proof.
  exists (Z.to_nat (medianColorIdx GetLuma sb tx ty)). split; [|reflexivity].
  pose proof (medianColorIdx_range GetLuma sb tx ty). lia.
Qed.

(** Thread (4,0) on a tile where cell 4 is brighter than all other
    cells: the sort leaves window position 4, one of the eight equal
    cells, in cell 4. *)
Lemma outlier_tile_sorted (GetLuma : Float3 -> R) (base out : LDS) :
  GetLuma (color base) < GetLuma (color out) ->
  get 4 (sort9 (neighbourLumaIdx GetLuma (tile_outlier_at_4 base out) 4 0))
  = mkPair (GetLuma (color base)) 4.
Proof.
  intros Hlt.
  change (neighbourLumaIdx GetLuma (tile_outlier_at_4 base out) 4 0)
    with [mkPair (GetLuma (color out)) 0; mkPair (GetLuma (color base)) 1;
          mkPair (GetLuma (color base)) 2; mkPair (GetLuma (color base)) 3;
          mkPair (GetLuma (color base)) 4; mkPair (GetLuma (color base)) 5;
          mkPair (GetLuma (color base)) 6; mkPair (GetLuma (color base)) 7;
          mkPair (GetLuma (color base)) 8].
  rewrite sort9_cell4.
  unfold net9, s3lo, s3mid, s3hi.
  eval_selectors. reflexivity.
Qed.

(** C1. Thread (4,0) on a tile where cell 4 is brighter than all other
    cells: its window holds one outlier (its first cell) and eight equal
    cells, the median luminance is that of the eight, and yet the sample
    the kernel takes as the median candidate is the outlier. *)
Theorem median_sample_is_outlier (GetLuma : Float3 -> R) (base out : LDS) :
  GetLuma (color base) < GetLuma (color out) ->
  map (fun c => nth c (tile_outlier_at_4 base out) dummyLDS) (window_cells 4 0)
    = [out; base; base; base; base; base; base; base; base] /\
  luma (get 4 (sort9 (neighbourLumaIdx GetLuma (tile_outlier_at_4 base out) 4 0)))
    = GetLuma (color base) /\
  median_sample GetLuma (tile_outlier_at_4 base out) 4 0 = out.
Proof.
  intros Hlt. pose proof (outlier_tile_sorted GetLuma base out Hlt) as Hidx.
  split; [reflexivity|]. split.
  - rewrite Hidx; reflexivity.
  - unfold median_sample, medianColorIdx. rewrite Hidx. reflexivity.
Qed.

Lemma median_sample_is_outlier_witness :
  map (fun c => nth c (tile_outlier_at_4 (grey_sample 1) (grey_sample 1000)) dummyLDS)
      (window_cells 4 0)
    = [grey_sample 1000; grey_sample 1; grey_sample 1; grey_sample 1; grey_sample 1;
       grey_sample 1; grey_sample 1; grey_sample 1; grey_sample 1] /\
  luma (get 4 (sort9 (neighbourLumaIdx luma709
          (tile_outlier_at_4 (grey_sample 1) (grey_sample 1000)) 4 0)))
    = luma709 (color (grey_sample 1)) /\
  median_sample luma709 (tile_outlier_at_4 (grey_sample 1) (grey_sample 1000)) 4 0
    = grey_sample 1000.
Proof.
  apply (median_sample_is_outlier luma709 (grey_sample 1) (grey_sample 1000)).
  unfold luma709; simpl; lra.
Defined.

(** ** The final blend of the median filter *)

Lemma falloff_range x : 0 < min1f (expf x) 1 <= 1.
Proof.
  unfold min1f, expf. pose proof (exp_pos x).
  unfold Rmin; destruct Rle_dec; lra.
Qed.

(** The weight is a product of three factors in (0,1]. *)
Lemma blend_weight_range center median : 0 < blend_weight center median <= 1.
Proof.
  unfold blend_weight.
  set (a := min1f _ 1). set (b := min1f _ 1). set (c := min1f _ 1).
  pose proof (falloff_range (- dot3 (sub3 (normal center) (normal median))
                                 (sub3 (normal center) (normal median)) / 0.1)) as Ha.
  pose proof (falloff_range (- ((depth center - depth median)
                                * (depth center - depth median)) / 0.1)) as Hb.
  pose proof (falloff_range
                (- (if (mask center =? mask median)%Z then 0 else 1) / 0.1)) as Hc.
  fold a in Ha. fold b in Hb. fold c in Hc.
  assert (0 < 1 * a * b <= 1) by nra. nra.
Qed.

(** The claim "at most half of the way to the median" fails: with
    weight 1 the result is the median itself. *)
Lemma final_blend_not_at_most_half :
  ~ (forall colorValue medianColor weight, 0 <= weight <= 1 ->
       exists t, t <= 1 / 2 /\
                 final_blend colorValue medianColor weight
                 = add3 colorValue (scale3 (sub3 medianColor colorValue) t)).
Proof.
  intros H.
  destruct (H (splat3 0) (splat3 1) 1) as [t [Ht Heq]]; [lra|].
  apply (f_equal f3x) in Heq. simpl in Heq. lra.
Qed.

(** The blend as one interpolation from the original colour. *)
Lemma final_blend_formula (colorValue medianColor : Float3) (weight : R) :
  final_blend colorValue medianColor weight
  = add3 colorValue (scale3 (sub3 medianColor colorValue) ((1 + weight) / 2)).
Proof.
  unfold final_blend, lerp3f, add3, scale3, sub3; simpl.
  f_equal; lra.
Qed.

(** C5 (amended). For every original colour, median colour and blend
    weight in [0,1], the final colour is original + t * (median -
    original) with t = (1 + weight) / 2, which lies in [1/2, 1]: the
    result is pulled at least half of the way to the median sample, and
    all the way when the weight is 1. *)
Theorem final_blend_at_least_half (colorValue medianColor : Float3) (weight : R) :
  0 <= weight <= 1 ->
  final_blend colorValue medianColor weight
  = add3 colorValue (scale3 (sub3 medianColor colorValue) ((1 + weight) / 2))
  /\ 1 / 2 <= (1 + weight) / 2 <= 1.
Proof.
  intros Hw. split; [apply final_blend_formula | lra].
Qed.

Lemma final_blend_at_least_half_witness :
  final_blend (splat3 0) (splat3 1) 1
  = add3 (splat3 0) (scale3 (sub3 (splat3 1) (splat3 0)) ((1 + 1) / 2))
  /\ 1 / 2 <= (1 + 1) / 2 <= 1.
Proof.
  apply (final_blend_at_least_half (splat3 0) (splat3 1) 1). lra.
Defined.

(** The same for the texel a thread stores: its colour lies on the
    segment from the centre colour to the candidate colour, at least
    half of the way along. *)
Lemma filter_pixel_color GetLuma RayMax sb size bx by_ tx ty where_ texel :
  filter_pixel GetLuma RayMax sb size bx by_ tx ty = Some (where_, texel) ->
  exists t, 1 / 2 < t <= 1 /\
    xyz texel
    = add3 (color (nth (tx + ldsAccessOffset + (ty + ldsAccessOffset) * ldsBlockdim)
                       sb dummyLDS))
           (scale3 (sub3 (color (median_sample GetLuma sb tx ty))
                         (color (nth (tx + ldsAccessOffset
                                      + (ty + ldsAccessOffset) * ldsBlockdim) sb dummyLDS)))
                   t).
Proof.
  unfold filter_pixel.
  destruct (_ || _)%bool; [discriminate|].
  destruct Rle_dec; [discriminate|].
  set (center := nth _ sb dummyLDS).
  set (median := median_sample GetLuma sb tx ty).
  intros H; injection H as _ <-.
  pose proof (blend_weight_range center median) as Hw.
  exists ((1 + blend_weight center median) / 2). split; [lra|].
  unfold isnan; simpl.
  apply final_blend_formula.
Qed.

(** On that tile the thread is in bounds, its centre is a luminance-1
    sample with the candidate's normal, depth and mask, so the weight
    is 1 and the texel stored is the outlier's colour. *)
Lemma filter_pixel_spreads_outlier (GetLuma : Float3 -> R) (RayMax v : R) (bx by_ : nat) :
  GetLuma (splat3 1) < GetLuma (splat3 v) -> 1 < RayMax ->
  filter_pixel GetLuma RayMax (tile_outlier_at_4 (grey_sample 1) (grey_sample v))
               (mkInt2 (Z.of_nat (8 * bx + 8)) (Z.of_nat (8 * by_ + 8))) bx by_ 4 0
  = Some (mkInt2 (Z.of_nat (4 + bx * 8)) (Z.of_nat (0 + by_ * 8)),
          mkFloat3Ushort1 (splat3 v) 0%Z).
Proof.
  intros Hlt Hray. unfold filter_pixel.
  assert (Hmed : median_sample GetLuma (tile_outlier_at_4 (grey_sample 1) (grey_sample v))
                               4 0 = grey_sample v).
  { unfold median_sample, medianColorIdx.
    rewrite (outlier_tile_sorted GetLuma (grey_sample 1) (grey_sample v) Hlt).
    reflexivity. }
  rewrite Hmed.
  replace ((_ >=? _)%Z || (_ >=? _)%Z)%bool with false.
  2:{ symmetry. apply orb_false_intro; rewrite Z.geb_leb; apply Z.leb_gt;
      cbn [i2x i2y]; unfold blockdim; lia. }
  change (nth (4 + ldsAccessOffset + (0 + ldsAccessOffset) * ldsBlockdim)
              (tile_outlier_at_4 (grey_sample 1) (grey_sample v)) dummyLDS)
    with (grey_sample 1).
  destruct Rle_dec as [Hle | _]; [simpl in Hle; lra|].
  unfold isnan. cbn [orb]. unfold blockdim.
  assert (Hw : blend_weight (grey_sample 1) (grey_sample v) = 1).
  { unfold blend_weight, grey_sample, min1f, expf, dot3, sub3; simpl.
    replace (- ((0 - 0) * (0 - 0) + (0 - 0) * (0 - 0) + (1 - 1) * (1 - 1)) / 0.1)
      with 0 by lra.
    replace (- ((1 - 1) * (1 - 1)) / 0.1) with 0 by lra.
    replace (- 0 / 0.1) with 0 by lra.
    rewrite exp_0. unfold Rmin; destruct Rle_dec; lra. }
  rewrite Hw.
  do 2 f_equal. unfold final_blend, lerp3f, add3, scale3, sub3, grey_sample, splat3; simpl.
  do 2 f_equal; lra.
Qed.

(** *** The tile at the barrier *)

(** Whatever the shared array held before, once all 64 threads have
    stored their one or two cells, cell [c] of the 10 x 10 tile holds
    the sample loaded at the texel [c mod 10 - 1, c / 10 - 1] of the
    block. *)
Lemma tile_at_barrier_cells DecodeNormal colorBuffer normalDepthBuffer bx by_
  (sharedBuffer : list LDS) :
  length sharedBuffer = 100%nat ->
  tile_at_barrier DecodeNormal colorBuffer normalDepthBuffer bx by_ sharedBuffer
  = map (fun c => global_load DecodeNormal colorBuffer normalDepthBuffer (cell_coord bx by_ c))
        (seq 0 100).
Proof.
  intros Hlen.
  do 100 (destruct sharedBuffer as [|? sharedBuffer]; [discriminate Hlen|]).
  destruct sharedBuffer; [|discriminate Hlen].
  reflexivity.
Qed.

End MedianFilterFacts.

(** ** Auto exposure *)

Module AutoExposureFacts.
Import AutoExposure.

(** *** The accepted mass *)

(** A scan that runs out of buckets leaves [i] at 64. *)
Lemma dark_loop_no_break histogram area n s :
  (i s + n = 64)%nat ->
  (i (dark_loop histogram area n s) < 64)%nat ->
  lumiSumArea s = 0 ->
  lumiSumArea (dark_loop histogram area n s)
  = accuHistArea (dark_loop histogram area n s) - darkThreshold.
Proof.
  revert s; induction n as [|n IH]; intros s Hi Hlt H0; simpl in *.
  - lia.
  - destruct Rlt_dec; simpl in *.
    + lra.
    + apply IH; simpl; trivial; lia.
Qed.

Lemma bright_loop_break histogram area n s :
  (i s + n = 64)%nat ->
  (i (bright_loop histogram area n s) < 64)%nat ->
  lumiSumArea s = accuHistArea s - darkThreshold ->
  lumiSumArea (bright_loop histogram area n s) = brightThreshold - darkThreshold.
Proof.
  revert s; induction n as [|n IH]; intros s Hi Hlt Hinv; simpl in *.
  - lia.
  - destruct Rlt_dec; simpl in *.
    + lra.
    + apply IH; simpl; trivial; [lia | lra].
Qed.

Lemma dark_loop_i histogram area n s :
  (i s + n = 64)%nat -> (i (dark_loop histogram area n s) <= 64)%nat.
Proof.
  revert s; induction n as [|n IH]; intros s Hi; simpl.
  - lia.
  - destruct Rlt_dec; simpl; [lia | apply IH; simpl; lia].
Qed.

Lemma bright_loop_i_ge histogram area n s :
  (i s <= i (bright_loop histogram area n s))%nat.
Proof.
  revert s; induction n as [|n IH]; intros s; simpl.
  - lia.
  - destruct Rlt_dec; simpl; [lia |].
    etransitivity; [| apply IH]. simpl; lia.
Qed.

Lemma dark_scan_i histogram area : (i (dark_scan histogram area) <= 64)%nat.
Proof. unfold dark_scan. apply dark_loop_i. reflexivity. Qed.

Lemma dark_scan_break histogram area :
  (i (dark_scan histogram area) < 64)%nat ->
  lumiSumArea (dark_scan histogram area)
  = accuHistArea (dark_scan histogram area) - darkThreshold.
Proof.
  unfold dark_scan. intros H. apply dark_loop_no_break.
  - reflexivity.
  - exact H.
  - reflexivity.
Qed.

Lemma scan_histogram_eq histogram area :
  scan_histogram histogram area
  = bright_loop histogram area (64 - i (dark_scan histogram area)) (dark_scan histogram area).
Proof. reflexivity. Qed.

(** After both breaks the accepted mass is the difference of the
    thresholds. *)
Lemma scan_breaks_half histogram area :
  (i (dark_scan histogram area) < 64)%nat ->
  (i (scan_histogram histogram area) < 64)%nat ->
  lumiSumArea (scan_histogram histogram area) = brightThreshold - darkThreshold.
Proof.
  intros Hdark Hbright.
  pose proof (dark_scan_break histogram area Hdark) as Hinv.
  rewrite scan_histogram_eq in *.
  revert Hdark Hbright Hinv.
  generalize (dark_scan histogram area).
  intros s1 Hdark Hbright Hinv.
  apply bright_loop_break.
  - lia.
  - exact Hbright.
  - exact Hinv.
Qed.

(** C3. Whenever the first scan stops at a bucket where the cumulative
    mass exceeds the dark threshold and the second scan stops at a
    bucket where it exceeds the bright threshold (both loops leave by
    [break], so [i] stays below 64), the accepted mass lumiSumArea is
    exactly 0.9 - 0.4 = 0.5, although the second scan adds the bucket of
    the first crossing once more. *)
Theorem lumiSumArea_is_half (histogram : list Z) (area : R) :
  (i (dark_scan histogram area) < 64)%nat ->
  (i (scan_histogram histogram area) < 64)%nat ->
  lumiSumArea (scan_histogram histogram area) = 0.9 - 0.4
  /\ 0.9 - 0.4 = 0.5.
Proof.
  intros Hdark Hbright. split; [|lra].
  rewrite (scan_breaks_half histogram area Hdark Hbright).
  unfold brightThreshold, darkThreshold. reflexivity.
Qed.

(** One iteration of each scan, when the test of its [if] is known. *)
Lemma dark_loop_break_now histogram area n s :
  0 < accuHistArea s + IZR (nth (i s) histogram 0%Z) / area - darkThreshold ->
  dark_loop histogram area (S n) s
  = mkScan (lumiSum s + (accuHistArea s + IZR (nth (i s) histogram 0%Z) / area - darkThreshold)
                        * BinToLum (i s))
           (lumiSumArea s + (accuHistArea s + IZR (nth (i s) histogram 0%Z) / area
                             - darkThreshold))
           (accuHistArea s + IZR (nth (i s) histogram 0%Z) / area)
           (brightLum s) (i s).
Proof. intros H; simpl; destruct Rlt_dec; [reflexivity | contradiction]. Qed.

Lemma bright_loop_break_now histogram area n s :
  0 < accuHistArea s + IZR (nth (i s) histogram 0%Z) / area - brightThreshold ->
  bright_loop histogram area (S n) s
  = mkScan (lumiSum s + (brightThreshold - (accuHistArea s + IZR (nth (i s) histogram 0%Z) / area
                                            - IZR (nth (i s) histogram 0%Z) / area))
                        * BinToLum (i s))
           (lumiSumArea s + (brightThreshold - (accuHistArea s
                             + IZR (nth (i s) histogram 0%Z) / area
                             - IZR (nth (i s) histogram 0%Z) / area)))
           (accuHistArea s + IZR (nth (i s) histogram 0%Z) / area)
           (BinToLum (i s)) (i s).
Proof. intros H; simpl; destruct Rlt_dec; [reflexivity | contradiction]. Qed.

Lemma dark_scan_all_dark : i (dark_scan all_dark 100) = 0%nat.
Proof.
  unfold dark_scan. rewrite dark_loop_break_now; [reflexivity|].
  unfold darkThreshold; simpl; lra.
Qed.

Lemma scan_all_dark :
  i (scan_histogram all_dark 100) = 0%nat /\
  brightLum (scan_histogram all_dark 100) = BinToLum 0.
Proof.
  rewrite scan_histogram_eq.
  unfold dark_scan. rewrite dark_loop_break_now by (unfold darkThreshold; simpl; lra).
  cbn [i]. change (64 - 0)%nat with 64%nat.
  rewrite bright_loop_break_now by (unfold darkThreshold, brightThreshold; simpl; lra).
  split; reflexivity.
Qed.

Lemma lumiSumArea_is_half_witness :
  lumiSumArea (scan_histogram all_dark 100) = 0.9 - 0.4 /\ 0.9 - 0.4 = 0.5.
Proof.
  apply (lumiSumArea_is_half all_dark 100).
  - rewrite dark_scan_all_dark. lia.
  - rewrite (proj1 scan_all_dark). lia.
Defined.

(** *** Histograms of a whole frame *)

Lemma mass_from_app histogram area a b i0 :
  mass_from histogram area i0 (a + b)
  = mass_from histogram area i0 a + mass_from histogram area (i0 + a) b.
Proof.
  revert i0; induction a as [|a IH]; intros i0; simpl.
  - rewrite Nat.add_0_r. lra.
  - rewrite IH. replace (S i0 + a)%nat with (i0 + S a)%nat by lia. lra.
Qed.

(** A scan that does not break has added all its buckets, and its last
    test failed. *)
Lemma dark_loop_exhausted histogram area n s :
  (i s + n = 64)%nat ->
  i (dark_loop histogram area n s) = 64%nat ->
  accuHistArea (dark_loop histogram area n s)
  = accuHistArea s + mass_from histogram area (i s) n
  /\ ((1 <= n)%nat -> accuHistArea (dark_loop histogram area n s) <= darkThreshold).
Proof.
  revert s; induction n as [|n IH]; intros s Hi H64; simpl in *.
  - split; [lra | lia].
  - destruct Rlt_dec as [Hlt | Hnlt]; simpl in *; [lia|].
    match type of H64 with
    | i (_ _ _ _ ?s') = _ => destruct (IH s') as [Hacc Hle]; [simpl; lia | exact H64 |]
    end.
    simpl in Hacc. split; [lra|]. intros _.
    destruct n as [|n]; [simpl; lra | apply Hle; lia].
Qed.

Lemma bright_loop_exhausted histogram area n s :
  (i s + n = 64)%nat ->
  i (bright_loop histogram area n s) = 64%nat ->
  accuHistArea (bright_loop histogram area n s)
  = accuHistArea s + mass_from histogram area (i s) n
  /\ ((1 <= n)%nat -> accuHistArea (bright_loop histogram area n s) <= brightThreshold).
Proof.
  revert s; induction n as [|n IH]; intros s Hi H64; simpl in *.
  - split; [lra | lia].
  - destruct Rlt_dec as [Hlt | Hnlt]; simpl in *; [lia|].
    match type of H64 with
    | i (_ _ _ _ ?s') = _ => destruct (IH s') as [Hacc Hle]; [simpl; lia | exact H64 |]
    end.
    simpl in Hacc. split; [lra|]. intros _.
    destruct n as [|n]; [simpl; lra | apply Hle; lia].
Qed.

(** A scan that breaks at bucket [k] has added the buckets up to [k]. *)
Lemma dark_loop_broken histogram area n s :
  (i s + n = 64)%nat ->
  (i (dark_loop histogram area n s) < 64)%nat ->
  exists m,
    i (dark_loop histogram area n s) = (i s + m)%nat /\
    accuHistArea (dark_loop histogram area n s)
    = accuHistArea s + mass_from histogram area (i s) (S m).
Proof.
  revert s; induction n as [|n IH]; intros s Hi Hlt; simpl in *.
  - lia.
  - destruct Rlt_dec as [Hb | Hnb]; simpl in *.
    + exists 0%nat. simpl. split; [lia | lra].
    + match type of Hlt with
      | (i (_ _ _ _ ?s') < _)%nat =>
          destruct (IH s') as (m & Hm & Hacc); [simpl; lia | exact Hlt |]
      end.
      simpl in Hm, Hacc.
      exists (S m). split; [lia|]. rewrite Hacc. simpl. lra.
Qed.

Lemma bright_loop_i histogram area n s :
  (i s + n = 64)%nat -> (i (bright_loop histogram area n s) <= 64)%nat.
Proof.
  revert s; induction n as [|n IH]; intros s Hi; simpl.
  - lia.
  - destruct Rlt_dec; simpl; [lia | apply IH; simpl; lia].
Qed.

Lemma dark_scan_exhausted histogram area :
  i (dark_scan histogram area) = 64%nat ->
  accuHistArea (dark_scan histogram area) = mass_from histogram area 0 64 /\
  accuHistArea (dark_scan histogram area) <= darkThreshold.
Proof.
  unfold dark_scan. intros E.
  assert (Hi : (i (mkScan 0 0 0 0 0) + 64 = 64)%nat) by reflexivity.
  destruct (dark_loop_exhausted histogram area 64 (mkScan 0 0 0 0 0) Hi E) as [Hacc Hb].
  assert (H1 : (1 <= 64)%nat) by (repeat constructor).
  specialize (Hb H1). clear H1 Hi E. revert Hacc Hb.
  generalize (dark_loop histogram area 64 (mkScan 0 0 0 0 0)).
  intros r Hacc Hb. cbn [accuHistArea i] in Hacc. split; lra.
Qed.

Lemma dark_scan_broken histogram area :
  (i (dark_scan histogram area) < 64)%nat ->
  accuHistArea (dark_scan histogram area)
  = mass_from histogram area 0 (S (i (dark_scan histogram area))).
Proof.
  unfold dark_scan. intros Hlt.
  assert (Hi : (i (mkScan 0 0 0 0 0) + 64 = 64)%nat) by reflexivity.
  destruct (dark_loop_broken histogram area 64 (mkScan 0 0 0 0 0) Hi Hlt)
    as (m & Hm & Hacc).
  clear Hi Hlt. revert Hm Hacc.
  generalize (dark_loop histogram area 64 (mkScan 0 0 0 0 0)).
  intros r Hm Hacc. cbn [accuHistArea i] in Hm, Hacc.
  rewrite Nat.add_0_l in Hm. rewrite Hm, Hacc. lra.
Qed.

(** For the histogram of a frame (counts that are not negative and add
    up to the area, which is positive) both scans leave by [break], and
    the accepted mass is one half. *)
Lemma frame_histogram_half (histogram : list Z) (area : R) :
  0 < area ->
  (forall j, (0 <= nth j histogram 0)%Z) ->
  mass_from histogram area 0 64 = 1 ->
  (i (dark_scan histogram area) < 64)%nat /\
  (i (scan_histogram histogram area) < 64)%nat /\
  lumiSumArea (scan_histogram histogram area) = 0.5.
Proof.
  intros Harea Hpos Hsum.
  assert (Hdark : (i (dark_scan histogram area) < 64)%nat).
  { pose proof (dark_scan_i histogram area) as Hle.
    destruct (Nat.eq_dec (i (dark_scan histogram area)) 64) as [E | NE]; [|lia].
    exfalso. destruct (dark_scan_exhausted histogram area E) as [Hacc Hb].
    unfold darkThreshold in Hb. lra. }
  pose proof (dark_scan_broken histogram area Hdark) as Hk.
  assert (Hbright : (i (scan_histogram histogram area) < 64)%nat).
  { rewrite scan_histogram_eq. revert Hdark Hk.
    generalize (dark_scan histogram area). intros s1 Hdark Hk.
    assert (Hn : (i s1 + (64 - i s1) = 64)%nat) by lia.
    pose proof (bright_loop_i histogram area (64 - i s1) s1 Hn) as Hle.
    destruct (Nat.eq_dec (i (bright_loop histogram area (64 - i s1) s1)) 64)
      as [E | NE]; [|lia].
    exfalso.
    destruct (bright_loop_exhausted histogram area (64 - i s1) s1 Hn E)
      as [Hacc Hbound].
    assert (H1 : (1 <= 64 - i s1)%nat) by lia.
    specialize (Hbound H1). unfold brightThreshold in Hbound.
    replace (S (i s1)) with (i s1 + 1)%nat in Hk by lia.
    rewrite mass_from_app in Hk. cbn [mass_from] in Hk.
    replace 64%nat with (i s1 + (64 - i s1))%nat in Hsum at 1 by lia.
    rewrite mass_from_app in Hsum. rewrite !Nat.add_0_l in *.
    assert (0 <= IZR (nth (i s1) histogram 0%Z) / area).
    { apply Rmult_le_pos; [apply IZR_le, Hpos | left; apply Rinv_0_lt_compat, Harea]. }
    lra. }
  split; [exact Hdark|]. split; [exact Hbright|].
  replace 0.5 with (brightThreshold - darkThreshold)
    by (unfold brightThreshold, darkThreshold; lra).
  apply scan_breaks_half; assumption.
Qed.

(** The all-dark frame is such a histogram. *)
Lemma all_dark_is_frame_histogram :
  0 < 100 /\ (forall j, (0 <= nth j all_dark 0)%Z) /\ mass_from all_dark 100 0 64 = 1.
Proof.
  split; [lra|]. split.
  - intros j. unfold all_dark. destruct j as [|j]; [simpl; lia|].
    change (nth (S j) (100%Z :: repeat 0%Z 63) 0%Z) with (nth j (repeat 0%Z 63) 0%Z).
    destruct (nth_in_or_default j (repeat 0%Z 63) 0%Z) as [Hin | ->]; [|lia].
    apply repeat_spec in Hin. rewrite Hin. lia.
  - unfold all_dark. simpl. lra.
Qed.

(** *** Eye adaption *)

Lemma adapt_factor deltaTime : 0 <= deltaTime -> 0 <= 1.0 - expf (- deltaTime * 0.001) < 1.
Proof.
  intros Hdt. unfold expf. pose proof (exp_pos (- deltaTime * 0.001)) as Hpos.
  assert (exp (- deltaTime * 0.001) <= 1).
  { destruct (Req_dec deltaTime 0) as [-> | Hne].
    - replace (- 0 * 0.001) with 0 by lra. rewrite exp_0; lra.
    - left. rewrite <- exp_0. apply exp_increasing. lra. }
  lra.
Qed.

Lemma adapt_between lumTemp target deltaTime :
  0 <= deltaTime ->
  Rmin lumTemp target <= adapt lumTemp target deltaTime <= Rmax lumTemp target.
Proof.
  intros Hdt. pose proof (adapt_factor deltaTime Hdt) as Hk.
  unfold adapt. set (k := 1.0 - expf _) in *.
  unfold Rmin, Rmax; destruct Rle_dec; nra.
Qed.

(** What the kernel leaves in the array. *)
Lemma AutoExposure_cells exposure histogram area deltaTime :
  length exposure = 4%nat ->
  nth 1 (AutoExposure exposure histogram area deltaTime) 0
  = adapt (nth 1 exposure 0) (aveLum (scan_histogram histogram area)) deltaTime /\
  nth 2 (AutoExposure exposure histogram area deltaTime) 0
  = adapt (nth 2 exposure 0) (brightLum (scan_histogram histogram area)) deltaTime.
Proof.
  intros Hlen.
  destruct exposure as [|e0 [|e1 [|e2 [|e3 [|]]]]]; try discriminate Hlen.
  split; reflexivity.
Qed.

(** C9. For every delta-time >= 0, the average luminance the kernel
    writes to exposure[1] lies between the value it read there and the
    instantaneous (clamped) average luminance, and the bright luminance
    it writes to exposure[2] lies between the value it read there and
    the instantaneous bright luminance: neither overshoots. *)
Theorem eye_adaption_no_overshoot (exposure : list R) (histogram : list Z)
  (area deltaTime : R) :
  length exposure = 4%nat -> 0 <= deltaTime ->
  (Rmin (nth 1 exposure 0) (aveLum (scan_histogram histogram area))
   <= nth 1 (AutoExposure exposure histogram area deltaTime) 0
   <= Rmax (nth 1 exposure 0) (aveLum (scan_histogram histogram area)))
  /\
  (Rmin (nth 2 exposure 0) (brightLum (scan_histogram histogram area))
   <= nth 2 (AutoExposure exposure histogram area deltaTime) 0
   <= Rmax (nth 2 exposure 0) (brightLum (scan_histogram histogram area))).
Proof.
  intros Hlen Hdt.
  destruct (AutoExposure_cells exposure histogram area deltaTime Hlen) as [-> ->].
  split; apply adapt_between; exact Hdt.
Qed.

Lemma eye_adaption_no_overshoot_witness :
  (Rmin (nth 1 initExposureLum 0) (aveLum (scan_histogram all_dark 100))
   <= nth 1 (AutoExposure initExposureLum all_dark 100 16) 0
   <= Rmax (nth 1 initExposureLum 0) (aveLum (scan_histogram all_dark 100)))
  /\
  (Rmin (nth 2 initExposureLum 0) (brightLum (scan_histogram all_dark 100))
   <= nth 2 (AutoExposure initExposureLum all_dark 100 16) 0
   <= Rmax (nth 2 initExposureLum 0) (brightLum (scan_histogram all_dark 100))).
Proof.
  apply (eye_adaption_no_overshoot initExposureLum all_dark 100 16).
  - reflexivity.
  - lra.
Defined.

(** *** The range of the stored luminances *)

Lemma exp2f_nat (n : nat) : exp2f (INR n) = 2 ^ n.
Proof. unfold exp2f. apply Rpower_pow. lra. Qed.

(** Every bucket luminance is positive and below 8. *)
Lemma BinToLum_range n : (n < 64)%nat -> 0 < BinToLum n <= 8.
Proof.
  intros Hn. unfold BinToLum. split.
  - unfold exp2f, Rpower. apply exp_pos.
  - replace 8 with (exp2f (INR 3)) by (rewrite exp2f_nat; simpl; lra).
    unfold exp2f. apply Rle_Rpower; [lra|].
    assert (INR n <= 63).
    { replace 63 with (INR 63) by (simpl; lra). apply le_INR. lia. }
    simpl INR. lra.
Qed.

Lemma dark_loop_brightLum histogram area n s :
  brightLum (dark_loop histogram area n s) = brightLum s.
Proof.
  revert s; induction n as [|n IH]; intros s; simpl; [reflexivity|].
  destruct Rlt_dec; [reflexivity|]. rewrite IH. reflexivity.
Qed.

Lemma bright_loop_brightLum histogram area n s :
  (i s + n = 64)%nat -> 0 <= brightLum s <= 10 ->
  0 <= brightLum (bright_loop histogram area n s) <= 10.
Proof.
  revert s; induction n as [|n IH]; intros s Hi Hb; simpl; [exact Hb|].
  destruct Rlt_dec; simpl.
  - pose proof (BinToLum_range (i s) ltac:(lia)). lra.
  - apply IH; simpl; [lia | exact Hb].
Qed.

(** The instantaneous bright luminance is 0 (no crossing) or a bucket
    luminance. *)
Lemma scan_brightLum_range histogram area :
  0 <= brightLum (scan_histogram histogram area) <= 10.
Proof.
  rewrite scan_histogram_eq.
  pose proof (dark_scan_i histogram area) as Hi.
  assert (Hb : brightLum (dark_scan histogram area) = 0)
    by (unfold dark_scan; apply dark_loop_brightLum).
  revert Hi Hb. generalize (dark_scan histogram area). intros s1 Hi Hb.
  apply bright_loop_brightLum; [lia | lra].
Qed.

Lemma aveLum_range s : 0.1 <= aveLum s <= 10.
Proof.
  unfold aveLum, clampf, Rmax, Rmin.
  repeat destruct Rle_dec; lra.
Qed.

Lemma adapt_in_range lo hi lumTemp target deltaTime :
  0 <= deltaTime -> lo <= lumTemp <= hi -> lo <= target <= hi ->
  lo <= adapt lumTemp target deltaTime <= hi.
Proof.
  intros Hdt Hl Ht. pose proof (adapt_between lumTemp target deltaTime Hdt) as H.
  revert H. unfold Rmin, Rmax; destruct Rle_dec; lra.
Qed.

(** *** The accepted mass is positive once the dark threshold is crossed *)

Lemma dark_loop_area_positive histogram area n s :
  (i s + n = 64)%nat ->
  (i (dark_loop histogram area n s) < 64)%nat ->
  lumiSumArea s = 0 ->
  0 < lumiSumArea (dark_loop histogram area n s).
Proof.
  revert s; induction n as [|n IH]; intros s Hi Hlt H0; simpl in *.
  - lia.
  - destruct Rlt_dec; simpl in *.
    + lra.
    + apply IH; simpl; trivial; lia.
Qed.

Lemma bright_loop_area_positive histogram area n s :
  0 < area ->
  (forall j, (0 <= nth j histogram 0)%Z) ->
  lumiSumArea s = accuHistArea s - darkThreshold ->
  0 < lumiSumArea s ->
  0 < lumiSumArea (bright_loop histogram area n s).
Proof.
  intros Harea Hpos.
  revert s; induction n as [|n IH]; intros s Hinv Hs; simpl.
  - exact Hs.
  - assert (0 <= IZR (nth (i s) histogram 0%Z) / area).
    { apply Rmult_le_pos; [apply IZR_le, Hpos | left; apply Rinv_0_lt_compat, Harea]. }
    destruct Rlt_dec; simpl.
    + unfold brightThreshold, darkThreshold in *. lra.
    + apply IH; simpl; lra.
Qed.

Lemma dark_scan_area_positive histogram area :
  (i (dark_scan histogram area) < 64)%nat ->
  0 < lumiSumArea (dark_scan histogram area).
Proof.
  unfold dark_scan. intros H. apply dark_loop_area_positive.
  - reflexivity.
  - exact H.
  - reflexivity.
Qed.

(** For counts that are not negative over a positive area, a first scan
    that leaves by [break] makes the accepted mass positive, whether or
    not the second scan finds its crossing: the average luminance is
    then a quotient by a positive number. *)
Lemma scan_area_positive histogram area :
  0 < area ->
  (forall j, (0 <= nth j histogram 0)%Z) ->
  (i (dark_scan histogram area) < 64)%nat ->
  0 < lumiSumArea (scan_histogram histogram area).
Proof.
  intros Harea Hpos Hdark.
  pose proof (dark_scan_break histogram area Hdark) as Hinv.
  pose proof (dark_scan_area_positive histogram area Hdark) as Hs.
  rewrite scan_histogram_eq.
  apply bright_loop_area_positive; assumption.
Qed.

(** C2 (amended). For every histogram of counts that are not negative
    over a positive area whose cumulative mass crosses the dark
    threshold during the first scan (the first loop leaves by [break],
    as it does on the histogram of every frame), whether or not it
    reaches the bright threshold, and for every delta-time >= 0: if the
    stored average luminance is within [0.1, 10] and the stored bright
    luminance within [0, 10] (as both are at start-up), then the
    accepted mass is positive, so that the average is a quotient by a
    positive number, and after one update the average luminance in
    exposure[1] is within [0.1, 10] and the bright luminance in
    exposure[2] is within [0, 10].  Only the average is clamped from
    below. *)
Theorem AutoExposure_lum_range (exposure : list R) (histogram : list Z)
  (area deltaTime : R) :
  length exposure = 4%nat ->
  0 < area ->
  (forall j, (0 <= nth j histogram 0)%Z) ->
  (i (dark_scan histogram area) < 64)%nat ->
  0 <= deltaTime ->
  0.1 <= nth 1 exposure 0 <= 10 ->
  0 <= nth 2 exposure 0 <= 10 ->
  0 < lumiSumArea (scan_histogram histogram area) /\
  0.1 <= nth 1 (AutoExposure exposure histogram area deltaTime) 0 <= 10 /\
  0 <= nth 2 (AutoExposure exposure histogram area deltaTime) 0 <= 10.
Proof.
  intros Hlen Harea Hpos Hdark Hdt H1 H2.
  split; [apply scan_area_positive; assumption|].
  destruct (AutoExposure_cells exposure histogram area deltaTime Hlen) as [-> ->].
  split; apply adapt_in_range; trivial.
  - apply aveLum_range.
  - apply scan_brightLum_range.
Qed.

Lemma AutoExposure_lum_range_witness :
  0 < lumiSumArea (scan_histogram all_dark 100) /\
  0.1 <= nth 1 (AutoExposure initExposureLum all_dark 100 16) 0 <= 10 /\
  0 <= nth 2 (AutoExposure initExposureLum all_dark 100 16) 0 <= 10.
Proof.
  apply (AutoExposure_lum_range initExposureLum all_dark 100 16).
  - reflexivity.
  - lra.
  - exact (proj1 (proj2 all_dark_is_frame_histogram)).
  - rewrite dark_scan_all_dark. lia.
  - lra.
  - simpl; lra.
  - simpl; lra.
Defined.

(** From the start-up state, an all-dark frame shown for ten seconds
    takes the stored bright luminance below 0.1. *)
Lemma bright_lum_below_range :
  length initExposureLum = 4%nat /\ 0 <= 10000 /\
  0.1 <= nth 2 initExposureLum 0 <= 10 /\
  nth 2 (AutoExposure initExposureLum all_dark 100 10000) 0 < 0.1.
Proof.
  split; [reflexivity|]. split; [lra|]. split; [simpl; lra|].
  destruct (AutoExposure_cells initExposureLum all_dark 100 10000 eq_refl) as [_ ->].
  rewrite (proj2 scan_all_dark).
  assert (Hb : BinToLum 0 < / 2 ^ 7).
  { unfold BinToLum. rewrite <- exp2f_nat. unfold exp2f. rewrite <- Rpower_Ropp.
    apply Rpower_lt; [lra|]. simpl INR. lra. }
  assert (He : expf (Ropp 10000 * 0.001) < / 11).
  { unfold expf. replace (Ropp 10000 * 0.001) with (Ropp 10) by lra.
    rewrite exp_Ropp. apply Rinv_lt_contravar.
    - pose proof (exp_pos 10). lra.
    - pose proof (exp_ineq1 10). lra. }
  pose proof (BinToLum_range 0 ltac:(lia)) as Hr.
  pose proof (exp_pos (Ropp 10000 * 0.001)) as Hp. fold (expf (Ropp 10000 * 0.001)) in Hp.
  unfold adapt. simpl nth.
  set (b := BinToLum 0) in *. set (e := expf (Ropp 10000 * 0.001)) in *.
  assert (0 < b) by lra.
  assert (b < 1) by (simpl in Hb; lra).
  assert (H128 : / 2 ^ 7 = 1 / 128) by (simpl; lra).
  rewrite H128 in Hb.
  nra.
Qed.

End AutoExposureFacts.

(** ** The output writer *)

Module CopyToOutputFacts.
Import CopyToOutput.

Lemma truncate_nonneg x : 0 <= x -> truncate x = Int_part x.
Proof. intros; unfold truncate; destruct Rle_dec; [reflexivity | lra]. Qed.

(** The integer part of a real lies in the integer interval of its
    bounds. *)
Lemma Int_part_between (lo hi : Z) x :
  IZR lo <= x -> x < IZR hi + 1 -> (lo <= Int_part x <= hi)%Z.
Proof.
  intros Hlo Hhi. destruct (base_Int_part x) as [H1 H2]. split.
  - apply Z.lt_succ_r. apply lt_IZR. rewrite succ_IZR. lra.
  - apply Z.lt_succ_r. apply lt_IZR. rewrite succ_IZR. lra.
Qed.

Lemma uchar_of_float_one : uchar_of_float 1.0 = 1%Z.
Proof.
  unfold uchar_of_float. rewrite truncate_nonneg by lra.
  assert (H : (1 <= Int_part 1.0 <= 1)%Z) by (apply Int_part_between; lra).
  lia.
Qed.

Lemma clamped_channel_byte lo_ v :
  lo_ = Rmax 0 (Rmin v 1) ->
  (0 <= uchar_of_float (lo_ * 255 + 0.5) <= 255)%Z.
Proof.
  intros ->.
  assert (0 <= Rmax 0 (Rmin v 1) <= 1)
    by (unfold Rmax, Rmin; repeat destruct Rle_dec; lra).
  unfold uchar_of_float. rewrite truncate_nonneg by lra.
  apply Int_part_between; simpl; lra.
Qed.

(** C10. For every in-bounds output pixel, CopyToOutput writes, at byte
    offset 4 * idx.x of row idx.y, the red, green and blue bytes as the
    clamped channel times 255 plus 0.5 with its fraction dropped (a
    value from 0 to 255), and the alpha byte as 1, the conversion of
    the literal 1.0f, which is not 255. *)
Theorem CopyToOutput_alpha_is_one (outputResColor : Int2 -> Float4) (outSize : Int2)
  (blockIdx blockDim threadIdx : dim2) :
  outside (global_idx blockIdx blockDim threadIdx) outSize = false ->
  exists u : uchar4,
    CopyToOutput outputResColor outSize blockIdx blockDim threadIdx
    = Some ((i2x (global_idx blockIdx blockDim threadIdx) * 4)%Z,
            i2y (global_idx blockIdx blockDim threadIdx), u)
    /\ ucx u = truncate (Rmax 0 (Rmin (f3x (f4xyz (outputResColor
                 (global_idx blockIdx blockDim threadIdx)))) 1) * 255 + 0.5)
    /\ ucy u = truncate (Rmax 0 (Rmin (f3y (f4xyz (outputResColor
                 (global_idx blockIdx blockDim threadIdx)))) 1) * 255 + 0.5)
    /\ ucz u = truncate (Rmax 0 (Rmin (f3z (f4xyz (outputResColor
                 (global_idx blockIdx blockDim threadIdx)))) 1) * 255 + 0.5)
    /\ (0 <= ucx u <= 255)%Z /\ (0 <= ucy u <= 255)%Z /\ (0 <= ucz u <= 255)%Z
    /\ ucw u = 1%Z /\ ucw u <> 255%Z.
Proof.
  intros Hin. unfold CopyToOutput. rewrite Hin.
  eexists. split; [reflexivity|]. cbn [ucx ucy ucz ucw].
  cbn [clamp3f splat3 f3x f3y f3z].
  repeat split; try reflexivity;
    try (eapply clamped_channel_byte; reflexivity);
    rewrite uchar_of_float_one; lia.
Qed.

Lemma CopyToOutput_alpha_is_one_witness :
  exists u : uchar4,
    CopyToOutput (fun _ => mkFloat4 (mkFloat3 0.25 2 (-1)) 1) (mkInt2 4 4)
                 (mkDim2 0 0) (mkDim2 8 8) (mkDim2 1 2)
    = Some ((i2x (global_idx (mkDim2 0 0) (mkDim2 8 8) (mkDim2 1 2)) * 4)%Z,
            i2y (global_idx (mkDim2 0 0) (mkDim2 8 8) (mkDim2 1 2)), u)
    /\ ucx u = truncate (Rmax 0 (Rmin (f3x (f4xyz ((fun _ => mkFloat4 (mkFloat3 0.25 2 (-1)) 1)
                 (global_idx (mkDim2 0 0) (mkDim2 8 8) (mkDim2 1 2))))) 1) * 255 + 0.5)
    /\ ucy u = truncate (Rmax 0 (Rmin (f3y (f4xyz ((fun _ => mkFloat4 (mkFloat3 0.25 2 (-1)) 1)
                 (global_idx (mkDim2 0 0) (mkDim2 8 8) (mkDim2 1 2))))) 1) * 255 + 0.5)
    /\ ucz u = truncate (Rmax 0 (Rmin (f3z (f4xyz ((fun _ => mkFloat4 (mkFloat3 0.25 2 (-1)) 1)
                 (global_idx (mkDim2 0 0) (mkDim2 8 8) (mkDim2 1 2))))) 1) * 255 + 0.5)
    /\ (0 <= ucx u <= 255)%Z /\ (0 <= ucy u <= 255)%Z /\ (0 <= ucz u <= 255)%Z
    /\ ucw u = 1%Z /\ ucw u <> 255%Z.
Proof.
  apply (CopyToOutput_alpha_is_one (fun _ => mkFloat4 (mkFloat3 0.25 2 (-1)) 1) (mkInt2 4 4)
           (mkDim2 0 0) (mkDim2 8 8) (mkDim2 1 2)).
  reflexivity.
Defined.

End CopyToOutputFacts.

(** ** Lens flare *)

Module LensFlareFacts.
Import LensFlare.

Section Bounds.
Variable atan2f : R -> R -> R.
Variable fract : R -> R.
Variable smoothstep1f : R -> R -> R -> R.

(** The four shapes are never negative. *)
Lemma circle_c_nonneg p size dist mouse : 0 <= circle_c p size dist mouse.
Proof.
  unfold circle_c. pose proof (Rmax_r (0.01 - powf (length2 (add2 p (scale2 mouse dist)))
                                              (size * 1.4)) 0.0). lra.
Qed.

Lemma circle_c1_nonneg p size dist mouse : 0 <= circle_c1 p size dist mouse.
Proof.
  unfold circle_c1. cbv zeta.
  match goal with |- 0 <= Rmax ?a 0.0 * 3.0 => pose proof (Rmax_r a 0.0) end. lra.
Qed.

Lemma circle_c2_nonneg p size dist mouse : 0 <= circle_c2 p size dist mouse.
Proof.
  unfold circle_c2.
  match goal with |- 0 <= Rmax ?a 0.0 / 20.0 => pose proof (Rmax_r a 0.0) end. lra.
Qed.

Lemma circle_s_nonneg p size dist mouse :
  0 <= circle_s atan2f smoothstep1f p size dist mouse.
Proof.
  unfold circle_s.
  match goal with |- 0 <= Rmax ?a 0.0 * 6.0 => pose proof (Rmax_r a 0.0) end. lra.
Qed.

Lemma tint_range x : 0 <= cos x * 0.5 + 0.5 <= 1.
Proof. pose proof (COS_bound x). lra. Qed.

Lemma element_channel k c c1 c2 s :
  0 <= k -> 0 <= c -> 0 <= c1 -> 0 <= c2 -> 0 <= s ->
  - 0.01 <= k * c + k * c1 + k * c2 + k * s + - 0.01.
Proof.
  intros. pose proof (Rmult_le_pos k c). pose proof (Rmult_le_pos k c1).
  pose proof (Rmult_le_pos k c2). pose proof (Rmult_le_pos k s). lra.
Qed.

(** One flare element takes at most 0.01 from each channel. *)
Lemma LensFlareCircle_lower p size dist mouse :
  - 0.01 <= f3x (LensFlareCircle atan2f smoothstep1f p size dist mouse) /\
  - 0.01 <= f3y (LensFlareCircle atan2f smoothstep1f p size dist mouse) /\
  - 0.01 <= f3z (LensFlareCircle atan2f smoothstep1f p size dist mouse).
Proof.
  pose proof (circle_c_nonneg p size dist mouse).
  pose proof (circle_c1_nonneg p size dist mouse).
  pose proof (circle_c2_nonneg p size dist mouse).
  pose proof (circle_s_nonneg p size dist mouse).
  unfold LensFlareCircle; cbn [adds3 add3 scale3 cos3f f3x f3y f3z].
  repeat split; apply element_channel; trivial; apply tint_range.
Qed.

Lemma sun_glow1_nonneg len angle : 0 <= sun_glow1 len angle.
Proof.
  unfold sun_glow1.
  match goal with |- 0 <= Rmax ?a 0.0 * Rabs ?b / 20.0 =>
    pose proof (Rmax_r a 0.0); pose proof (Rabs_pos b);
    pose proof (Rmult_le_pos (Rmax a 0.0) (Rabs b)) end.
  lra.
Qed.

Lemma sun_glow2_nonneg len angle : 0 <= sun_glow2 len angle.
Proof.
  unfold sun_glow2.
  match goal with |- 0 <= Rmax ?a 0.0 + Rabs ?b / 16.0 * Rabs ?c =>
    pose proof (Rmax_r a 0.0); pose proof (Rabs_pos b); pose proof (Rabs_pos c);
    pose proof (Rmult_le_pos (Rabs b / 16.0) (Rabs c)) end.
  lra.
Qed.

(** The twentieth root of 5^20. *)
Lemma root20 : Rpower (5 ^ 20) (1.0 / 20.0) = 5.
Proof.
  rewrite <- (Rpower_pow 20 5) by lra.
  rewrite Rpower_mult.
  replace (INR 20 * (1.0 / 20.0)) with 1 by (simpl; lra).
  apply Rpower_1; lra.
Qed.

(** Up to a distance of 5^20 / 10 the glow is at least 0.02. *)
Lemma sun_glow2_lower len angle :
  0 < len * 10.0 <= 5 ^ 20 -> 0.02 <= sun_glow2 len angle.
Proof.
  intros [Hpos Hle]. unfold sun_glow2, powf.
  destruct Rlt_dec as [_|Hn]; [|contradiction].
  assert (Hr : 0 < Rpower (len * 10.0) (1.0 / 20.0) <= 5).
  { split; [unfold Rpower; apply exp_pos|].
    rewrite <- root20. apply Rle_Rpower_l; lra. }
  match goal with |- _ <= Rmax ?a 0.0 + Rabs ?b / 16.0 * Rabs ?c =>
    pose proof (Rmax_l a 0.0); pose proof (Rabs_pos b); pose proof (Rabs_pos c);
    pose proof (Rmult_le_pos (Rabs b / 16.0) (Rabs c)) end.
  assert (0.02 <= 0.1 / Rpower (len * 10.0) (1.0 / 20.0)).
  { apply Rmult_le_reg_r with (Rpower (len * 10.0) (1.0 / 20.0)); [lra|].
    unfold Rdiv. rewrite Rmult_assoc, Rinv_l by lra. lra. }
  lra.
Qed.

(** C8 (amended). For every pixel inside the viewport whose distance
    [len] to the sun position satisfies 0 < 10 len <= 5^20, the colour
    written is at least the colour read, per channel.  The circle,
    ring, dot and hexagon of a flare element and the two sun-glow terms
    are never negative; but each of the two elements composited is the
    tinted sum of its four shapes minus 0.01, so what holds at every
    distance is that the colour written is at least the colour read
    minus 0.02, per channel: up to 10 len = 5^20 the glow is at least
    0.02 and outweighs the two subtractions, beyond that it need
    not. *)
Theorem LensFlare_change (sunPos : Float2) (colorBuffer : Int2 -> Float4) (size : Int2)
  (blockIdx blockDim threadIdx : dim2) :
  outside (global_idx blockIdx blockDim threadIdx) size = false ->
  exists color : Float3,
    LensFlare atan2f fract smoothstep1f sunPos colorBuffer size blockIdx blockDim threadIdx
    = Some (global_idx blockIdx blockDim threadIdx, mkFloat4 color 1.0)
    /\ (0 < length2 (sub2 (pixel_uv (global_idx blockIdx blockDim threadIdx) size) sunPos) * 10.0
            <= 5 ^ 20 ->
        f3x (f4xyz (colorBuffer (global_idx blockIdx blockDim threadIdx))) <= f3x color
        /\ f3y (f4xyz (colorBuffer (global_idx blockIdx blockDim threadIdx))) <= f3y color
        /\ f3z (f4xyz (colorBuffer (global_idx blockIdx blockDim threadIdx))) <= f3z color)
    /\ (f3x (f4xyz (colorBuffer (global_idx blockIdx blockDim threadIdx))) - 0.02 <= f3x color
        /\ f3y (f4xyz (colorBuffer (global_idx blockIdx blockDim threadIdx))) - 0.02 <= f3y color
        /\ f3z (f4xyz (colorBuffer (global_idx blockIdx blockDim threadIdx))) - 0.02 <= f3z color)
    /\ (forall elementSize dist : R,
          0 <= circle_c (pixel_uv (global_idx blockIdx blockDim threadIdx) size)
                        elementSize dist sunPos
          /\ 0 <= circle_c1 (pixel_uv (global_idx blockIdx blockDim threadIdx) size)
                            elementSize dist sunPos
          /\ 0 <= circle_c2 (pixel_uv (global_idx blockIdx blockDim threadIdx) size)
                            elementSize dist sunPos
          /\ 0 <= circle_s atan2f smoothstep1f
                           (pixel_uv (global_idx blockIdx blockDim threadIdx) size)
                           elementSize dist sunPos)
    /\ (forall len angle : R, 0 <= sun_glow1 len angle /\ 0 <= sun_glow2 len angle).
Proof.
  intros Hin. unfold LensFlare. rewrite Hin. cbv zeta.
  set (idx := global_idx blockIdx blockDim threadIdx).
  set (uv := pixel_uv idx size).
  set (len := length2 (sub2 uv sunPos)).
  set (angle := atan2f _ _).
  eexists. split; [reflexivity|].
  unfold flare_element.
  set (e0 := LensFlareCircle atan2f smoothstep1f uv _ _ sunPos).
  set (e1 := LensFlareCircle atan2f smoothstep1f uv _ _ sunPos).
  destruct (LensFlareCircle_lower uv
              (powf (LensFlareRand fract (0 * 2000.0) * 1.8) 2.0 + 1.41)
              (LensFlareRand fract (0 * 20.0) * 3.0 + 0.2 - 0.5) sunPos) as (X0 & Y0 & Z0).
  destruct (LensFlareCircle_lower uv
              (powf (LensFlareRand fract (1 * 2000.0) * 1.8) 2.0 + 1.41)
              (LensFlareRand fract (1 * 20.0) * 3.0 + 0.2 - 0.5) sunPos) as (X1 & Y1 & Z1).
  fold e0 in X0, Y0, Z0. fold e1 in X1, Y1, Z1.
  pose proof (sun_glow1_nonneg len angle) as G1.
  pose proof (sun_glow2_nonneg len angle) as G2.
  cbn [adds3 add3 f3x f3y f3z].
  split; [|split; [repeat split; lra|]].
  - intros Hlen. pose proof (sun_glow2_lower len angle Hlen) as G3.
    repeat split; lra.
  - split.
    + intros elementSize dist.
      repeat split;
        [apply circle_c_nonneg | apply circle_c1_nonneg | apply circle_c2_nonneg
        | apply circle_s_nonneg].
    + intros len' angle'. split; [apply sun_glow1_nonneg | apply sun_glow2_nonneg].
Qed.

End Bounds.

(** *** An element that darkens the pixel *)

Lemma sqrt_lower a x : 0 <= a -> a * a <= x -> a <= sqrt x.
Proof.
  intros Ha Hx. rewrite <- (sqrt_square a Ha) at 1. apply sqrt_le_1_alt. exact Hx.
Qed.

Lemma powf_one y : powf 1 y = 1.
Proof.
  unfold powf. destruct Rlt_dec; [|lra].
  unfold Rpower. rewrite ln_1, Rmult_0_r. apply exp_0.
Qed.

Lemma powf_ge_one x y : 1 <= x -> 0 <= y -> 1 <= powf x y.
Proof.
  intros Hx Hy. unfold powf. destruct Rlt_dec; [|lra].
  rewrite <- (Rpower_O x) by lra. apply Rle_Rpower; assumption.
Qed.

Lemma powf_exponent_one x : 0 < x -> powf x 1.0 = x.
Proof.
  intros Hx. unfold powf. destruct Rlt_dec; [|lra].
  replace 1.0 with 1 by lra. apply Rpower_1. exact Hx.
Qed.

Lemma truncate_six : truncate 6.0 = 6%Z.
Proof.
  unfold truncate. destruct Rle_dec; [|lra].
  assert (H : (6 <= Int_part 6.0 <= 6)%Z)
    by (apply CopyToOutputFacts.Int_part_between; lra).
  lia.
Qed.

(** The hexagon's angle is folded into a sector of half-width PI/6,
    where the cosine is at least 1/2. *)
Lemma folded_angle_cos a :
  1 / 2 <= cosf (floorf (0.5 + a / (TWO_PI / 6)) * (TWO_PI / 6) - a).
Proof.
  pose proof PI_RGT_0 as Hpi.
  unfold cosf, floorf, TWO_PI.
  set (b := 2 * PI / 6). assert (Hb : 0 < b) by (unfold b; lra).
  set (u := a / b). assert (Ha : a = u * b) by (unfold u; field; lra).
  destruct (base_Int_part (0.5 + u)) as [H1 H2].
  set (F := IZR (Int_part (0.5 + u))) in *.
  set (th := F * b - a).
  assert (Hth : - (PI / 6) <= th <= PI / 6).
  { unfold th. rewrite Ha. unfold b in *. split; nra. }
  rewrite <- cos_PI3.
  destruct (Rle_dec 0 th).
  - apply cos_decr_1; lra.
  - rewrite <- (cos_neg th). apply cos_decr_1; lra.
Qed.

Section Darkening.
Variable atan2f : R -> R -> R.
Variable fract : R -> R.
Variable smoothstep1f : R -> R -> R -> R.
Hypothesis fract_0 : fract 0 = 0.
Hypothesis smoothstep_above : forall x, 0.51 <= x -> smoothstep1f 0.5 0.51 x = 1.

Lemma far_circle_c size dist :
  size = 1.41 -> dist = -0.3 -> circle_c far_uv size dist left_sun = 0.
Proof.
  intros -> ->. unfold circle_c, length2, add2, scale2, far_uv, left_sun; simpl.
  replace ((0.76 + -0.8 * -0.3) * (0.76 + -0.8 * -0.3) + (0 + 0 * -0.3) * (0 + 0 * -0.3))
    with 1 by lra.
  rewrite sqrt_1, powf_one. rewrite Rmax_right by lra. lra.
Qed.

Lemma far_circle_c1 size dist :
  size = 1.41 -> dist = -0.3 -> circle_c1 far_uv size dist left_sun <= 0.003.
Proof.
  intros -> ->. unfold circle_c1, length2, add2, scale2, far_uv, left_sun; simpl.
  set (r := sqrt _).
  assert (Hr : 1.72 <= r) by (apply sqrt_lower; lra).
  pose proof (powf_ge_one (r + 1.41 / 2.0 - 0.3) (1.0 / 40.0)) as Hp.
  pose proof (SIN_bound ((r + 1.41 / 2.0) * 30.0)) as Hs. unfold sinf.
  assert (Rmax (0.001 - powf (r + 1.41 / 2.0 - 0.3) (1.0 / 40.0)
                + sin ((r + 1.41 / 2.0) * 30.0)) 0.0 <= 0.001)
    by (apply Rmax_lub; lra).
  lra.
Qed.

Lemma far_circle_c2 size dist :
  size = 1.41 -> dist = -0.3 -> circle_c2 far_uv size dist left_sun <= 0.003.
Proof.
  intros -> ->. unfold circle_c2, length2, adds2, sub2, div2, scale2, far_uv, left_sun; simpl.
  set (r := sqrt _).
  assert (Hr : 0.73 <= r) by (apply sqrt_lower; lra).
  rewrite powf_exponent_one by lra.
  assert (0.04 / (r * 1.0) <= 0.06).
  { apply Rmult_le_reg_r with (r * 1.0); [lra|].
    unfold Rdiv. rewrite Rmult_assoc, Rinv_l by lra. lra. }
  assert (Rmax (0.04 / (r * 1.0)) 0.0 <= 0.06) by (apply Rmax_lub; lra).
  lra.
Qed.

Lemma far_circle_s size dist :
  size = 1.41 -> dist = -0.3 ->
  circle_s atan2f smoothstep1f far_uv size dist left_sun = 0.
Proof.
  intros -> ->. unfold circle_s, LensFlareRegShape. cbv zeta.
  rewrite truncate_six.
  set (q := adds2 _ 0.9).
  set (a := atan2f (f2x q) (f2y q) + 0.2).
  assert (Hq : 5.9 <= length2 q).
  { unfold length2, q, adds2, add2, scale2, far_uv, left_sun; simpl.
    apply sqrt_lower; lra. }
  pose proof (folded_angle_cos a) as Hcos.
  rewrite smoothstep_above by nra.
  rewrite powf_one. rewrite Rmax_right by lra. lra.
Qed.

Lemma first_element_args :
  powf (LensFlareRand fract (0 * 2000.0) * 1.8) 2.0 + 1.41 = 1.41 /\
  LensFlareRand fract (0 * 20.0) * 3.0 + 0.2 - 0.5 = -0.3.
Proof.
  unfold LensFlareRand, sinf.
  replace (0 * 2000.0) with 0 by lra. replace (0 * 20.0) with 0 by lra.
  rewrite sin_0. replace (0 * 1000.0) with 0 by lra. rewrite fract_0.
  unfold powf. destruct Rlt_dec; [lra|]. split; lra.
Qed.

(** The first element of the loop lowers every channel of that pixel. *)
Lemma first_element_lowers :
  f3x (flare_element atan2f fract smoothstep1f 0 far_uv left_sun) < 0 /\
  f3y (flare_element atan2f fract smoothstep1f 0 far_uv left_sun) < 0 /\
  f3z (flare_element atan2f fract smoothstep1f 0 far_uv left_sun) < 0.
Proof.
  destruct first_element_args as [Hsize Hdist].
  unfold flare_element.
  set (size := powf _ 2.0 + 1.41) in *.
  set (dist := LensFlareRand fract (0 * 20.0) * 3.0 + 0.2 - 0.5) in *.
  pose proof (far_circle_c size dist Hsize Hdist) as Hc.
  pose proof (far_circle_c1 size dist Hsize Hdist) as Hc1.
  pose proof (far_circle_c2 size dist Hsize Hdist) as Hc2.
  pose proof (far_circle_s size dist Hsize Hdist) as Hs.
  pose proof (circle_c1_nonneg far_uv size dist left_sun) as Pc1.
  pose proof (circle_c2_nonneg far_uv size dist left_sun) as Pc2.
  unfold LensFlareCircle; cbn [adds3 add3 scale3 cos3f f3x f3y f3z].
  rewrite Hc, Hs.
  repeat split;
    match goal with |- (cos ?x * 0.5 + 0.5) * _ + _ + _ + _ + _ < 0 =>
      pose proof (tint_range x) end; nra.
Qed.

End Darkening.

Lemma fract_std_0 : fract_std 0 = 0.
Proof.
  unfold fract_std, floorf.
  assert (H : (0 <= Int_part 0 <= 0)%Z)
    by (apply CopyToOutputFacts.Int_part_between; lra).
  replace (Int_part 0) with 0%Z by lia. lra.
Qed.

Lemma smoothstep_std_above x : 0.51 <= x -> smoothstep_std 0.5 0.51 x = 1.
Proof.
  intros Hx. unfold smoothstep_std.
  assert (1 <= (x - 0.5) / (0.51 - 0.5)).
  { apply Rmult_le_reg_r with (0.51 - 0.5); [lra|].
    unfold Rdiv. rewrite Rmult_assoc, Rinv_l by lra. lra. }
  rewrite Rmin_right by lra. rewrite Rmax_right by lra. lra.
Qed.

(** With the sun at uv (-0.8, 0), the first flare element composited
    at uv (0.76, 0) is negative in every channel: the pass is not
    "purely additive". *)
Lemma first_element_negative :
  f3x (flare_element atan2_std fract_std smoothstep_std 0 far_uv left_sun) < 0 /\
  f3y (flare_element atan2_std fract_std smoothstep_std 0 far_uv left_sun) < 0 /\
  f3z (flare_element atan2_std fract_std smoothstep_std 0 far_uv left_sun) < 0.
Proof.
  apply first_element_lowers.
  - exact fract_std_0.
  - exact smoothstep_std_above.
Qed.

(** *** A pixel that the pass darkens *)

(** A point of a line is at least as far from the origin as the line. *)
Lemma line_clear k a b mx my d :
  0 < mx * mx + my * my ->
  k * (mx * mx + my * my) <= (a * my - b * mx) * (a * my - b * mx) ->
  k <= (a + mx * d) * (a + mx * d) + (b + my * d) * (b + my * d).
Proof.
  intros HA Hc.
  apply Rmult_le_reg_l with (mx * mx + my * my); [exact HA|].
  replace ((mx * mx + my * my)
           * ((a + mx * d) * (a + mx * d) + (b + my * d) * (b + my * d)))
    with ((a * my - b * mx) * (a * my - b * mx)
          + ((mx * mx + my * my) * d + (a * mx + b * my))
            * ((mx * mx + my * my) * d + (a * mx + b * my))) by ring.
  pose proof (Rle_0_sqr ((mx * mx + my * my) * d + (a * mx + b * my))) as Hsq.
  unfold Rsqr in Hsq. lra.
Qed.

Lemma sqrt_3 : sqrt 3 * sqrt 3 = 3 /\ 1.7 <= sqrt 3.
Proof.
  split; [apply sqrt_sqrt; lra | apply sqrt_lower; lra].
Qed.

(** Every point of a line through (a, b), a <= -1.9 and 0 <= b, in the
    direction of the far sun is farther than sqrt 2 from the origin. *)
Lemma far_sun_line a b d :
  a <= -1.9 -> 0 <= b ->
  2 <= (a + f2x far_sun * d) * (a + f2x far_sun * d)
       + (b + f2y far_sun * d) * (b + f2y far_sun * d).
Proof.
  intros Ha Hb. destruct sqrt_3 as [Hs Hs'].
  unfold far_sun; cbn [f2x f2y].
  assert (HL : 10 <= 5 * 10 ^ 17) by lra.
  set (L := 5 * 10 ^ 17) in *. set (s := sqrt 3) in *.
  assert (HsL : 1.7 * L <= s * L) by nra.
  apply line_clear.
  - nra.
  - replace ((-2 - L) * (-2 - L) + - (s * L) * - (s * L))
      with ((2 + L) * (2 + L) + (s * s) * (L * L)) by ring.
    rewrite Hs.
    replace (a * - (s * L) - b * (-2 - L)) with ((- a) * (s * L) + b * (2 + L)) by ring.
    set (u := - a). assert (Hu : 1.9 <= u) by (unfold u; lra).
    set (w := s * L) in *.
    assert (Hw : 3.23 * L <= u * w + b * (2 + L)) by nra.
    assert (H2 : (3.23 * L) * (3.23 * L)
                 <= (u * w + b * (2 + L)) * (u * w + b * (2 + L))) by nra.
    nra.
Qed.

Lemma length2_far v : 2 <= f2x v * f2x v + f2y v * f2y v -> 1.4 <= length2 v.
Proof. intros H. unfold length2. apply sqrt_lower; lra. Qed.

Lemma root40 : Rpower (1.001 ^ 40) (1.0 / 40.0) = 1.001.
Proof.
  rewrite <- (Rpower_pow 40 1.001) by lra.
  rewrite Rpower_mult.
  replace (INR 40 * (1.0 / 40.0)) with 1 by (simpl; lra).
  apply Rpower_1; lra.
Qed.

Lemma root20_of_8 : Rpower (8 ^ 20) (1.0 / 20.0) = 8.
Proof.
  rewrite <- (Rpower_pow 20 8) by lra.
  rewrite Rpower_mult.
  replace (INR 20 * (1.0 / 20.0)) with 1 by (simpl; lra).
  apply Rpower_1; lra.
Qed.

Section FarSun.
Variable atan2f : R -> R -> R.
Variable fract : R -> R.
Variable smoothstep1f : R -> R -> R -> R.
Hypothesis smoothstep_above : forall x, 0.51 <= x -> smoothstep1f 0.5 0.51 x = 1.
Hypothesis atan2_right : forall y x, 0 < x -> atan2f y x = atan (y / x).

(** With the sun that far, whatever the size (at least 1.41) and the
    position along the axis of a flare element, its circle, ring and
    hexagon vanish at the pixel and its dot is below 0.002. *)
Lemma far_sun_circle_c size dist :
  1.41 <= size -> circle_c edge_uv size dist far_sun = 0.
Proof.
  intros Hsize. unfold circle_c.
  assert (Hr : 1.4 <= length2 (add2 edge_uv (scale2 far_sun dist))).
  { apply length2_far. cbn [add2 scale2 f2x f2y edge_uv].
    apply far_sun_line; lra. }
  pose proof (powf_ge_one (length2 (add2 edge_uv (scale2 far_sun dist))) (size * 1.4)
                ltac:(lra) ltac:(lra)) as Hp.
  rewrite Rmax_right by lra. lra.
Qed.

Lemma far_sun_circle_c1 size dist :
  1.41 <= size -> circle_c1 edge_uv size dist far_sun = 0.
Proof.
  intros Hsize. unfold circle_c1. cbv zeta.
  assert (Hr : 1.4 <= length2 (add2 edge_uv (scale2 far_sun (dist * 4.0)))).
  { apply length2_far. cbn [add2 scale2 f2x f2y edge_uv].
    apply far_sun_line; lra. }
  set (l := length2 _ + size / 2.0) in *.
  assert (Hl : 1.001 ^ 40 <= l - 0.3) by (unfold l; lra).
  assert (Hp : 1.001 <= powf (l - 0.3) (1.0 / 40.0)).
  { unfold powf. destruct Rlt_dec; [|lra].
    rewrite <- root40. apply Rle_Rpower_l; lra. }
  pose proof (SIN_bound (l * 30.0)) as Hs. unfold sinf.
  rewrite Rmax_right by lra. lra.
Qed.

Lemma far_sun_circle_c2 size dist :
  0 <= circle_c2 edge_uv size dist far_sun <= 0.002.
Proof.
  split; [apply circle_c2_nonneg|].
  unfold circle_c2.
  assert (Hr : 1.4 <= length2 (adds2 (sub2 edge_uv (div2 (scale2 far_sun dist) 2.0)) 0.09)).
  { apply length2_far. cbn [adds2 sub2 div2 scale2 f2x f2y edge_uv].
    replace (-2 - f2x far_sun * dist / 2.0 + 0.09)
      with (-1.91 + f2x far_sun * (- dist / 2.0)) by lra.
    replace (0 - f2y far_sun * dist / 2.0 + 0.09)
      with (0.09 + f2y far_sun * (- dist / 2.0)) by lra.
    apply far_sun_line; lra. }
  set (r := length2 _) in *.
  rewrite powf_exponent_one by lra.
  assert (0.04 / (r * 1.0) <= 0.04).
  { apply Rmult_le_reg_r with (r * 1.0); [lra|].
    unfold Rdiv. rewrite Rmult_assoc, Rinv_l by lra. lra. }
  assert (Rmax (0.04 / (r * 1.0)) 0.0 <= 0.04) by (apply Rmax_lub; lra).
  lra.
Qed.

Lemma far_sun_circle_s size dist :
  circle_s atan2f smoothstep1f edge_uv size dist far_sun = 0.
Proof.
  unfold circle_s, LensFlareRegShape. cbv zeta.
  rewrite truncate_six.
  set (q := adds2 _ 0.9).
  set (a := atan2f (f2x q) (f2y q) + 0.2).
  assert (Hq : 1.4 <= length2 q).
  { apply length2_far. unfold q. cbn [adds2 add2 scale2 f2x f2y edge_uv].
    replace (-2 * 5.0 + f2x far_sun * dist * 5.0 + 0.9)
      with (-9.1 + f2x far_sun * (dist * 5.0)) by lra.
    replace (0 * 5.0 + f2y far_sun * dist * 5.0 + 0.9)
      with (0.9 + f2y far_sun * (dist * 5.0)) by lra.
    apply far_sun_line; lra. }
  pose proof (folded_angle_cos a) as Hcos.
  rewrite smoothstep_above by nra.
  rewrite powf_one. rewrite Rmax_right by lra. lra.
Qed.

Lemma element_channel_upper k c2 : 0 <= k <= 1 -> 0 <= c2 <= 0.002 ->
  k * 0 + k * 0 + k * c2 + k * 0 + - 0.01 <= - 0.008.
Proof. intros. nra. Qed.

(** Each of the two flare elements then takes at least 0.008 from
    every channel of the pixel. *)
Lemma far_sun_element i :
  f3x (flare_element atan2f fract smoothstep1f i edge_uv far_sun) <= - 0.008 /\
  f3y (flare_element atan2f fract smoothstep1f i edge_uv far_sun) <= - 0.008 /\
  f3z (flare_element atan2f fract smoothstep1f i edge_uv far_sun) <= - 0.008.
Proof.
  unfold flare_element.
  set (size := powf _ 2.0 + 1.41).
  set (dist := LensFlareRand fract (i * 20.0) * 3.0 + 0.2 - 0.5).
  assert (Hsize : 1.41 <= size).
  { unfold size, powf. destruct Rlt_dec; [|lra].
    match goal with |- _ <= Rpower ?x ?y + _ =>
      assert (0 < Rpower x y) by (unfold Rpower; apply exp_pos) end. lra. }
  pose proof (far_sun_circle_c size dist Hsize) as Hc.
  pose proof (far_sun_circle_c1 size dist Hsize) as Hc1.
  pose proof (far_sun_circle_c2 size dist) as Hc2.
  pose proof (far_sun_circle_s size dist) as Hs.
  unfold LensFlareCircle; cbn [adds3 add3 scale3 cos3f f3x f3y f3z].
  rewrite Hc, Hc1, Hs.
  repeat split; apply element_channel_upper; trivial; apply tint_range.
Qed.

(** The pixel's distance to the sun and the angle of the sun. *)
Lemma far_sun_len : length2 (sub2 edge_uv far_sun) = 10 ^ 18.
Proof.
  unfold length2, sub2, edge_uv, far_sun; cbn [f2x f2y].
  destruct sqrt_3 as [Hs _].
  replace ((-2 - (-2 - 5 * 10 ^ 17)) * (-2 - (-2 - 5 * 10 ^ 17))
           + (0 - - (sqrt 3 * (5 * 10 ^ 17))) * (0 - - (sqrt 3 * (5 * 10 ^ 17))))
    with ((1 + sqrt 3 * sqrt 3) * ((5 * 10 ^ 17) * (5 * 10 ^ 17))) by ring.
  rewrite Hs.
  replace ((1 + 3) * (5 * 10 ^ 17 * (5 * 10 ^ 17))) with (10 ^ 18 * 10 ^ 18) by lra.
  apply sqrt_square. lra.
Qed.

Lemma far_sun_angle :
  atan2f (f2y (sub2 edge_uv far_sun)) (f2x (sub2 edge_uv far_sun)) = PI / 3.
Proof.
  unfold sub2, edge_uv, far_sun; cbn [f2x f2y].
  rewrite atan2_right by lra.
  replace ((0 - - (sqrt 3 * (5 * 10 ^ 17))) / (-2 - (-2 - 5 * 10 ^ 17)))
    with (sqrt 3) by (field; lra).
  rewrite <- tan_PI3. apply atan_tan.
  pose proof PI_RGT_0. lra.
Qed.

Lemma far_sun_glow1 : sun_glow1 (10 ^ 18) (PI / 3) <= 0.000001.
Proof.
  unfold sun_glow1.
  assert (Hp : 10 ^ 5 <= powf (10 ^ 18 * 10.0) 5.0).
  { unfold powf. destruct Rlt_dec; [|lra].
    replace 5.0 with (INR 5) by (simpl; lra).
    rewrite <- (Rpower_pow 5 10) by lra.
    apply Rle_Rpower_l; [simpl; lra | lra]. }
  set (P := powf _ 5.0) in *.
  pose proof (Rmax_l P 0.0001) as Hm.
  set (M := Rmax P 0.0001) in *.
  assert (HM : 0 < 0.1 / M <= 0.000001).
  { split; [apply Rdiv_lt_0_compat; lra|].
    apply Rmult_le_reg_r with M; [lra|].
    unfold Rdiv. rewrite Rmult_assoc, Rinv_l by lra. lra. }
  rewrite Rmax_left by lra.
  match goal with |- _ * Rabs ?b / 20.0 <= _ =>
    assert (Hb : 0 <= Rabs b <= 1)
      by (split; [apply Rabs_pos | apply Rabs_le; apply SIN_bound]);
    set (B := Rabs b) in * end.
  nra.
Qed.

Lemma far_sun_glow2 : sun_glow2 (10 ^ 18) (PI / 3) <= 0.0125.
Proof.
  unfold sun_glow2.
  assert (Hz : sinf (PI / 3 * 9.0) = 0).
  { unfold sinf. apply sin_eq_0_1. exists 3%Z. lra. }
  rewrite Hz, Rabs_R0, Rmult_0_r.
  assert (Hp : 8 <= powf (10 ^ 18 * 10.0) (1.0 / 20.0)).
  { unfold powf. destruct Rlt_dec; [|lra].
    rewrite <- root20_of_8. apply Rle_Rpower_l; lra. }
  set (P := powf _ _) in *.
  assert (HP : 0 < 0.1 / P <= 0.0125).
  { split; [apply Rdiv_lt_0_compat; lra|].
    apply Rmult_le_reg_r with P; [lra|].
    unfold Rdiv. rewrite Rmult_assoc, Rinv_l by lra. lra. }
  rewrite Rmax_left by lra. lra.
Qed.

Lemma edge_pixel_uv :
  pixel_uv (global_idx (mkDim2 0 1) (mkDim2 8 8) (mkDim2 0 0)) (mkInt2 64 16) = edge_uv.
Proof.
  unfold pixel_uv, global_idx, edge_uv, sub2. cbn [dx dy i2x i2y f2x f2y].
  change (Z.of_nat (0 * 8 + 0)) with 0%Z. change (Z.of_nat (1 * 8 + 0)) with 8%Z.
  f_equal; lra.
Qed.

(** With the sun that far the glow no longer outweighs what the two
    elements take: the pixel is stored with every channel at least
    0.003 lower than it was read. *)
Lemma far_sun_pixel colorBuffer :
  exists color : Float3,
    LensFlare atan2f fract smoothstep1f far_sun colorBuffer (mkInt2 64 16)
              (mkDim2 0 1) (mkDim2 8 8) (mkDim2 0 0)
    = Some (mkInt2 0 8, mkFloat4 color 1.0) /\
    f3x color <= f3x (f4xyz (colorBuffer (mkInt2 0 8))) - 0.003 /\
    f3y color <= f3y (f4xyz (colorBuffer (mkInt2 0 8))) - 0.003 /\
    f3z color <= f3z (f4xyz (colorBuffer (mkInt2 0 8))) - 0.003.
Proof.
  unfold LensFlare. rewrite edge_pixel_uv.
  change (outside (global_idx (mkDim2 0 1) (mkDim2 8 8) (mkDim2 0 0)) (mkInt2 64 16))
    with false.
  cbv zeta. cbv iota.
  rewrite far_sun_angle, far_sun_len.
  change (global_idx (mkDim2 0 1) (mkDim2 8 8) (mkDim2 0 0)) with (mkInt2 0 8).
  eexists. split; [reflexivity|].
  destruct (far_sun_element 0) as (X0 & Y0 & Z0).
  destruct (far_sun_element 1) as (X1 & Y1 & Z1).
  pose proof far_sun_glow1 as G1. pose proof far_sun_glow2 as G2.
  cbn [adds3 add3 f3x f3y f3z].
  repeat split; lra.
Qed.

End FarSun.

Lemma atan2_std_right y x : 0 < x -> atan2_std y x = atan (y / x).
Proof. intros Hx. unfold atan2_std. destruct Rlt_dec; [reflexivity | contradiction]. Qed.

(** In a 64 x 16 image whose texels are all (1, 1, 1), with the sun at
    distance 10^18 from the leftmost pixel of the middle row, in the
    direction of 60 degrees, that pixel is inside the viewport and is
    stored with every channel below the 1 that was read. *)
Lemma far_sun_darkens_pixel :
  exists color : Float3,
    outside (mkInt2 0 8) (mkInt2 64 16) = false /\
    LensFlare atan2_std fract_std smoothstep_std far_sun
              (fun _ => mkFloat4 (splat3 1) 1) (mkInt2 64 16)
              (mkDim2 0 1) (mkDim2 8 8) (mkDim2 0 0)
    = Some (mkInt2 0 8, mkFloat4 color 1.0) /\
    f3x color < 1 /\ f3y color < 1 /\ f3z color < 1.
Proof.
  destruct (far_sun_pixel atan2_std fract_std smoothstep_std smoothstep_std_above
              atan2_std_right (fun _ => mkFloat4 (splat3 1) 1)) as (color & Hst & X & Y & Z).
  exists color. split; [reflexivity|]. split; [exact Hst|].
  cbn [f4xyz splat3 f3x f3y f3z] in X, Y, Z. repeat split; lra.
Qed.

Lemma LensFlare_change_witness :
  exists color : Float3,
    LensFlare atan2_std fract_std smoothstep_std left_sun
              (fun _ => mkFloat4 (splat3 1) 1) (mkInt2 16 9)
              (mkDim2 0 0) (mkDim2 8 8) (mkDim2 3 4)
    = Some (global_idx (mkDim2 0 0) (mkDim2 8 8) (mkDim2 3 4), mkFloat4 color 1.0)
    /\ (0 < length2 (sub2 (pixel_uv (global_idx (mkDim2 0 0) (mkDim2 8 8) (mkDim2 3 4))
                                    (mkInt2 16 9)) left_sun) * 10.0 <= 5 ^ 20 ->
        f3x (f4xyz ((fun _ => mkFloat4 (splat3 1) 1)
                      (global_idx (mkDim2 0 0) (mkDim2 8 8) (mkDim2 3 4)))) <= f3x color
        /\ f3y (f4xyz ((fun _ => mkFloat4 (splat3 1) 1)
                      (global_idx (mkDim2 0 0) (mkDim2 8 8) (mkDim2 3 4)))) <= f3y color
        /\ f3z (f4xyz ((fun _ => mkFloat4 (splat3 1) 1)
                      (global_idx (mkDim2 0 0) (mkDim2 8 8) (mkDim2 3 4)))) <= f3z color)
    /\ (f3x (f4xyz ((fun _ => mkFloat4 (splat3 1) 1)
                      (global_idx (mkDim2 0 0) (mkDim2 8 8) (mkDim2 3 4)))) - 0.02 <= f3x color
        /\ f3y (f4xyz ((fun _ => mkFloat4 (splat3 1) 1)
                      (global_idx (mkDim2 0 0) (mkDim2 8 8) (mkDim2 3 4)))) - 0.02 <= f3y color
        /\ f3z (f4xyz ((fun _ => mkFloat4 (splat3 1) 1)
                      (global_idx (mkDim2 0 0) (mkDim2 8 8) (mkDim2 3 4)))) - 0.02 <= f3z color)
    /\ (forall elementSize dist : R,
          0 <= circle_c (pixel_uv (global_idx (mkDim2 0 0) (mkDim2 8 8) (mkDim2 3 4))
                                  (mkInt2 16 9)) elementSize dist left_sun
          /\ 0 <= circle_c1 (pixel_uv (global_idx (mkDim2 0 0) (mkDim2 8 8) (mkDim2 3 4))
                                      (mkInt2 16 9)) elementSize dist left_sun
          /\ 0 <= circle_c2 (pixel_uv (global_idx (mkDim2 0 0) (mkDim2 8 8) (mkDim2 3 4))
                                      (mkInt2 16 9)) elementSize dist left_sun
          /\ 0 <= circle_s atan2_std smoothstep_std
                           (pixel_uv (global_idx (mkDim2 0 0) (mkDim2 8 8) (mkDim2 3 4))
                                     (mkInt2 16 9)) elementSize dist left_sun)
    /\ (forall len angle : R, 0 <= sun_glow1 len angle /\ 0 <= sun_glow2 len angle).
Proof.
  apply (LensFlare_change atan2_std fract_std smoothstep_std left_sun
           (fun _ => mkFloat4 (splat3 1) 1) (mkInt2 16 9)
           (mkDim2 0 0) (mkDim2 8 8) (mkDim2 3 4)).
  reflexivity.
Defined.

End LensFlareFacts.

(** ** Bounds and barriers *)

Module TraceFacts.
Import Trace.

(** *** Bounds *)

Lemma outside_false idx size :
  outside idx size = false -> (i2x idx < i2x size)%Z /\ (i2y idx < i2y size)%Z.
Proof.
  unfold outside. intros H. apply orb_false_elim in H as [Hx Hy].
  rewrite Z.geb_leb in Hx, Hy. apply Z.leb_gt in Hx, Hy. lia.
Qed.

Lemma global_idx_in_bounds size blockIdx blockDim threadIdx :
  outside (global_idx blockIdx blockDim threadIdx) size = false ->
  in_bounds size (global_idx blockIdx blockDim threadIdx).
Proof.
  intros H. apply outside_false in H. unfold in_bounds.
  unfold global_idx in *; simpl in *. lia.
Qed.

Ltac guarded_kernel :=
  intros size blockIdx blockDim threadIdx;
  match goal with |- context [?k size blockIdx blockDim threadIdx] => unfold k end;
  cbv zeta;
  destruct (outside (global_idx blockIdx blockDim threadIdx) size) eqn:Hout;
  (split; [intros; first [reflexivity | discriminate] |]);
  intros e c Hin Hc; simpl in Hin;
  repeat (destruct Hin as [<- | Hin]; [
    simpl in Hc; injection Hc as <-;
    split; [reflexivity | apply global_idx_in_bounds; exact Hout] |]);
  contradiction.

Lemma Histogram2_guarded : guarded Histogram2.
Proof. guarded_kernel. Qed.

Lemma LensFlare_guarded : guarded LensFlare.
Proof. guarded_kernel. Qed.

Lemma ToneMapping_guarded : guarded ToneMapping.
Proof. guarded_kernel. Qed.

Lemma CopyToOutput_guarded : guarded CopyToOutput.
Proof. guarded_kernel. Qed.

(** On a 4 x 4 image, thread (1,2) of the first block of Histogram2
    loads its pixel and thread (5,2) does nothing. *)
Lemma Histogram2_threads :
  Histogram2 (mkInt2 4 4) (mkDim2 0 0) (mkDim2 8 8) (mkDim2 1 2)
  = [Load InBuffer (mkInt2 1 2)] /\
  Histogram2 (mkInt2 4 4) (mkDim2 0 0) (mkDim2 8 8) (mkDim2 5 2) = [].
Proof. split; reflexivity. Qed.

(** The stores of MedianFilter and SharpeningFilter come after the
    guard. *)
Lemma MedianFilter_store_in_bounds GetLuma RayMax sharedBuffer size blockIdx threadIdx b c :
  In (Store b c) (MedianFilter GetLuma RayMax sharedBuffer size blockIdx threadIdx) ->
  in_bounds size c.
Proof.
  unfold MedianFilter. cbv zeta. intros Hin.
  repeat (apply in_app_or in Hin; destruct Hin as [Hin | Hin]).
  - simpl in Hin. repeat (destruct Hin as [Hin | Hin]; [discriminate Hin|]). contradiction.
  - destruct (_ <? _)%nat; simpl in Hin;
      repeat (destruct Hin as [Hin | Hin]; [discriminate Hin|]); contradiction.
  - simpl in Hin. destruct Hin as [Hin | []]. discriminate Hin.
  - destruct (outside _ size) eqn:Hout; [contradiction|].
    destruct Hin as [Hin | Hin]; [discriminate Hin|].
    destruct Rle_dec; [contradiction|].
    repeat (apply in_app_or in Hin; destruct Hin as [Hin | Hin]).
    + apply in_map_iff in Hin as (? & Heq & _). discriminate Heq.
    + apply repeat_spec in Hin. discriminate Hin.
    + destruct Hin as [Hin | []]. injection Hin as _ <-.
      apply outside_false in Hout. unfold in_bounds; simpl in *. lia.
Qed.

Lemma SharpeningFilter_store_in_bounds texSize blockIdx blockDim threadIdx b c :
  In (Store b c) (SharpeningFilter texSize blockIdx blockDim threadIdx) ->
  in_bounds texSize c.
Proof.
  unfold SharpeningFilter. cbv zeta.
  destruct (outside _ texSize) eqn:Hout; [contradiction|].
  intros Hin. apply in_app_or in Hin; destruct Hin as [Hin | Hin].
  - simpl in Hin. repeat (destruct Hin as [Hin | Hin]; [discriminate Hin|]). contradiction.
  - destruct Hin as [Hin | []]. injection Hin as _ <-.
    apply global_idx_in_bounds; exact Hout.
Qed.

(** C7 (amended). Histogram2, LensFlare, ToneMapping and CopyToOutput
    are guarded: a thread whose pixel lies outside the size given to
    the kernel performs no surface operation, and every surface
    operation is at the thread's own pixel, in bounds.  Every store of
    MedianFilter and of SharpeningFilter is in bounds as well.  (The
    loads that fill MedianFilter's halo and SharpeningFilter's 3x3
    window are issued before or without a test of their coordinate.) *)
Theorem guarded_kernels :
  guarded Histogram2 /\ guarded LensFlare /\ guarded ToneMapping /\ guarded CopyToOutput /\
  (forall GetLuma RayMax sharedBuffer size blockIdx threadIdx b c,
     In (Store b c) (MedianFilter GetLuma RayMax sharedBuffer size blockIdx threadIdx) ->
     in_bounds size c) /\
  (forall texSize blockIdx blockDim threadIdx b c,
     In (Store b c) (SharpeningFilter texSize blockIdx blockDim threadIdx) ->
     in_bounds texSize c).
Proof.
  split; [exact Histogram2_guarded|].
  split; [exact LensFlare_guarded|].
  split; [exact ToneMapping_guarded|].
  split; [exact CopyToOutput_guarded|].
  split.
  - exact MedianFilter_store_in_bounds.
  - exact SharpeningFilter_store_in_bounds.
Qed.

(** Thread (0,0) of block (0,0) of MedianFilter loads the halo texel
    (-1,-1) of the colour surface, whatever the size of the image. *)
Lemma MedianFilter_halo_load_out_of_bounds :
  In (Load colorBuffer (mkInt2 (-1) (-1)))
     (MedianFilter MedianFilter.luma709 1000
        (repeat MedianFilter.dummyLDS 100) (mkInt2 1920 1080) (mkDim2 0 0) (mkDim2 0 0))
  /\ ~ in_bounds (mkInt2 1920 1080) (mkInt2 (-1) (-1)).
Proof.
  split.
  - unfold MedianFilter. cbv zeta. apply in_or_app. left. left. reflexivity.
  - unfold in_bounds; simpl. lia.
Qed.

(** With the grid of init.cu for a quarter-resolution surface of
    480 x 270 texels (34 rows of blocks of 8 x 8 threads), thread (0,6)
    of block (0,33) of DownScale4 has the pixel (0,270), outside the
    surface, and loads it. *)
Lemma DownScale4_loads_outside :
  outside (global_idx (mkDim2 0 33) (mkDim2 8 8) (mkDim2 0 6)) (mkInt2 480 270) = true /\
  In (Load InBuffer (mkInt2 0 270))
     (DownScale4 (mkInt2 480 270) (mkDim2 0 33) (mkDim2 8 8) (mkDim2 0 6))
  /\ ~ in_bounds (mkInt2 480 270) (mkInt2 0 270).
Proof.
  split; [reflexivity|]. split.
  - left. reflexivity.
  - unfold in_bounds; simpl. lia.
Qed.

(** *** Barriers *)

(** A trace made of stores, one barrier, then loads. *)
Lemma phases_app_no_sync k pre post :
  syncs pre = 0%nat ->
  phases k (pre ++ post) = map (pair k) pre ++ phases k post.
Proof.
  induction pre as [|e pre IH]; intros Hs; simpl; [reflexivity|].
  destruct e; simpl in *; try (rewrite IH by exact Hs; reflexivity).
  discriminate Hs.
Qed.

Lemma phases_no_sync k tr : syncs tr = 0%nat -> phases k tr = map (pair k) tr.
Proof.
  intros Hs. rewrite <- (app_nil_r tr) at 1.
  rewrite phases_app_no_sync by exact Hs. simpl. apply app_nil_r.
Qed.

Lemma syncs_app a b : syncs (a ++ b) = (syncs a + syncs b)%nat.
Proof.
  induction a as [|e a IH]; simpl; [reflexivity|].
  destruct e; simpl; rewrite ?IH; reflexivity.
Qed.

Lemma syncs_map_SharedLoad l : syncs (map SharedLoad l) = 0%nat.
Proof. induction l; simpl; auto. Qed.

Lemma syncs_repeat_SharedLoad c n : syncs (repeat (SharedLoad c) n) = 0%nat.
Proof. induction n; simpl; auto. Qed.

(** MedianFilter splits at its barrier into a part that only loads
    surfaces and stores cells, and a part that only loads cells and
    stores to the surface. *)
Lemma MedianFilter_split GetLuma RayMax sharedBuffer size blockIdx threadIdx :
  exists pre post,
    MedianFilter GetLuma RayMax sharedBuffer size blockIdx threadIdx
    = pre ++ SyncThreads :: post
    /\ syncs pre = 0%nat /\ syncs post = 0%nat
    /\ (forall c, ~ In (SharedLoad c) pre)
    /\ (forall c, ~ In (SharedStore c) post).
Proof.
  unfold MedianFilter. cbv zeta.
  match goal with |- exists pre post, ?a ++ ?b ++ [SyncThreads] ++ ?c = _ /\ _ =>
    exists (a ++ b), c end.
  split; [rewrite <- app_assoc; reflexivity|].
  split; [destruct (_ <? _)%nat; reflexivity|].
  split.
  { destruct (outside _ size); [reflexivity|]. simpl.
    destruct Rle_dec; reflexivity. }
  split.
  - intros c Hin. apply in_app_or in Hin as [Hin | Hin].
    + simpl in Hin. repeat (destruct Hin as [Hin | Hin]; [discriminate Hin|]). contradiction.
    + destruct (_ <? _)%nat; simpl in Hin;
        repeat (destruct Hin as [Hin | Hin]; [discriminate Hin|]); contradiction.
  - intros c Hin. destruct (outside _ size); [contradiction|].
    destruct Hin as [Hin | Hin]; [discriminate Hin|].
    destruct Rle_dec; [contradiction|].
    repeat (apply in_app_or in Hin; destruct Hin as [Hin | Hin]).
    + apply in_map_iff in Hin as (? & Heq & _). discriminate Heq.
    + apply repeat_spec in Hin. discriminate Hin.
    + destruct Hin as [Hin | []]. discriminate Hin.
Qed.

(** In such a trace the stores to cells are in phase 0 and the loads of
    cells in phase 1. *)
Lemma split_phases pre post k e :
  syncs pre = 0%nat -> syncs post = 0%nat ->
  In (k, e) (phases 0 (pre ++ SyncThreads :: post)) ->
  (k = 0%nat /\ In e pre) \/ (k = 1%nat /\ In e post).
Proof.
  intros Hpre Hpost Hin.
  rewrite phases_app_no_sync in Hin by exact Hpre. simpl in Hin.
  rewrite phases_no_sync in Hin by exact Hpost.
  apply in_app_or in Hin as [Hin | Hin];
    apply in_map_iff in Hin as (e' & Heq & Hin'); injection Heq as <- <-; auto.
Qed.

(** X13. The median filter keeps the discipline: in every block, a
    store to a tile cell by one thread and a load of that cell by
    another thread are separated by the barrier, and every thread of
    the block executes the barrier, whatever the tile holds and whether
    or not the thread's pixel is inside the image. *)
Lemma MedianFilter_barrier GetLuma RayMax sharedBuffer size blockIdx :
  barrier_separated (block 8) (MedianFilter GetLuma RayMax sharedBuffer size blockIdx) /\
  barriers_by_all (block 8) (MedianFilter GetLuma RayMax sharedBuffer size blockIdx).
Proof.
  split.
  - intros t1 t2 c k1 k2 _ _ _ Hst Hld.
    destruct (MedianFilter_split GetLuma RayMax sharedBuffer size blockIdx t1)
      as (pre1 & post1 & E1 & Hp1 & Hq1 & _ & Hnost).
    destruct (MedianFilter_split GetLuma RayMax sharedBuffer size blockIdx t2)
      as (pre2 & post2 & E2 & Hp2 & Hq2 & Hnold & _).
    rewrite E1 in Hst. rewrite E2 in Hld.
    apply split_phases in Hst as [[-> _] | [_ Hin]]; trivial; [| elim (Hnost c Hin)].
    apply split_phases in Hld as [[_ Hin] | [-> _]]; trivial; [elim (Hnold c Hin) | lia].
  - intros t1 t2 _ _.
    destruct (MedianFilter_split GetLuma RayMax sharedBuffer size blockIdx t1)
      as (pre1 & post1 & -> & Hp1 & Hq1 & _).
    destruct (MedianFilter_split GetLuma RayMax sharedBuffer size blockIdx t2)
      as (pre2 & post2 & -> & Hp2 & Hq2 & _).
    rewrite !syncs_app. simpl. lia.
Qed.

Lemma DownScale4_syncs size blockIdx blockDim threadIdx :
  syncs (DownScale4 size blockIdx blockDim threadIdx) = 0%nat.
Proof.
  unfold DownScale4. cbv zeta.
  destruct (_ && _)%bool, (_ && _)%bool; reflexivity.
Qed.

(** C6. DownScale4 breaks the discipline: thread (1,0) stores its texel
    to sharedBuffer[1][0], thread (0,0) loads sharedBuffer[1][0] for its
    2x2 sum, and no thread of the kernel executes a barrier, so the
    store and the load are not separated by one. *)
Theorem DownScale4_not_barrier_separated (size : Int2) (blockIdx : dim2) :
  In (0%nat, SharedStore (cell2 8 1 0))
     (phases 0 (DownScale4 size blockIdx (mkDim2 8 8) (mkDim2 1 0))) /\
  In (0%nat, SharedLoad (cell2 8 1 0))
     (phases 0 (DownScale4 size blockIdx (mkDim2 8 8) (mkDim2 0 0))) /\
  (forall threadIdx, syncs (DownScale4 size blockIdx (mkDim2 8 8) threadIdx) = 0%nat) /\
  ~ barrier_separated (block 8) (DownScale4 size blockIdx (mkDim2 8 8)).
Proof.
  assert (Hst : In (0%nat, SharedStore (cell2 8 1 0))
                   (phases 0 (DownScale4 size blockIdx (mkDim2 8 8) (mkDim2 1 0))))
    by (simpl; auto).
  assert (Hld : In (0%nat, SharedLoad (cell2 8 1 0))
                   (phases 0 (DownScale4 size blockIdx (mkDim2 8 8) (mkDim2 0 0))))
    by (simpl; auto 6).
  split; [exact Hst|]. split; [exact Hld|].
  split; [intros; apply DownScale4_syncs|].
  intros Hsep.
  assert (H10 : In (mkDim2 1 0) (block 8)) by (simpl; auto).
  assert (H00 : In (mkDim2 0 0) (block 8)) by (simpl; auto).
  assert (Hne : mkDim2 1 0 <> mkDim2 0 0) by discriminate.
  pose proof (Hsep _ _ _ _ _ H10 H00 Hne Hst Hld). lia.
Qed.

(** BloomGuassian has a barrier between its stores and its loads, but
    the threads of the two-texel border return before it. *)
Lemma BloomGuassian_border_skips_barrier size blockIdx :
  syncs (BloomGuassian size blockIdx (mkDim2 0 0)) = 0%nat /\
  syncs (BloomGuassian size blockIdx (mkDim2 2 2)) = 1%nat /\
  ~ barriers_by_all (block 16) (BloomGuassian size blockIdx).
Proof.
  split; [reflexivity|]. split; [reflexivity|].
  intros Hall.
  assert (H00 : In (mkDim2 0 0) (block 16)) by (simpl; auto).
  assert (H22 : In (mkDim2 2 2) (block 16)) by (simpl; auto 40).
  specialize (Hall _ _ H00 H22). discriminate Hall.
Qed.

End TraceFacts.

(** * Further properties *)

(** A list built by [map] over [seq], read by subscript. *)
Lemma nth_map_seq {A} (f : nat -> A) n k d :
  (k < n)%nat -> nth k (map f (seq 0 n)) d = f k.
Proof.
  intros Hk. rewrite (nth_indep _ d (f 0%nat)) by (rewrite length_map, length_seq; exact Hk).
  rewrite map_nth, seq_nth by exact Hk. reflexivity.
Qed.

(** ** The histogram *)

Module Histogram2Facts.
Import AutoExposure Histogram2.
Import Sort9 (b2n).

Lemma rintf_nearest x :
  exists z, rintf x = IZR z /\ - (1 / 2) <= x - IZR z <= 1 / 2.
Proof.
  unfold rintf. destruct (base_Int_part x) as [H1 H2].
  set (n := Int_part x) in *.
  destruct Rlt_dec as [Hlt | Hge].
  - exists n. split; [reflexivity|]. lra.
  - destruct Rlt_dec as [Hgt | Hle].
    + exists (n + 1)%Z. split; [reflexivity|]. rewrite plus_IZR. lra.
    + destruct (Z.even n).
      * exists n. split; [reflexivity|]. lra.
      * exists (n + 1)%Z. split; [reflexivity|]. rewrite plus_IZR. lra.
Qed.

Lemma rintf_monotone x y : x <= y -> rintf x <= rintf y.
Proof.
  intros Hxy.
  destruct (rintf_nearest x) as (a & Ha & Hxa).
  destruct (rintf_nearest y) as (b & Hb & Hyb).
  destruct (Z_le_gt_dec a b) as [Hab | Hab].
  - rewrite Ha, Hb. apply IZR_le, Hab.
  - assert (IZR b + 1 <= IZR a).
    { rewrite <- plus_IZR. apply IZR_le. lia. }
    assert (x = y) by lra. subst y. lra.
Qed.

Lemma Int_part_IZR z : Int_part (IZR z) = z.
Proof.
  assert (H : (z <= Int_part (IZR z) <= z)%Z) by (apply CopyToOutputFacts.Int_part_between; lra).
  lia.
Qed.

Lemma truncate_IZR z : truncate (IZR z) = z.
Proof.
  unfold truncate. destruct Rle_dec.
  - apply Int_part_IZR.
  - rewrite <- opp_IZR, Int_part_IZR. lia.
Qed.

Lemma clampf_range a lo hi : lo <= hi -> lo <= clampf a lo hi <= hi.
Proof. intros; unfold clampf, Rmax, Rmin; repeat destruct Rle_dec; lra. Qed.

Lemma clampf_monotone a b lo hi : a <= b -> clampf a lo hi <= clampf b lo hi.
Proof. intros; unfold clampf, Rmax, Rmin; repeat destruct Rle_dec; lra. Qed.

Lemma clampf_inside a lo hi : lo <= a <= hi -> clampf a lo hi = a.
Proof. intros; unfold clampf, Rmax, Rmin; repeat destruct Rle_dec; lra. Qed.

Lemma clampf_hi a lo hi : lo <= hi -> hi <= a -> clampf a lo hi = hi.
Proof. intros; unfold clampf, Rmax, Rmin; repeat destruct Rle_dec; lra. Qed.

(** The rounded value as an integer. *)
Lemma fBucket_nearest luminance :
  - (1 / 2) <= clampf (log2f luminance * 0.1 + 0.75) 0.0 1.0 * 63 * 0.99999
               - IZR (fBucket luminance) <= 1 / 2
  /\ rintf (clampf (log2f luminance * 0.1 + 0.75) 0.0 1.0 * 63 * 0.99999)
     = IZR (fBucket luminance).
Proof.
  unfold fBucket.
  destruct (rintf_nearest (clampf (log2f luminance * 0.1 + 0.75) 0.0 1.0 * 63 * 0.99999))
    as (z & Hz & Habs).
  rewrite Hz, truncate_IZR. split; [exact Habs | reflexivity].
Qed.

Lemma fBucket_bounds luminance : (0 <= fBucket luminance <= 63)%Z.
Proof.
  destruct (fBucket_nearest luminance) as [Habs _].
  pose proof (clampf_range (log2f luminance * 0.1 + 0.75) 0.0 1.0 ltac:(lra)) as Hc.
  split.
  - apply Z.lt_succ_r. apply lt_IZR. rewrite succ_IZR.
    change (IZR 0) with 0. nra.
  - apply Z.lt_succ_r. apply lt_IZR. rewrite succ_IZR. nra.
Qed.

(** X1. The bucket Histogram2 computes for a positive luminance is
    between 0 and 63: the subscript of the atomic increment is within
    the 64 counters, however dark or bright the pixel.  (Bucket 63 is
    reached, see [fBucket_brightest]: the factor 0.99999 does not keep
    the rounded value below 63.) *)
Theorem fBucket_in_histogram (luminance : R) :
  0 < luminance -> (0 <= fBucket luminance <= 63)%Z.
Proof. intros _. apply fBucket_bounds. Qed.

Lemma fBucket_in_histogram_witness : (0 <= fBucket 1 <= 63)%Z.
Proof. apply (fBucket_in_histogram 1). lra. Defined.

(** A luminance of 8 is counted in the last bucket. *)
Lemma fBucket_brightest : fBucket 8 = 63%Z.
Proof.
  unfold fBucket.
  assert (H8 : log2f 8 = 3).
  { unfold log2f. replace 8 with (2 * (2 * 2)) by lra.
    rewrite !ln_mult by lra.
    assert (0 < ln 2) by (rewrite <- ln_1; apply ln_increasing; lra).
    field. lra. }
  rewrite H8. rewrite (clampf_hi (3 * 0.1 + 0.75) 0.0 1.0) by lra.
  unfold rintf.
  assert (Hi : Int_part (1.0 * 63 * 0.99999) = 62%Z).
  { assert (H : (62 <= Int_part (1.0 * 63 * 0.99999) <= 62)%Z)
      by (apply CopyToOutputFacts.Int_part_between; lra).
    lia. }
  rewrite Hi. destruct Rlt_dec as [Hlt | _]; [lra|].
  destruct Rlt_dec as [_ | Hn]; [|lra].
  apply truncate_IZR.
Qed.

Lemma ln2_pos : 0 < ln 2.
Proof. rewrite <- ln_1. apply ln_increasing; lra. Qed.

Lemma log2f_monotone a b : 0 < a -> a <= b -> log2f a <= log2f b.
Proof.
  intros Ha Hab. unfold log2f. pose proof ln2_pos.
  apply Rmult_le_compat_r; [left; apply Rinv_0_lt_compat; assumption|].
  destruct Hab as [Hlt | ->]; [left; apply ln_increasing; assumption | right; reflexivity].
Qed.

(** X2. The bucket does not decrease when the luminance grows: a
    brighter pixel is never counted in a darker bucket. *)
Theorem fBucket_monotone (l1 l2 : R) :
  0 < l1 -> l1 <= l2 -> (fBucket l1 <= fBucket l2)%Z.
Proof.
  intros H1 H12.
  destruct (fBucket_nearest l1) as [_ E1]. destruct (fBucket_nearest l2) as [_ E2].
  apply le_IZR. rewrite <- E1, <- E2. apply rintf_monotone.
  pose proof (log2f_monotone l1 l2 H1 H12).
  pose proof (clampf_monotone (log2f l1 * 0.1 + 0.75) (log2f l2 * 0.1 + 0.75) 0.0 1.0 ltac:(lra)).
  lra.
Qed.

Lemma fBucket_monotone_witness : (fBucket 1 <= fBucket 2)%Z.
Proof. apply (fBucket_monotone 1 2); lra. Defined.

Lemma exp2f_log2f x : 0 < x -> exp2f (log2f x) = x.
Proof.
  intros Hx. unfold exp2f, log2f, Rpower. pose proof ln2_pos.
  replace (ln x / ln 2 * ln 2) with (ln x) by (field; lra).
  apply exp_ln, Hx.
Qed.

Lemma exp2f_add a b : exp2f (a + b) = exp2f a * exp2f b.
Proof. unfold exp2f. apply Rpower_plus. Qed.

Lemma exp2f_monotone a b : a <= b -> exp2f a <= exp2f b.
Proof. intros. unfold exp2f. apply Rle_Rpower; lra. Qed.

Lemma exp2f_pos a : 0 < exp2f a.
Proof. unfold exp2f, Rpower. apply exp_pos. Qed.

(** X3. Decoding the bucket of a luminance whose log-luminance is
    within [0, 1] (no clamping) with BinToLum gives the luminance back
    up to half a bucket: one bucket is 1 / (0.1 * 63 * 0.99999) in the
    logarithm to base 2, and the decoded luminance is within a factor
    of 2 to the power of half of that (about 2^0.0794) of the
    luminance. *)
Theorem BinToLum_fBucket (luminance : R) :
  0 < luminance ->
  0 <= log2f luminance * 0.1 + 0.75 <= 1 ->
  luminance / exp2f (0.5 / (0.1 * (63 * 0.99999)))
  <= BinToLum (Z.to_nat (fBucket luminance))
  <= luminance * exp2f (0.5 / (0.1 * (63 * 0.99999))).
Proof.
  intros Hpos Hu.
  destruct (fBucket_nearest luminance) as [Habs _].
  pose proof (fBucket_bounds luminance) as Hb.
  rewrite clampf_inside in Habs by lra.
  unfold BinToLum. rewrite INR_IZR_INZ, Z2Nat.id by lia.
  set (b := IZR (fBucket luminance)) in *.
  set (u := log2f luminance * 0.1 + 0.75) in *.
  assert (Hl : luminance = exp2f ((u - 0.75) / 0.1)).
  { unfold u. replace ((log2f luminance * 0.1 + 0.75 - 0.75) / 0.1) with (log2f luminance)
      by (field; lra).
    symmetry. apply exp2f_log2f, Hpos. }
  set (h := 0.5 / (0.1 * (63 * 0.99999))).
  assert (Hd : Ropp h <= (b / (63 * 0.99999) - 0.75) / 0.1 - (u - 0.75) / 0.1 <= h).
  { replace ((b / (63 * 0.99999) - 0.75) / 0.1 - (u - 0.75) / 0.1)
      with ((b - u * 63 * 0.99999) * (1 / (0.1 * 63 * 0.99999))) by (field; lra).
    replace h with (0.5 * (1 / (0.1 * 63 * 0.99999))) by (unfold h; lra).
    assert (0 < 1 / (0.1 * 63 * 0.99999)) by lra.
    nra. }
  replace ((b / (63 * 0.99999) - 0.75) / 0.1)
    with ((u - 0.75) / 0.1 + ((b / (63 * 0.99999) - 0.75) / 0.1 - (u - 0.75) / 0.1)) by lra.
  rewrite exp2f_add, <- Hl.
  set (d := (b / (63 * 0.99999) - 0.75) / 0.1 - (u - 0.75) / 0.1) in *.
  pose proof (exp2f_monotone d h ltac:(lra)) as Hhi.
  pose proof (exp2f_monotone (Ropp h) d ltac:(lra)) as Hlo.
  assert (Hinv : exp2f (Ropp h) = / exp2f h).
  { unfold exp2f. apply Rpower_Ropp. }
  rewrite Hinv in Hlo. pose proof (exp2f_pos h).
  split.
  - unfold Rdiv. apply Rmult_le_compat_l; lra.
  - apply Rmult_le_compat_l; lra.
Qed.


Lemma log2f_1 : log2f 1 = 0.
Proof. unfold log2f. rewrite ln_1. lra. Qed.

Lemma BinToLum_fBucket_witness :
  1 / exp2f (0.5 / (0.1 * (63 * 0.99999)))
  <= BinToLum (Z.to_nat (fBucket 1))
  <= 1 * exp2f (0.5 / (0.1 * (63 * 0.99999))).
Proof.
  apply (BinToLum_fBucket 1).
  - lra.
  - rewrite log2f_1. lra.
Defined.

(** *** The histogram of a whole frame *)

Lemma total_upd b v h :
  (b < length h)%nat -> total (upd b v h) = (total h - nth b h 0 + v)%Z.
Proof.
  revert b; induction h as [|a h IH]; intros [|b] Hb; simpl in *; try lia.
  rewrite IH by lia. lia.
Qed.

Lemma Forall_upd (P : Z -> Prop) b v h : P v -> Forall P h -> Forall P (upd b v h).
Proof.
  intros Hv. revert b; induction h as [|a h IH]; intros [|b] Hh; simpl; trivial;
    inversion Hh; subst; constructor; auto.
Qed.

Lemma nth_le_total b h : Forall (fun c => 0 <= c)%Z h -> (0 <= nth b h 0 <= total h)%Z.
Proof.
  revert b; induction h as [|a h IH]; intros b Hh; simpl.
  - destruct b; lia.
  - inversion Hh; subst. destruct b as [|b]; [|specialize (IH b H2)].
    + assert (0 <= total h)%Z by (specialize (IH 0%nat H2); lia). lia.
    + lia.
Qed.

Section Frame.
Variable getmax : Float3 -> R.
Variable InBuffer : Int2 -> Float4.
Variables (blockDim : dim2) (size : Int2).

(** One thread: a thread outside the image leaves the histogram as it
    is; a thread inside adds one to a counter, as long as the sum of the
    counters is below the pixel count. *)
Lemma Histogram2_thread h bt :
  length h = 64%nat -> Forall (fun c => 0 <= c)%Z h ->
  (total h + (if inside blockDim size bt then 1 else 0) <= i2x size * i2y size)%Z ->
  length (Histogram2 getmax InBuffer h size (fst bt) blockDim (snd bt)) = 64%nat /\
  Forall (fun c => 0 <= c)%Z (Histogram2 getmax InBuffer h size (fst bt) blockDim (snd bt)) /\
  total (Histogram2 getmax InBuffer h size (fst bt) blockDim (snd bt))
  = (total h + (if inside blockDim size bt then 1 else 0))%Z.
Proof.
  intros Hlen Hpos Hroom. unfold Histogram2, inside in *.
  destruct (outside (global_idx (fst bt) blockDim (snd bt)) size); cbn [negb] in *.
  - repeat split; trivial. lia.
  - set (b := Z.to_nat (fBucket (getmax (f4xyz (InBuffer
                (global_idx (fst bt) blockDim (snd bt))))))) in *.
    assert (Hb : (b < 64)%nat).
    { unfold b. pose proof (fBucket_bounds (getmax (f4xyz (InBuffer
                (global_idx (fst bt) blockDim (snd bt)))))). lia. }
    pose proof (nth_le_total b h Hpos) as Hold.
    assert (Hinc : atomicInc (nth b h 0%Z) (i2x size * i2y size) = (nth b h 0 + 1)%Z).
    { unfold atomicInc. destruct (Z.geb_spec (nth b h 0%Z) (i2x size * i2y size)); lia. }
    cbv zeta. rewrite Hinc.
    split; [rewrite upd_length; exact Hlen|].
    split; [apply Forall_upd; [lia | exact Hpos]|].
    rewrite total_upd by lia. lia.
Qed.

Lemma run_total order : forall h,
  length h = 64%nat -> Forall (fun c => 0 <= c)%Z h ->
  (total h + Z.of_nat (length (filter (inside blockDim size) order))
   <= i2x size * i2y size)%Z ->
  length (run getmax InBuffer order blockDim size h) = 64%nat /\
  Forall (fun c => 0 <= c)%Z (run getmax InBuffer order blockDim size h) /\
  total (run getmax InBuffer order blockDim size h)
  = (total h + Z.of_nat (length (filter (inside blockDim size) order)))%Z.
Proof.
  induction order as [|bt order IH]; intros h Hlen Hpos Hroom.
  - simpl. repeat split; trivial. lia.
  - unfold run in *. cbn [fold_left filter] in *.
    assert (Hone : (Z.of_nat (length (if inside blockDim size bt
                                      then bt :: filter (inside blockDim size) order
                                      else filter (inside blockDim size) order))
                    = (if inside blockDim size bt then 1 else 0)
                      + Z.of_nat (length (filter (inside blockDim size) order)))%Z).
    { destruct (inside blockDim size bt); cbn [length]; lia. }
    rewrite Hone in *.
    destruct (Histogram2_thread h bt Hlen Hpos) as (Hl & Hp & Ht); [lia|].
    destruct (IH _ Hl Hp) as (Hl' & Hp' & Ht'); [lia|].
    split; [exact Hl'|]. split; [exact Hp'|]. lia.
Qed.

End Frame.

(** *** How many threads of a launch have a pixel inside the image *)

Lemma count_sum {A} (p : A -> bool) l :
  length (filter p l) = list_sum (map (fun a => b2n (p a)) l).
Proof.
  induction l as [|a l IH]; simpl; [reflexivity|].
  destruct (p a); simpl; rewrite IH; reflexivity.
Qed.

Lemma list_sum_flat_map {A B} (f : B -> nat) (g : A -> list B) l :
  list_sum (map f (flat_map g l)) = list_sum (map (fun a => list_sum (map f (g a))) l).
Proof.
  induction l as [|a l IH]; simpl; [reflexivity|].
  rewrite map_app, list_sum_app, IH. reflexivity.
Qed.

Lemma list_sum_ext {A} (f g : A -> nat) l :
  (forall a, f a = g a) -> list_sum (map f l) = list_sum (map g l).
Proof. intros H. induction l as [|a l IH]; simpl; [reflexivity|]. rewrite H, IH; reflexivity. Qed.

Lemma list_sum_mul_r {A} (f : A -> nat) c l :
  list_sum (map (fun a => f a * c)%nat l) = (list_sum (map f l) * c)%nat.
Proof. induction l as [|a l IH]; simpl; [reflexivity|]. rewrite IH. lia. Qed.

Lemma list_sum_mul_l {A} (f : A -> nat) c l :
  list_sum (map (fun a => c * f a)%nat l) = (c * list_sum (map f l))%nat.
Proof. induction l as [|a l IH]; simpl; [lia|]. rewrite IH. lia. Qed.

(** Over the index vectors below [n], a sum splits into the sum over
    [y] of the sums over [x]. *)
Lemma list_sum_indices (f : dim2 -> nat) n :
  list_sum (map f (indices n))
  = list_sum (map (fun y => list_sum (map (fun x => f (mkDim2 x y)) (seq 0 (dx n))))
                  (seq 0 (dy n))).
Proof.
  unfold indices. rewrite list_sum_flat_map.
  apply list_sum_ext. intros y. rewrite map_map. reflexivity.
Qed.

Lemma list_sum_one x : list_sum [x] = x.
Proof. simpl. lia. Qed.

(** In one dimension: of the [n] threads of the block at offset [a],
    [min n (s - a)] are below [s]. *)
Lemma count_block a s n :
  list_sum (map (fun t => b2n (a + t <? s)%nat) (seq 0 n)) = Nat.min n (s - a).
Proof.
  induction n as [|n IH]; [reflexivity|].
  rewrite seq_S, map_app, list_sum_app, IH. cbn [map list_sum Nat.add].
  rewrite list_sum_one.
  destruct (Nat.ltb_spec (a + n) s); unfold b2n; cbv iota; lia.
Qed.

Lemma count_line g n s :
  list_sum (map (fun b => list_sum (map (fun t => b2n (b * n + t <? s)%nat) (seq 0 n)))
                (seq 0 g))
  = Nat.min s (g * n).
Proof.
  induction g as [|g IH]; [simpl; lia|].
  rewrite seq_S, map_app, list_sum_app, IH. cbn [map list_sum Nat.add].
  rewrite list_sum_one, count_block, Nat.mul_succ_l. lia.
Qed.

Lemma inside_split blockDim size b t :
  b2n (inside blockDim size (b, t))
  = (b2n (dx b * dx blockDim + dx t <? Z.to_nat (i2x size))%nat
     * b2n (dy b * dy blockDim + dy t <? Z.to_nat (i2y size))%nat)%nat.
Proof.
  unfold inside, outside, global_idx. cbn [fst snd i2x i2y].
  destruct (Z.geb_spec (Z.of_nat (dx b * dx blockDim + dx t)) (i2x size));
  destruct (Z.geb_spec (Z.of_nat (dy b * dy blockDim + dy t)) (i2y size));
  destruct (Nat.ltb_spec (dx b * dx blockDim + dx t) (Z.to_nat (i2x size)));
  destruct (Nat.ltb_spec (dy b * dy blockDim + dy t) (Z.to_nat (i2y size)));
  simpl; lia.
Qed.

(** A launch whose grid covers the image has exactly one thread inside
    for each pixel. *)
Lemma launch_inside gridDim blockDim size :
  length (filter (inside blockDim size) (launch gridDim blockDim))
  = (Nat.min (Z.to_nat (i2x size)) (dx gridDim * dx blockDim)
     * Nat.min (Z.to_nat (i2y size)) (dy gridDim * dy blockDim))%nat.
Proof.
  rewrite count_sum. unfold launch. rewrite list_sum_flat_map.
  rewrite list_sum_indices.
  rewrite <- (count_line (dx gridDim) (dx blockDim) (Z.to_nat (i2x size))).
  rewrite <- (count_line (dy gridDim) (dy blockDim) (Z.to_nat (i2y size))).
  rewrite <- list_sum_mul_l. apply list_sum_ext. intros by_.
  rewrite <- list_sum_mul_r. apply list_sum_ext. intros bx.
  rewrite map_map. rewrite list_sum_indices.
  rewrite <- list_sum_mul_l. apply list_sum_ext. intros ty.
  rewrite <- list_sum_mul_r. apply list_sum_ext. intros tx.
  rewrite inside_split. reflexivity.
Qed.

Lemma filter_length_perm {A} (p : A -> bool) l l' :
  Permutation l l' -> length (filter p l) = length (filter p l').
Proof.
  induction 1; simpl; try congruence.
  - destruct (p x); simpl; congruence.
  - destruct (p x), (p y); reflexivity.
Qed.

Lemma mass_from_cons a h area i0 n :
  mass_from (a :: h) area (S i0) n = mass_from h area i0 n.
Proof.
  revert i0; induction n as [|n IH]; intros i0; simpl; [reflexivity|].
  rewrite IH. reflexivity.
Qed.

Lemma mass_from_total h area :
  mass_from h area 0 (length h) = IZR (total h) / area.
Proof.
  induction h as [|a h IH]; simpl.
  - lra.
  - rewrite mass_from_cons, IH, plus_IZR. lra.
Qed.

Lemma Forall_nth_nonneg h : Forall (fun c => 0 <= c)%Z h -> forall j, (0 <= nth j h 0)%Z.
Proof. intros H j. pose proof (nth_le_total j h H). lia. Qed.

Lemma zero_histogram :
  length (repeat 0%Z 64) = 64%nat /\ Forall (fun c => 0 <= c)%Z (repeat 0%Z 64)
  /\ total (repeat 0%Z 64) = 0%Z.
Proof.
  split; [reflexivity|]. split; [|reflexivity].
  apply Forall_forall. intros c Hc. apply repeat_spec in Hc. lia.
Qed.

(** The counters after a launch that covers the image, started from the
    cleared histogram. *)
Lemma frame_counters getmax InBuffer gridDim blockDim size order :
  Permutation order (launch gridDim blockDim) ->
  (0 <= i2x size <= Z.of_nat (dx gridDim * dx blockDim))%Z ->
  (0 <= i2y size <= Z.of_nat (dy gridDim * dy blockDim))%Z ->
  length (run getmax InBuffer order blockDim size (repeat 0%Z 64)) = 64%nat /\
  Forall (fun c => 0 <= c)%Z (run getmax InBuffer order blockDim size (repeat 0%Z 64)) /\
  total (run getmax InBuffer order blockDim size (repeat 0%Z 64))
  = (i2x size * i2y size)%Z.
Proof.
  intros Hperm Hx Hy.
  destruct zero_histogram as (Hl & Hp & Ht).
  assert (Hn : Z.of_nat (length (filter (inside blockDim size) order))
               = (i2x size * i2y size)%Z).
  { rewrite (filter_length_perm _ _ _ Hperm), launch_inside.
    rewrite !Nat.min_l by lia. rewrite Nat2Z.inj_mul, !Z2Nat.id by lia. reflexivity. }
  destruct (run_total getmax InBuffer blockDim size order (repeat 0%Z 64) Hl Hp)
    as (Hl' & Hp' & Ht'); [rewrite Ht, Hn; lia|].
  split; [exact Hl'|]. split; [exact Hp'|]. rewrite Ht', Ht, Hn. lia.
Qed.

(** X4. One launch of Histogram2 over a grid that covers the image,
    started from the cleared histogram, with the atomic increments taken
    in any order, leaves 64 counters that are not negative and add up
    to the number of pixels: every pixel inside the image is counted
    exactly once, the threads outside the image count nothing, and the
    wrap-around of atomicInc at size.x * size.y is never reached. *)
Theorem Histogram2_counts_every_pixel (getmax : Float3 -> R) (InBuffer : Int2 -> Float4)
  (gridDim blockDim : dim2) (size : Int2) (order : list (dim2 * dim2)) :
  Permutation order (launch gridDim blockDim) ->
  (0 <= i2x size <= Z.of_nat (dx gridDim * dx blockDim))%Z ->
  (0 <= i2y size <= Z.of_nat (dy gridDim * dy blockDim))%Z ->
  (forall idx, Trace.in_bounds size idx -> 0 < getmax (f4xyz (InBuffer idx))) ->
  length (run getmax InBuffer order blockDim size (repeat 0%Z 64)) = 64%nat /\
  (forall j, (0 <= nth j (run getmax InBuffer order blockDim size (repeat 0%Z 64)) 0)%Z) /\
  total (run getmax InBuffer order blockDim size (repeat 0%Z 64))
  = (i2x size * i2y size)%Z.
Proof.
  intros Hperm Hx Hy _.
  destruct (frame_counters getmax InBuffer gridDim blockDim size order Hperm Hx Hy)
    as (Hl & Hp & Ht).
  split; [exact Hl|]. split; [apply Forall_nth_nonneg, Hp | exact Ht].
Qed.

Lemma Histogram2_counts_every_pixel_witness :
  length (run f3x (fun _ => mkFloat4 (splat3 1) 1) (launch (mkDim2 1 1) (mkDim2 8 8))
              (mkDim2 8 8) (mkInt2 4 4) (repeat 0%Z 64)) = 64%nat /\
  (forall j, (0 <= nth j (run f3x (fun _ => mkFloat4 (splat3 1) 1)
                              (launch (mkDim2 1 1) (mkDim2 8 8))
                              (mkDim2 8 8) (mkInt2 4 4) (repeat 0%Z 64)) 0)%Z) /\
  total (run f3x (fun _ => mkFloat4 (splat3 1) 1) (launch (mkDim2 1 1) (mkDim2 8 8))
             (mkDim2 8 8) (mkInt2 4 4) (repeat 0%Z 64))
  = (i2x (mkInt2 4 4) * i2y (mkInt2 4 4))%Z.
Proof.
  apply (Histogram2_counts_every_pixel f3x (fun _ => mkFloat4 (splat3 1) 1)
           (mkDim2 1 1) (mkDim2 8 8) (mkInt2 4 4) (launch (mkDim2 1 1) (mkDim2 8 8))).
  - apply Permutation_refl.
  - simpl. lia.
  - simpl. lia.
  - intros idx _. simpl. lra.
Defined.

(** X5. On the histogram such a launch builds, with the pixel count
    as area, both scans of AutoExposure leave by their break, and the
    accepted mass is one half: the average luminance is never the
    quotient of two zeros. *)
Theorem Histogram2_AutoExposure_mass (getmax : Float3 -> R) (InBuffer : Int2 -> Float4)
  (gridDim blockDim : dim2) (size : Int2) (order : list (dim2 * dim2)) :
  Permutation order (launch gridDim blockDim) ->
  (0 < i2x size <= Z.of_nat (dx gridDim * dx blockDim))%Z ->
  (0 < i2y size <= Z.of_nat (dy gridDim * dy blockDim))%Z ->
  (forall idx, Trace.in_bounds size idx -> 0 < getmax (f4xyz (InBuffer idx))) ->
  (i (dark_scan (run getmax InBuffer order blockDim size (repeat 0%Z 64))
                (IZR (i2x size * i2y size))) < 64)%nat /\
  (i (scan_histogram (run getmax InBuffer order blockDim size (repeat 0%Z 64))
                     (IZR (i2x size * i2y size))) < 64)%nat /\
  lumiSumArea (scan_histogram (run getmax InBuffer order blockDim size (repeat 0%Z 64))
                              (IZR (i2x size * i2y size))) = 0.5.
Proof.
  intros Hperm Hx Hy _.
  destruct (frame_counters getmax InBuffer gridDim blockDim size order Hperm
              ltac:(lia) ltac:(lia)) as (Hl & Hp & Ht).
  assert (Harea : 0 < IZR (i2x size * i2y size)) by (apply IZR_lt; nia).
  apply AutoExposureFacts.frame_histogram_half.
  - exact Harea.
  - apply Forall_nth_nonneg, Hp.
  - pose proof (mass_from_total (run getmax InBuffer order blockDim size (repeat 0%Z 64))
                  (IZR (i2x size * i2y size))) as Hm.
    rewrite Hl, Ht in Hm. rewrite Hm. field. lra.
Qed.


Lemma Histogram2_AutoExposure_mass_witness :
  (i (dark_scan (run f3x (fun _ => mkFloat4 (splat3 1) 1)
                     (launch (mkDim2 1 1) (mkDim2 8 8))
                     (mkDim2 8 8) (mkInt2 4 4) (repeat 0%Z 64))
                (IZR (i2x (mkInt2 4 4) * i2y (mkInt2 4 4)))) < 64)%nat /\
  (i (scan_histogram (run f3x (fun _ => mkFloat4 (splat3 1) 1)
                          (launch (mkDim2 1 1) (mkDim2 8 8))
                          (mkDim2 8 8) (mkInt2 4 4) (repeat 0%Z 64))
                     (IZR (i2x (mkInt2 4 4) * i2y (mkInt2 4 4)))) < 64)%nat /\
  lumiSumArea (scan_histogram (run f3x (fun _ => mkFloat4 (splat3 1) 1)
                                   (launch (mkDim2 1 1) (mkDim2 8 8))
                                   (mkDim2 8 8) (mkInt2 4 4) (repeat 0%Z 64))
                              (IZR (i2x (mkInt2 4 4) * i2y (mkInt2 4 4)))) = 0.5.
Proof.
  apply (Histogram2_AutoExposure_mass f3x (fun _ => mkFloat4 (splat3 1) 1)
           (mkDim2 1 1) (mkDim2 8 8) (mkInt2 4 4) (launch (mkDim2 1 1) (mkDim2 8 8))).
  - apply Permutation_refl.
  - simpl. lia.
  - simpl. lia.
  - intros idx _. simpl. lra.
Defined.

End Histogram2Facts.

(** ** More on auto exposure *)

Module ExposureFacts.
Import AutoExposure AutoExposureFacts.

(** What the kernel leaves in exposure[0]: the exposure value of the
    smoothed average luminance it leaves in exposure[1]. *)
Lemma AutoExposure_EV exposure histogram area deltaTime :
  length exposure = 4%nat ->
  nth 0 (AutoExposure exposure histogram area deltaTime) 0
  = 7.0 * (1.03 - 2.0 / (log10f (nth 1 (AutoExposure exposure histogram area deltaTime) 0
                                  + 1.0) + 2.0))
    / nth 1 (AutoExposure exposure histogram area deltaTime) 0.
Proof.
  intros Hlen.
  destruct exposure as [|e0 [|e1 [|e2 [|e3 [|]]]]]; try discriminate Hlen.
  reflexivity.
Qed.

Lemma log10f_pos x : 1 < x -> 0 < log10f x.
Proof.
  intros Hx. unfold log10f.
  assert (0 < ln x) by (rewrite <- ln_1; apply ln_increasing; lra).
  assert (0 < ln 10) by (rewrite <- ln_1; apply ln_increasing; lra).
  apply Rdiv_lt_0_compat; assumption.
Qed.

(** The exposure value of a luminance in [0.1, 10]. *)
Lemma EV_range l :
  0.1 <= l <= 10 ->
  0.021 < 7.0 * (1.03 - 2.0 / (log10f (l + 1.0) + 2.0)) / l < 72.1.
Proof.
  intros Hl. pose proof (log10f_pos (l + 1.0) ltac:(lra)) as Hlog.
  set (g := log10f (l + 1.0)) in *.
  assert (Hq : 0 < 2.0 / (g + 2.0) < 1).
  { split.
    - apply Rdiv_lt_0_compat; lra.
    - apply Rmult_lt_reg_r with (g + 2.0); [lra|].
      unfold Rdiv. rewrite Rmult_assoc, Rinv_l by lra. lra. }
  set (q := 2.0 / (g + 2.0)) in *.
  assert (Hinv : / 10 <= / l <= / 0.1).
  { split; apply Rinv_le_contravar; lra. }
  assert (H10 : / 0.1 = 10) by lra.
  assert (H01 : / 10 = 0.1) by lra.
  rewrite H10, H01 in Hinv.
  unfold Rdiv. set (r := / l) in *. nra.
Qed.

(** X6. For a histogram of counts that are not negative over a positive
    area whose cumulative mass crosses the dark threshold (so that the
    average luminance is a quotient by a positive mass): when the
    stored average luminance is within [0.1, 10] and the delta-time is
    not negative, the accepted mass is positive and the exposure value
    the kernel writes to exposure[0] is positive (above 0.021) and
    below 72.1: the division by the smoothed luminance and the
    compensation curve never give a zero, negative or unbounded
    exposure. *)
Theorem AutoExposure_EV_positive (exposure : list R) (histogram : list Z)
  (area deltaTime : R) :
  length exposure = 4%nat ->
  0 < area ->
  (forall j, (0 <= nth j histogram 0)%Z) ->
  (i (dark_scan histogram area) < 64)%nat ->
  0 <= deltaTime ->
  0.1 <= nth 1 exposure 0 <= 10 ->
  0 < lumiSumArea (scan_histogram histogram area) /\
  0.021 < nth 0 (AutoExposure exposure histogram area deltaTime) 0 < 72.1.
Proof.
  intros Hlen Harea Hpos Hdark Hdt H1.
  split; [apply scan_area_positive; assumption|].
  rewrite AutoExposure_EV by exact Hlen.
  apply EV_range.
  destruct (AutoExposure_cells exposure histogram area deltaTime Hlen) as [-> _].
  apply adapt_in_range; trivial. apply aveLum_range.
Qed.

Lemma AutoExposure_EV_positive_witness :
  0 < lumiSumArea (scan_histogram all_dark 100) /\
  0.021 < nth 0 (AutoExposure initExposureLum all_dark 100 16) 0 < 72.1.
Proof.
  apply (AutoExposure_EV_positive initExposureLum all_dark 100 16).
  - reflexivity.
  - lra.
  - exact (proj1 (proj2 all_dark_is_frame_histogram)).
  - rewrite dark_scan_all_dark. lia.
  - lra.
  - simpl; lra.
Defined.

(** Two steps of eye adaption towards the same target are one step
    over the sum of the times. *)
Lemma adapt_adapt l t d1 d2 : adapt (adapt l t d1) t d2 = adapt l t (d1 + d2).
Proof.
  unfold adapt, expf.
  replace (- (d1 + d2) * 0.001) with (- d1 * 0.001 + - d2 * 0.001) by lra.
  rewrite exp_plus. lra.
Qed.

Lemma adapt_0 l t : adapt l t 0 = l.
Proof.
  unfold adapt, expf. replace (- 0 * 0.001) with 0 by lra. rewrite exp_0. lra.
Qed.

(** The whole array after the kernel. *)
Lemma AutoExposure_array e0 e1 e2 e3 histogram area deltaTime :
  AutoExposure [e0; e1; e2; e3] histogram area deltaTime
  = [7.0 * (1.03 - 2.0 / (log10f (adapt e1 (aveLum (scan_histogram histogram area)) deltaTime
                                   + 1.0) + 2.0))
     / adapt e1 (aveLum (scan_histogram histogram area)) deltaTime;
     adapt e1 (aveLum (scan_histogram histogram area)) deltaTime;
     adapt e2 (brightLum (scan_histogram histogram area)) deltaTime;
     e3].
Proof. reflexivity. Qed.

(** X7. Eye adaption does not depend on the frame rate: running the
    kernel twice on the same histogram, with delta-times d1 and d2,
    leaves the same exposure array as running it once with d1 + d2. *)
Theorem AutoExposure_time_additive (exposure : list R) (histogram : list Z)
  (area d1 d2 : R) :
  length exposure = 4%nat ->
  AutoExposure (AutoExposure exposure histogram area d1) histogram area d2
  = AutoExposure exposure histogram area (d1 + d2).
Proof.
  intros Hlen.
  destruct exposure as [|e0 [|e1 [|e2 [|e3 [|]]]]]; try discriminate Hlen.
  rewrite (AutoExposure_array e0 e1 e2 e3 histogram area d1).
  rewrite !AutoExposure_array.
  rewrite !adapt_adapt. reflexivity.
Qed.

Lemma AutoExposure_time_additive_witness :
  AutoExposure (AutoExposure initExposureLum all_dark 100 16) all_dark 100 17
  = AutoExposure initExposureLum all_dark 100 (16 + 17).
Proof.
  apply (AutoExposure_time_additive initExposureLum all_dark 100 16 17).
  reflexivity.
Defined.

(** X8. For a histogram of counts that are not negative over a positive
    area whose cumulative mass crosses the dark threshold (so that the
    average luminance is a quotient by a positive mass): the accepted
    mass is positive, and with a delta-time of 0 the kernel leaves the
    stored average and bright luminances (and exposure[3]) as they are;
    only the exposure value is written anew. *)
Theorem AutoExposure_no_time (exposure : list R) (histogram : list Z) (area : R) :
  length exposure = 4%nat ->
  0 < area ->
  (forall j, (0 <= nth j histogram 0)%Z) ->
  (i (dark_scan histogram area) < 64)%nat ->
  0 < lumiSumArea (scan_histogram histogram area) /\
  nth 1 (AutoExposure exposure histogram area 0) 0 = nth 1 exposure 0 /\
  nth 2 (AutoExposure exposure histogram area 0) 0 = nth 2 exposure 0 /\
  nth 3 (AutoExposure exposure histogram area 0) 0 = nth 3 exposure 0.
Proof.
  intros Hlen Harea Hpos Hdark.
  split; [apply scan_area_positive; assumption|].
  destruct exposure as [|e0 [|e1 [|e2 [|e3 [|]]]]]; try discriminate Hlen.
  rewrite AutoExposure_array. cbn [nth]. rewrite !adapt_0. auto.
Qed.

Lemma AutoExposure_no_time_witness :
  0 < lumiSumArea (scan_histogram all_dark 100) /\
  nth 1 (AutoExposure initExposureLum all_dark 100 0) 0 = nth 1 initExposureLum 0 /\
  nth 2 (AutoExposure initExposureLum all_dark 100 0) 0 = nth 2 initExposureLum 0 /\
  nth 3 (AutoExposure initExposureLum all_dark 100 0) 0 = nth 3 initExposureLum 0.
Proof.
  apply (AutoExposure_no_time initExposureLum all_dark 100).
  - reflexivity.
  - lra.
  - exact (proj1 (proj2 all_dark_is_frame_histogram)).
  - rewrite dark_scan_all_dark. lia.
Defined.

(** On a histogram without counts neither scan finds its crossing. *)
Lemma dark_loop_empty histogram area n s :
  (forall j, nth j histogram 0%Z = 0%Z) -> accuHistArea s = 0 ->
  accuHistArea (dark_loop histogram area n s) = 0 /\
  brightLum (dark_loop histogram area n s) = brightLum s.
Proof.
  intros Hz. revert s; induction n as [|n IH]; intros s Ha; simpl; [auto|].
  rewrite Hz. destruct Rlt_dec as [Hlt | _].
  - unfold darkThreshold in Hlt. lra.
  - destruct (IH (mkScan (lumiSum s) (lumiSumArea s) (accuHistArea s + 0 / area)
                         (brightLum s) (S (i s)))) as [H1 H2]; [simpl; lra|].
    split; [exact H1 | exact H2].
Qed.

Lemma bright_loop_empty histogram area n s :
  (forall j, nth j histogram 0%Z = 0%Z) -> accuHistArea s = 0 ->
  brightLum (bright_loop histogram area n s) = brightLum s.
Proof.
  intros Hz. revert s; induction n as [|n IH]; intros s Ha; simpl; [auto|].
  rewrite Hz. destruct Rlt_dec as [Hlt | _].
  - unfold brightThreshold in Hlt. lra.
  - rewrite IH; [reflexivity | simpl; lra].
Qed.

Lemma scan_empty histogram area :
  (forall j, nth j histogram 0%Z = 0%Z) ->
  brightLum (scan_histogram histogram area) = 0.
Proof.
  intros Hz. rewrite scan_histogram_eq.
  assert (H : accuHistArea (dark_scan histogram area) = 0 /\
              brightLum (dark_scan histogram area) = 0).
  { unfold dark_scan. apply (dark_loop_empty histogram area 64 (mkScan 0 0 0 0 0) Hz).
    reflexivity. }
  revert H. generalize (dark_scan histogram area). intros s1 [Ha Hb].
  rewrite bright_loop_empty; trivial.
Qed.

(** X9. On a histogram without counts (no pixel was counted) neither
    scan finds its crossing, the instantaneous bright luminance is 0,
    and the stored bright luminance is multiplied by
    exp(-deltaTime * 0.001): it decays towards 0. *)
Theorem AutoExposure_empty_histogram (exposure : list R) (histogram : list Z)
  (area deltaTime : R) :
  length exposure = 4%nat -> 0 < area ->
  (forall j, nth j histogram 0%Z = 0%Z) ->
  nth 2 (AutoExposure exposure histogram area deltaTime) 0
  = nth 2 exposure 0 * expf (- deltaTime * 0.001).
Proof.
  intros Hlen _ Hz.
  destruct (AutoExposure_cells exposure histogram area deltaTime Hlen) as [_ ->].
  rewrite scan_empty by exact Hz. unfold adapt. lra.
Qed.

Lemma AutoExposure_empty_histogram_witness :
  nth 2 (AutoExposure initExposureLum (repeat 0%Z 64) 100 16) 0
  = nth 2 initExposureLum 0 * expf (- 16 * 0.001).
Proof.
  apply (AutoExposure_empty_histogram initExposureLum (repeat 0%Z 64) 100 16).
  - reflexivity.
  - lra.
  - intros j. destruct (nth_in_or_default j (repeat 0%Z 64) 0%Z) as [Hin | ->]; [|reflexivity].
    apply repeat_spec in Hin. exact Hin.
Defined.

End ExposureFacts.

(** ** The tile of the median filter *)

Module MedianTileFacts.
Import MedianFilterData.
Import Sort9 Sort9Facts MedianFilter MedianFilterFacts.

(** The tile cell of position (j, i) of a thread's window is loaded at
    the texel at offset (j - 1, i - 1) from the thread's pixel. *)
Lemma cell_coord_window bx by_ tx ty i j :
  (tx < 8)%nat -> (j < 3)%nat ->
  cell_coord bx by_ (tx + j + (ty + i) * ldsBlockdim)
  = mkInt2 (Z.of_nat (tx + bx * blockdim) + (Z.of_nat j - 1))
           (Z.of_nat (ty + by_ * blockdim) + (Z.of_nat i - 1)).
Proof.
  intros Htx Hj. unfold cell_coord, ldsBlockdim, ldsAccessOffset, blockdim.
  rewrite Nat.Div0.mod_add, Nat.div_add by lia.
  rewrite Nat.mod_small, Nat.div_small by lia.
  f_equal; lia.
Qed.

(** X10. After the barrier, whatever the shared array held before, the
    cell at position (j, i) of the 3x3 window of thread (tx, ty) holds
    the sample loaded at the texel at offset (j - 1, i - 1) from the
    thread's own pixel; with i = j = 1, the centre cell holds the
    thread's own pixel.  The two loads per thread fill the whole halo. *)
Theorem window_is_neighbourhood DecodeNormal colorBuffer normalDepthBuffer
  (bx by_ : nat) (sharedBuffer : list LDS) (tx ty i j : nat) :
  length sharedBuffer = 100%nat ->
  (tx < 8)%nat -> (ty < 8)%nat -> (i < 3)%nat -> (j < 3)%nat ->
  nth (tx + j + (ty + i) * ldsBlockdim)
      (tile_at_barrier DecodeNormal colorBuffer normalDepthBuffer bx by_ sharedBuffer)
      dummyLDS
  = global_load DecodeNormal colorBuffer normalDepthBuffer
      (mkInt2 (Z.of_nat (tx + bx * blockdim) + (Z.of_nat j - 1))
              (Z.of_nat (ty + by_ * blockdim) + (Z.of_nat i - 1))).
Proof.
  intros Hlen Htx Hty Hi Hj.
  rewrite tile_at_barrier_cells by exact Hlen.
  rewrite nth_map_seq by (unfold ldsBlockdim; lia).
  rewrite cell_coord_window by assumption. reflexivity.
Qed.

Lemma window_is_neighbourhood_witness :
  nth (3 + 0 + (5 + 2) * ldsBlockdim)
      (tile_at_barrier (fun _ => splat3 0) (fun _ => mkFloat3Ushort1 (splat3 1) 0%Z)
                       (fun _ => mkFloat2 0 1) 2 1 (repeat dummyLDS 100))
      dummyLDS
  = global_load (fun _ => splat3 0) (fun _ => mkFloat3Ushort1 (splat3 1) 0%Z)
      (fun _ => mkFloat2 0 1)
      (mkInt2 (Z.of_nat (3 + 2 * blockdim) + (Z.of_nat 0 - 1))
              (Z.of_nat (5 + 1 * blockdim) + (Z.of_nat 2 - 1))).
Proof.
  apply (window_is_neighbourhood (fun _ => splat3 0)
           (fun _ => mkFloat3Ushort1 (splat3 1) 0%Z) (fun _ => mkFloat2 0 1)
           2 1 (repeat dummyLDS 100) 3 5 2 0); [reflexivity | lia | lia | lia | lia].
Defined.

(** Samples that agree in normal, depth and mask blend with weight 1. *)
Lemma blend_weight_same center median :
  normal center = normal median -> depth center = depth median ->
  mask center = mask median ->
  blend_weight center median = 1.
Proof.
  intros Hn Hd Hm. unfold blend_weight. rewrite Hn, Hd, Hm, Z.eqb_refl.
  unfold dot3, sub3, min1f, expf. cbn [f3x f3y f3z].
  replace (- ((f3x (normal median) - f3x (normal median))
              * (f3x (normal median) - f3x (normal median))
              + (f3y (normal median) - f3y (normal median))
                * (f3y (normal median) - f3y (normal median))
              + (f3z (normal median) - f3z (normal median))
                * (f3z (normal median) - f3z (normal median))) / 0.1) with 0 by lra.
  replace (- ((depth median - depth median) * (depth median - depth median)) / 0.1)
    with 0 by lra.
  replace (- 0 / 0.1) with 0 by lra.
  rewrite exp_0. unfold Rmin. destruct Rle_dec; lra.
Qed.

Lemma final_blend_same c w : final_blend c c w = c.
Proof.
  rewrite final_blend_formula. destruct c as [x y z].
  unfold add3, scale3, sub3; simpl. f_equal; lra.
Qed.

(** On a tile whose hundred cells hold the same sample, a thread
    inside the image whose depth is a hit stores that sample's colour
    and mask. *)
Lemma filter_pixel_uniform GetLuma RayMax (s : LDS) sb size bx by_ tx ty :
  (forall k, (k < 100)%nat -> nth k sb dummyLDS = s) ->
  (tx < 8)%nat -> (ty < 8)%nat ->
  outside (mkInt2 (Z.of_nat (tx + bx * blockdim)) (Z.of_nat (ty + by_ * blockdim))) size
  = false ->
  depth s < RayMax ->
  filter_pixel GetLuma RayMax sb size bx by_ tx ty
  = Some (mkInt2 (Z.of_nat (tx + bx * blockdim)) (Z.of_nat (ty + by_ * blockdim)),
          mkFloat3Ushort1 (color s) (mask s)).
Proof.
  intros Hall Htx Hty Hout Hdepth. unfold filter_pixel.
  unfold outside in Hout. cbn [i2x i2y] in Hout. rewrite Hout.
  rewrite Hall by (unfold ldsAccessOffset, ldsBlockdim; lia).
  destruct Rle_dec as [Hle | _]; [lra|].
  assert (Hmed : median_sample GetLuma sb tx ty = s).
  { unfold median_sample. apply Hall.
    pose proof (medianColorIdx_range GetLuma sb tx ty). lia. }
  rewrite Hmed, blend_weight_same, final_blend_same by reflexivity.
  reflexivity.
Qed.

(** X11. On surfaces that hold the same texel and the same normal and
    depth everywhere, a thread inside the image whose depth is a hit
    stores the texel it read, colour and mask: the filter leaves a
    uniform image as it is. *)
Theorem MedianFilter_uniform_image (GetLuma : Float3 -> R) DecodeNormal (RayMax : R)
  (texel : Float3Ushort1) (normalAndDepth : Float2) (size : Int2)
  (bx by_ : nat) (sharedBuffer : list LDS) (tx ty : nat) :
  length sharedBuffer = 100%nat ->
  (tx < 8)%nat -> (ty < 8)%nat ->
  outside (mkInt2 (Z.of_nat (tx + bx * blockdim)) (Z.of_nat (ty + by_ * blockdim))) size
  = false ->
  f2y normalAndDepth < RayMax ->
  filter_pixel GetLuma RayMax
    (tile_at_barrier DecodeNormal (fun _ => texel) (fun _ => normalAndDepth)
                     bx by_ sharedBuffer)
    size bx by_ tx ty
  = Some (mkInt2 (Z.of_nat (tx + bx * blockdim)) (Z.of_nat (ty + by_ * blockdim)), texel).
Proof.
  intros Hlen Htx Hty Hout Hdepth.
  rewrite tile_at_barrier_cells by exact Hlen.
  rewrite (filter_pixel_uniform GetLuma RayMax
             (global_load DecodeNormal (fun _ => texel) (fun _ => normalAndDepth)
                          (mkInt2 0 0))); trivial.
  - destruct texel; reflexivity.
  - intros k Hk. rewrite nth_map_seq by exact Hk. reflexivity.
Qed.

Lemma MedianFilter_uniform_image_witness :
  filter_pixel luma709 1000
    (tile_at_barrier (fun _ => splat3 0) (fun _ => mkFloat3Ushort1 (splat3 1) 7%Z)
                     (fun _ => mkFloat2 0 1) 2 1 (repeat dummyLDS 100))
    (mkInt2 100 100) 2 1 3 5
  = Some (mkInt2 (Z.of_nat (3 + 2 * blockdim)) (Z.of_nat (5 + 1 * blockdim)),
          mkFloat3Ushort1 (splat3 1) 7%Z).
Proof.
  apply (MedianFilter_uniform_image luma709 (fun _ => splat3 0) 1000
           (mkFloat3Ushort1 (splat3 1) 7%Z) (mkFloat2 0 1) (mkInt2 100 100)
           2 1 (repeat dummyLDS 100) 3 5);
    [reflexivity | lia | lia | reflexivity | simpl; lra].
Defined.

(** With a mask mismatch the third factor is exp(-10). *)
Lemma blend_weight_mask_mismatch center median :
  mask center <> mask median ->
  0 < blend_weight center median <= exp (Ropp 10).
Proof.
  intros Hm. pose proof (blend_weight_range center median) as Hr.
  split; [lra|]. unfold blend_weight.
  apply Z.eqb_neq in Hm. rewrite Hm.
  pose proof (falloff_range (- dot3 (sub3 (normal center) (normal median))
                                 (sub3 (normal center) (normal median)) / 0.1)) as Ha.
  pose proof (falloff_range (- ((depth center - depth median)
                                * (depth center - depth median)) / 0.1)) as Hb.
  set (a := min1f _ 1) in *. set (b := min1f (expf (- ((depth center - depth median)
                                * (depth center - depth median)) / 0.1)) 1) in *.
  assert (Hc : min1f (expf (Ropp 1 / 0.1)) 1 = exp (Ropp 10)).
  { unfold min1f, expf. replace (Ropp 1 / 0.1) with (Ropp 10) by lra.
    assert (exp (Ropp 10) < 1).
    { rewrite <- exp_0. apply exp_increasing. lra. }
    unfold Rmin. destruct Rle_dec; lra. }
  rewrite Hc. pose proof (exp_pos (Ropp 10)).
  assert (0 < 1 * a * b <= 1) by nra. nra.
Qed.

(** X12. When the material mask of the centre differs from that of
    the candidate sample, the blend weight is at most exp(-10), and the
    colour stored is centre + t * (candidate - centre) with t above 1/2
    and at most 1/2 + exp(-10)/2: across a material edge the filter
    still moves the pixel half of the way to the candidate. *)
Theorem filter_pixel_across_materials (GetLuma : Float3 -> R) (RayMax : R)
  (sb : list LDS) (size : Int2) (bx by_ tx ty : nat) (where_ : Int2)
  (texel : Float3Ushort1) :
  filter_pixel GetLuma RayMax sb size bx by_ tx ty = Some (where_, texel) ->
  mask (nth (tx + ldsAccessOffset + (ty + ldsAccessOffset) * ldsBlockdim) sb dummyLDS)
  <> mask (median_sample GetLuma sb tx ty) ->
  exists t, 1 / 2 < t <= 1 / 2 + exp (Ropp 10) / 2 /\
    xyz texel
    = add3 (color (nth (tx + ldsAccessOffset + (ty + ldsAccessOffset) * ldsBlockdim)
                       sb dummyLDS))
           (scale3 (sub3 (color (median_sample GetLuma sb tx ty))
                         (color (nth (tx + ldsAccessOffset
                                      + (ty + ldsAccessOffset) * ldsBlockdim) sb dummyLDS)))
                   t).
Proof.
  unfold filter_pixel.
  destruct (_ || _)%bool; [discriminate|].
  destruct Rle_dec; [discriminate|].
  set (center := nth _ sb dummyLDS).
  set (median := median_sample GetLuma sb tx ty).
  intros H Hm; injection H as _ <-.
  pose proof (blend_weight_mask_mismatch center median Hm) as Hw.
  exists ((1 + blend_weight center median) / 2). split; [lra|].
  unfold isnan; simpl.
  apply final_blend_formula.
Qed.

(** Thread (4,0) on the tile whose cell 4 is a bright sample of another
    material. *)
Lemma outlier_of_other_material :
  filter_pixel luma709 1000 (tile_outlier_at_4 (grey_sample 1) (other_material 1000))
               (mkInt2 100 100) 0 0 4 0
  = Some (mkInt2 4 0,
          mkFloat3Ushort1
            (final_blend (splat3 1) (splat3 1000)
               (blend_weight (grey_sample 1) (other_material 1000))) 0%Z)
  /\ median_sample luma709 (tile_outlier_at_4 (grey_sample 1) (other_material 1000)) 4 0
     = other_material 1000.
Proof.
  assert (Hmed : median_sample luma709
                   (tile_outlier_at_4 (grey_sample 1) (other_material 1000)) 4 0
                 = other_material 1000).
  { unfold median_sample, medianColorIdx.
    rewrite (outlier_tile_sorted luma709 (grey_sample 1) (other_material 1000))
      by (unfold luma709; simpl; lra).
    reflexivity. }
  split; [|exact Hmed].
  unfold filter_pixel. rewrite Hmed.
  change (nth (4 + ldsAccessOffset + (0 + ldsAccessOffset) * ldsBlockdim)
              (tile_outlier_at_4 (grey_sample 1) (other_material 1000)) dummyLDS)
    with (grey_sample 1).
  cbn [orb Z.geb Z.compare Z.of_nat i2x i2y Nat.add Nat.mul blockdim Pos.compare
       Pos.compare_cont Pos.of_succ_nat Pos.succ].
  destruct Rle_dec as [Hle | _]; [simpl in Hle; lra|].
  reflexivity.
Qed.

Lemma filter_pixel_across_materials_witness :
  exists t, 1 / 2 < t <= 1 / 2 + exp (Ropp 10) / 2 /\
    xyz (mkFloat3Ushort1
           (final_blend (splat3 1) (splat3 1000)
              (blend_weight (grey_sample 1) (other_material 1000))) 0%Z)
    = add3 (color (nth (4 + ldsAccessOffset + (0 + ldsAccessOffset) * ldsBlockdim)
                       (tile_outlier_at_4 (grey_sample 1) (other_material 1000)) dummyLDS))
           (scale3 (sub3 (color (median_sample luma709
                                   (tile_outlier_at_4 (grey_sample 1) (other_material 1000))
                                   4 0))
                         (color (nth (4 + ldsAccessOffset
                                      + (0 + ldsAccessOffset) * ldsBlockdim)
                                   (tile_outlier_at_4 (grey_sample 1) (other_material 1000))
                                   dummyLDS)))
                   t).
Proof.
  apply (filter_pixel_across_materials luma709 1000
           (tile_outlier_at_4 (grey_sample 1) (other_material 1000))
           (mkInt2 100 100) 0 0 4 0 (mkInt2 4 0)).
  - exact (proj1 outlier_of_other_material).
  - rewrite (proj2 outlier_of_other_material). simpl. lia.
Defined.

End MedianTileFacts.

(** ** The shared arrays of the tile kernels *)

Module SharedTileFacts.
Import Trace TraceFacts SharedTile.

Lemma block_spec n t : In t (block n) -> (dx t < n)%nat /\ (dy t < n)%nat.
Proof.
  unfold block. intros H. apply in_flat_map in H as (y & Hy & H).
  apply in_map_iff in H as (x & <- & Hx). apply in_seq in Hx, Hy. simpl. lia.
Qed.

Lemma block_In n x y : (x < n)%nat -> (y < n)%nat -> In (mkDim2 x y) (block n).
Proof.
  intros Hx Hy. unfold block. apply in_flat_map. exists y. split; [apply in_seq; lia|].
  apply in_map_iff. exists x. split; [reflexivity | apply in_seq; lia].
Qed.

Lemma within_cell2 n x y : (x < n)%nat -> (y < n)%nat -> within n (cell2 n x y).
Proof. intros; exists x, y; auto. Qed.

Lemma even_below_8 x : (x < 8)%nat -> (x mod 2 =? 0)%nat = true -> (x + 1 < 8)%nat.
Proof. intros H. do 8 (destruct x as [|x]; [simpl; try discriminate; lia|]). lia. Qed.

Lemma fourth_below_8 x : (x < 8)%nat -> (x mod 4 =? 0)%nat = true -> (x + 2 < 8)%nat.
Proof. intros H. do 8 (destruct x as [|x]; [simpl; try discriminate; lia|]). lia. Qed.

Lemma DownScale4_cells size blockIdx t e c :
  In t (block 8) -> In e (DownScale4 size blockIdx (mkDim2 8 8) t) ->
  shared_cell e = Some c -> within 8 c.
Proof.
  intros Ht Hin Hc. apply block_spec in Ht as [Hx Hy].
  unfold DownScale4 in Hin. cbv zeta in Hin.
  apply in_app_or in Hin as [Hin | Hin]; [|apply in_app_or in Hin as [Hin | Hin]].
  - simpl in Hin. destruct Hin as [<- | [<- | []]]; [discriminate|].
    injection Hc as <-. apply within_cell2; assumption.
  - destruct (dx t mod 2 =? 0)%nat eqn:Ex; [|contradiction].
    destruct (dy t mod 2 =? 0)%nat eqn:Ey; [|contradiction].
    pose proof (even_below_8 _ Hx Ex). pose proof (even_below_8 _ Hy Ey).
    simpl in Hin.
    repeat (destruct Hin as [<- | Hin];
            [injection Hc as <-; apply within_cell2; lia|]).
    contradiction.
  - destruct (dx t mod 4 =? 0)%nat eqn:Ex; [|contradiction].
    destruct (dy t mod 4 =? 0)%nat eqn:Ey; [|contradiction].
    pose proof (fourth_below_8 _ Hx Ex). pose proof (fourth_below_8 _ Hy Ey).
    simpl in Hin.
    repeat (destruct Hin as [<- | Hin];
            [first [discriminate Hc | injection Hc as <-; apply within_cell2; lia]|]).
    contradiction.
Qed.

(** The threads of BloomGuassian that go on after the border test. *)
Lemma interior_spec tx ty :
  ((tx <? 2) || (ty <? 2) || (13 <? tx) || (13 <? ty))%nat = false ->
  (2 <= tx <= 13)%nat /\ (2 <= ty <= 13)%nat.
Proof.
  intros H. repeat (apply orb_false_elim in H as [H ?]).
  repeat match goal with H : (_ <? _)%nat = false |- _ => apply Nat.ltb_ge in H end. lia.
Qed.

Lemma BloomGuassian_cells size blockIdx t e c :
  In t (block 16) -> In e (BloomGuassian size blockIdx t) ->
  shared_cell e = Some c -> within 16 c.
Proof.
  intros Ht Hin Hc. apply block_spec in Ht as [Hx Hy].
  unfold BloomGuassian in Hin. cbv zeta in Hin.
  apply in_app_or in Hin as [Hin | Hin].
  - simpl in Hin. destruct Hin as [<- | [<- | []]]; [discriminate|].
    injection Hc as <-. apply within_cell2; assumption.
  - destruct (_ || _)%bool eqn:Hb; [contradiction|].
    apply interior_spec in Hb as [Hbx Hby].
    destruct Hin as [<- | Hin]; [discriminate|].
    apply in_app_or in Hin as [Hin | Hin].
    + apply in_map_iff in Hin as (i & <- & Hi). apply in_seq in Hi.
      cbn [shared_cell] in Hc. assert (Hc' : c = cell2 16 (dx t + i mod 5 - 2) (dy t + i / 5 - 2))
        by congruence. rewrite Hc'. clear Hc Hc'.
      pose proof (Nat.mod_upper_bound i 5 ltac:(lia)).
      assert (i / 5 < 5)%nat by (apply Nat.Div0.div_lt_upper_bound; lia).
      apply within_cell2; lia.
    + destruct Hin as [<- | []]. discriminate.
Qed.

Lemma window_cells_bound tx ty c :
  (tx < 8)%nat -> (ty < 8)%nat -> In c (MedianFilter.window_cells tx ty) -> (c < 100)%nat.
Proof.
  intros Hx Hy Hin. unfold MedianFilter.window_cells in Hin.
  apply in_flat_map in Hin as (i & Hi & Hin).
  apply in_map_iff in Hin as (j & <- & Hj).
  apply in_seq in Hi, Hj. unfold MedianFilter.kernelDim, MedianFilter.ldsBlockdim in *. lia.
Qed.

Lemma MedianFilter_cells GetLuma RayMax sb size blockIdx t e c :
  In t (block 8) -> In e (MedianFilter GetLuma RayMax sb size blockIdx t) ->
  shared_cell e = Some c -> (c < 100)%nat.
Proof.
  intros Ht Hin Hc. apply block_spec in Ht as [Hx Hy].
  unfold MedianFilter in Hin. cbv zeta in Hin.
  unfold MedianFilter.blockdim, MedianFilter.ldsBlockdim, MedianFilter.ldsAccessOffset in Hin.
  repeat (apply in_app_or in Hin; destruct Hin as [Hin | Hin]).
  - simpl in Hin. destruct Hin as [<- | [<- | [<- | []]]]; try discriminate.
    injection Hc as <-. lia.
  - destruct (Nat.ltb_spec (dx t + dy t * 8 + 8 * 8) (10 * 10)); [|contradiction].
    simpl in Hin. destruct Hin as [<- | [<- | [<- | []]]]; try discriminate.
    injection Hc as <-. lia.
  - destruct Hin as [<- | []]. discriminate.
  - destruct (outside _ size); [contradiction|].
    destruct Hin as [<- | Hin]; [injection Hc as <-; lia|].
    destruct Rle_dec; [contradiction|].
    repeat (apply in_app_or in Hin; destruct Hin as [Hin | Hin]).
    + apply in_map_iff in Hin as (c' & <- & Hin). injection Hc as <-.
      apply (window_cells_bound (dx t) (dy t)); assumption.
    + apply repeat_spec in Hin. subst e. injection Hc as <-.
      pose proof (MedianFilterFacts.medianColorIdx_range GetLuma sb (dx t) (dy t)). lia.
    + destruct Hin as [<- | []]. discriminate.
Qed.

(** X14. No thread of a block subscripts the shared array of its kernel
    out of range: every cell DownScale4 reads or writes is
    sharedBuffer[x][y] with x, y below 8, every cell of BloomGuassian
    is sharedBuffer[x][y] with x, y below 16, and every cell of
    MedianFilter, the candidate's included, is below 100. *)
Theorem shared_subscripts_in_range :
  (forall size blockIdx t e c,
     In t (block 8) -> In e (DownScale4 size blockIdx (mkDim2 8 8) t) ->
     shared_cell e = Some c -> within 8 c) /\
  (forall size blockIdx t e c,
     In t (block 16) -> In e (BloomGuassian size blockIdx t) ->
     shared_cell e = Some c -> within 16 c) /\
  (forall GetLuma RayMax sharedBuffer size blockIdx t e c,
     In t (block 8) -> In e (MedianFilter GetLuma RayMax sharedBuffer size blockIdx t) ->
     shared_cell e = Some c -> (c < 100)%nat).
Proof.
  split; [exact DownScale4_cells|]. split; [exact BloomGuassian_cells|].
  exact MedianFilter_cells.
Qed.

(** *** The barrier of BloomGuassian *)

Lemma BloomGuassian_phases size blockIdx t k e :
  In (k, e) (phases 0 (BloomGuassian size blockIdx t)) ->
  (forall c, e = SharedStore c -> k = 0%nat) /\ (forall c, e = SharedLoad c -> k = 1%nat).
Proof.
  unfold BloomGuassian. cbv zeta.
  destruct (_ || _)%bool.
  - simpl. intros [H | [H | []]]; injection H as <- <-; split; intros; congruence.
  - cbn [app phases]. rewrite phases_no_sync.
    2:{ reflexivity. }
    intros [H | [H | H]].
    + injection H as <- <-; split; intros; congruence.
    + injection H as <- <-; split; intros; congruence.
    + apply in_map_iff in H as (e' & H & Hin). injection H as <- <-.
      split; [|reflexivity].
      intros c ->. apply in_app_or in Hin as [Hin | [Hin | []]]; [|discriminate].
      apply in_map_iff in Hin as (? & ? & _). discriminate.
Qed.

(** X15. In BloomGuassian every store to the shared tile comes before
    the barrier and every load of it after: a store by one thread and a
    load by another are separated.  But the barrier is not executed by
    all threads of the block: the threads of the two-texel border
    return before it. *)
Theorem BloomGuassian_barrier (size : Int2) (blockIdx : dim2) :
  barrier_separated (block 16) (BloomGuassian size blockIdx) /\
  ~ barriers_by_all (block 16) (BloomGuassian size blockIdx).
Proof.
  split.
  - intros t1 t2 c k1 k2 _ _ _ Hst Hld.
    apply BloomGuassian_phases in Hst as [Hst _].
    apply BloomGuassian_phases in Hld as [_ Hld].
    rewrite (Hst c eq_refl), (Hld c eq_refl). lia.
  - apply BloomGuassian_border_skips_barrier.
Qed.

(** *** Which thread writes which texel *)

Lemma BloomGuassian_store size blockIdx t b c :
  In (Store b c) (BloomGuassian size blockIdx t) ->
  (2 <= dx t <= 13)%nat /\ (2 <= dy t <= 13)%nat /\ b = outBuffer /\
  c = mkInt2 (Z.of_nat (dx blockIdx * 12 + dx t) - 2)
             (Z.of_nat (dy blockIdx * 12 + dy t) - 2).
Proof.
  unfold BloomGuassian. cbv zeta. intros Hin.
  apply in_app_or in Hin as [Hin | Hin].
  - simpl in Hin. destruct Hin as [H | [H | []]]; discriminate H.
  - destruct (_ || _)%bool eqn:Hb; [contradiction|].
    apply interior_spec in Hb as [Hbx Hby].
    destruct Hin as [H | Hin]; [discriminate H|].
    apply in_app_or in Hin as [Hin | [Hin | []]].
    + apply in_map_iff in Hin as (? & ? & _). discriminate.
    + injection Hin as <- <-. auto.
Qed.

(** X16. The 12 x 12 output tiles of BloomGuassian cover the plane
    without overlap: the texel (px, py) is stored by thread
    (px mod 12 + 2, py mod 12 + 2) of block (px / 12, py / 12), and two
    threads that store to the same texel are the same thread of the
    same block. *)
Theorem BloomGuassian_one_thread_per_texel (size : Int2) :
  (forall px py : nat,
     In (mkDim2 (px mod 12 + 2) (py mod 12 + 2)) (block 16) /\
     In (Store outBuffer (mkInt2 (Z.of_nat px) (Z.of_nat py)))
        (BloomGuassian size (mkDim2 (px / 12) (py / 12))
                       (mkDim2 (px mod 12 + 2) (py mod 12 + 2)))) /\
  (forall b1 t1 b2 t2 c,
     In (Store outBuffer c) (BloomGuassian size b1 t1) ->
     In (Store outBuffer c) (BloomGuassian size b2 t2) ->
     b1 = b2 /\ t1 = t2).
Proof.
  split.
  - intros px py.
    pose proof (Nat.mod_upper_bound px 12 ltac:(lia)) as Hx.
    pose proof (Nat.mod_upper_bound py 12 ltac:(lia)) as Hy.
    split; [apply block_In; lia|].
    unfold BloomGuassian. cbv zeta. cbn [dx dy].
    apply in_or_app. right.
    replace ((px mod 12 + 2 <? 2) || (py mod 12 + 2 <? 2) || (13 <? px mod 12 + 2)
             || (13 <? py mod 12 + 2))%nat with false.
    2:{ symmetry. repeat (apply orb_false_intro); apply Nat.ltb_ge; lia. }
    right. apply in_or_app. right. left. f_equal.
    pose proof (Nat.div_mod_eq px 12). pose proof (Nat.div_mod_eq py 12).
    f_equal; lia.
  - intros b1 t1 b2 t2 c H1 H2.
    apply BloomGuassian_store in H1 as (Hx1 & Hy1 & _ & ->).
    apply BloomGuassian_store in H2 as (Hx2 & Hy2 & _ & E).
    injection E as Ex Ey.
    destruct b1 as [bx1 by1], t1 as [tx1 ty1], b2 as [bx2 by2], t2 as [tx2 ty2].
    cbn [dx dy] in *.
    assert (bx1 = bx2 /\ tx1 = tx2) as [-> ->] by lia.
    assert (by1 = by2 /\ ty1 = ty2) as [-> ->] by lia.
    auto.
Qed.

Lemma multiple_of_4_below_8 x :
  (x < 8)%nat -> (x mod 4 =? 0)%nat = true -> x = 0%nat \/ x = 4%nat.
Proof. intros H. do 8 (destruct x as [|x]; [simpl; try discriminate; auto|]). lia. Qed.

Lemma DownScale4_store size blockIdx t b c :
  In t (block 8) -> In (Store b c) (DownScale4 size blockIdx (mkDim2 8 8) t) ->
  (dx t = 0 \/ dx t = 4)%nat /\ (dy t = 0 \/ dy t = 4)%nat /\ b = OutBuffer /\
  c = mkInt2 (Z.of_nat (2 * dx blockIdx + dx t / 4)) (Z.of_nat (2 * dy blockIdx + dy t / 4)).
Proof.
  intros Ht Hin. apply block_spec in Ht as [Hx Hy].
  unfold DownScale4 in Hin. cbv zeta in Hin.
  apply in_app_or in Hin as [Hin | Hin]; [|apply in_app_or in Hin as [Hin | Hin]].
  - simpl in Hin. destruct Hin as [H | [H | []]]; discriminate H.
  - destruct (_ && _)%bool; [|contradiction]. simpl in Hin.
    repeat (destruct Hin as [H | Hin]; [discriminate H|]). contradiction.
  - destruct (dx t mod 4 =? 0)%nat eqn:Ex; [|contradiction].
    destruct (dy t mod 4 =? 0)%nat eqn:Ey; [|contradiction].
    apply multiple_of_4_below_8 in Ex, Ey; trivial.
    cbn [andb] in Hin.
    do 4 (destruct Hin as [H | Hin]; [discriminate H|]).
    destruct Hin as [H | []]. injection H as <- <-.
    split; [exact Ex|]. split; [exact Ey|]. split; [reflexivity|].
    unfold global_idx. cbn [i2x i2y dx dy].
    f_equal.
    + destruct Ex as [-> | ->]; cbn [Nat.div Nat.divmod fst];
        Z.quot_rem_to_equations; lia.
    + destruct Ey as [-> | ->]; cbn [Nat.div Nat.divmod fst];
        Z.quot_rem_to_equations; lia.
Qed.

(** X17. With blocks of 8 x 8 threads, the output texel (ox, oy) of
    DownScale4 is stored by thread (4 * (ox mod 2), 4 * (oy mod 2)) of
    block (ox / 2, oy / 2), and two threads that store to the same
    texel are the same thread of the same block: every texel of the
    quarter-resolution surface has one writer, which covers a 4 x 4
    group of input pixels. *)
Theorem DownScale4_one_thread_per_texel (size : Int2) :
  (forall ox oy : nat,
     In (mkDim2 (ox mod 2 * 4) (oy mod 2 * 4)) (block 8) /\
     In (Store OutBuffer (mkInt2 (Z.of_nat ox) (Z.of_nat oy)))
        (DownScale4 size (mkDim2 (ox / 2) (oy / 2)) (mkDim2 8 8)
                    (mkDim2 (ox mod 2 * 4) (oy mod 2 * 4)))) /\
  (forall b1 t1 b2 t2 c,
     In t1 (block 8) -> In t2 (block 8) ->
     In (Store OutBuffer c) (DownScale4 size b1 (mkDim2 8 8) t1) ->
     In (Store OutBuffer c) (DownScale4 size b2 (mkDim2 8 8) t2) ->
     b1 = b2 /\ t1 = t2).
Proof.
  split.
  - intros ox oy.
    pose proof (Nat.mod_upper_bound ox 2 ltac:(lia)) as Hx.
    pose proof (Nat.mod_upper_bound oy 2 ltac:(lia)) as Hy.
    split; [apply block_In; lia|].
    unfold DownScale4. cbv zeta. cbn [dx dy].
    apply in_or_app. right. apply in_or_app. right.
    replace (((ox mod 2 * 4) mod 4 =? 0) && ((oy mod 2 * 4) mod 4 =? 0))%nat with true.
    2:{ rewrite !Nat.Div0.mod_mul. reflexivity. }
    do 4 right. left. f_equal. unfold global_idx. cbn [i2x i2y dx dy].
    pose proof (Nat.div_mod_eq ox 2). pose proof (Nat.div_mod_eq oy 2).
    f_equal; Z.quot_rem_to_equations; lia.
  - intros b1 t1 b2 t2 c Ht1 Ht2 H1 H2.
    apply DownScale4_store in H1 as (Hx1 & Hy1 & _ & ->); trivial.
    apply DownScale4_store in H2 as (Hx2 & Hy2 & _ & E); trivial.
    injection E as Ex Ey.
    destruct b1 as [bx1 by1], t1 as [tx1 ty1], b2 as [bx2 by2], t2 as [tx2 ty2].
    cbn [dx dy] in *.
    assert (bx1 = bx2 /\ tx1 = tx2) as [-> ->].
    { destruct Hx1 as [-> | ->], Hx2 as [-> | ->];
        cbn [Nat.div Nat.divmod fst] in Ex; lia. }
    assert (by1 = by2 /\ ty1 = ty2) as [-> ->].
    { destruct Hy1 as [-> | ->], Hy2 as [-> | ->];
        cbn [Nat.div Nat.divmod fst] in Ey; lia. }
    auto.
Qed.

End SharedTileFacts.

(** ** Tone mapping *)

Module ToneMappingFacts.
Import ToneMapping.

Lemma Uncharted2Tonemap_channels x :
  Uncharted2Tonemap x = mkFloat3 (curve (f3x x)) (curve (f3y x)) (curve (f3z x)).
Proof. reflexivity. Qed.

Lemma div_le a b c d : 0 < b -> 0 < d -> a * d <= c * b -> a / b <= c / d.
Proof.
  intros Hb Hd H. apply (Rmult_le_reg_r (b * d)); [nra|].
  replace (a / b * (b * d)) with (a * d) by (field; lra).
  replace (c / d * (b * d)) with (c * b) by (field; lra).
  exact H.
Qed.

Lemma curve_0 : curve 0 = 0.
Proof. unfold curve. lra. Qed.

Lemma curve_monotone x y : 0 <= x -> x <= y -> curve x <= curve y.
Proof.
  intros Hx Hxy. unfold curve.
  apply Rplus_le_compat_r. apply div_le; try nra.
  assert (0 <= (y - x) * (0.0675 * x * y + 0.0084 * (x + y) + 0.001)).
  { apply Rmult_le_pos; [lra|]. assert (0 <= x * y) by nra. nra. }
  nra.
Qed.

Lemma curve_nonneg x : 0 <= x -> 0 <= curve x.
Proof. intros Hx. rewrite <- curve_0. apply curve_monotone; lra. Qed.

Lemma curve_W : 0.7 < curve 11.2 < 0.8.
Proof. unfold curve. lra. Qed.

(** X18. The filmic curve maps 0 to 0 and, on colours without negative
    components, is not negative and monotone on every component. *)
Theorem Uncharted2Tonemap_monotone (x y : Float3) :
  le3 (splat3 0) x -> le3 x y ->
  Uncharted2Tonemap (splat3 0) = splat3 0 /\
  le3 (splat3 0) (Uncharted2Tonemap x) /\
  le3 (Uncharted2Tonemap x) (Uncharted2Tonemap y).
Proof.
  intros (Hx & Hy & Hz) (Hxx & Hyy & Hzz). cbn [splat3 f3x f3y f3z] in *.
  rewrite !Uncharted2Tonemap_channels. cbn [splat3 f3x f3y f3z].
  rewrite curve_0. split; [reflexivity|].
  split; unfold le3; cbn [splat3 f3x f3y f3z];
    auto using curve_nonneg, curve_monotone.
Qed.

Lemma Uncharted2Tonemap_monotone_witness :
  Uncharted2Tonemap (splat3 0) = splat3 0 /\
  le3 (splat3 0) (Uncharted2Tonemap (splat3 1)) /\
  le3 (Uncharted2Tonemap (splat3 1)) (Uncharted2Tonemap (splat3 2)).
Proof.
  apply (Uncharted2Tonemap_monotone (splat3 1) (splat3 2));
    unfold le3; simpl; lra.
Defined.

Lemma ToneMapping_channels colorBuffer size exposure blockIdx blockDim threadIdx :
  outside (global_idx blockIdx blockDim threadIdx) size = false ->
  ToneMapping colorBuffer size exposure blockIdx blockDim threadIdx
  = Some (global_idx blockIdx blockDim threadIdx,
          mkFloat4
            (mkFloat3
               (tone (f3x (f4xyz (colorBuffer (global_idx blockIdx blockDim threadIdx))))
                     (nth 0 exposure 0))
               (tone (f3y (f4xyz (colorBuffer (global_idx blockIdx blockDim threadIdx))))
                     (nth 0 exposure 0))
               (tone (f3z (f4xyz (colorBuffer (global_idx blockIdx blockDim threadIdx))))
                     (nth 0 exposure 0)))
            1.0).
Proof. intros Hin. unfold ToneMapping. rewrite Hin. reflexivity. Qed.

Lemma powf_nonneg x y : 0 <= LensFlare.powf x y.
Proof.
  unfold LensFlare.powf. destruct Rlt_dec; [|lra].
  unfold Rpower. left. apply exp_pos.
Qed.

Lemma powf_monotone x x' y : 0 <= y -> x <= x' -> LensFlare.powf x y <= LensFlare.powf x' y.
Proof.
  intros Hy Hx. unfold LensFlare.powf.
  destruct (Rlt_dec 0 x), (Rlt_dec 0 x'); try lra.
  - apply Rle_Rpower_l; lra.
  - unfold Rpower. left. apply exp_pos.
Qed.

Lemma powf_base_1 y : LensFlare.powf 1 y = 1.
Proof.
  unfold LensFlare.powf. destruct Rlt_dec; [|lra].
  unfold Rpower. rewrite ln_1, Rmult_0_r. apply exp_0.
Qed.

Lemma tone_range c e : 0 <= tone c e <= 1.
Proof. unfold tone, Rmax, Rmin. repeat destruct Rle_dec; lra. Qed.

Lemma tone_monotone c e1 e2 : 0 <= c -> 0 <= e1 <= e2 -> tone c e1 <= tone c e2.
Proof.
  intros Hc He. unfold tone.
  assert (Hcurve : curve (2.0 * (c * e1)) <= curve (2.0 * (c * e2))).
  { apply curve_monotone; nra. }
  pose proof curve_W as HW.
  assert (Hs : 0 < 1.0 / curve 11.2).
  { apply Rdiv_lt_0_compat; lra. }
  assert (Hp : LensFlare.powf (curve (2.0 * (c * e1)) * (1.0 / curve 11.2)) (1.0 / 2.2)
               <= LensFlare.powf (curve (2.0 * (c * e2)) * (1.0 / curve 11.2)) (1.0 / 2.2)).
  { apply powf_monotone; [lra|]. apply Rmult_le_compat_r; lra. }
  unfold Rmax, Rmin. repeat destruct Rle_dec; lra.
Qed.

Lemma tone_white c e : 11.2 <= 2.0 * (c * e) -> tone c e = 1.
Proof.
  intros Hw. unfold tone. pose proof curve_W as HW.
  assert (Hcurve : curve 11.2 <= curve (2.0 * (c * e))) by (apply curve_monotone; lra).
  assert (H1 : 1 <= curve (2.0 * (c * e)) * (1.0 / curve 11.2)).
  { assert (E1 : curve 11.2 * (1.0 / curve 11.2) = 1).
    { replace (1.0 / curve 11.2) with (/ curve 11.2) by lra. apply Rinv_r. lra. }
    rewrite <- E1 at 1.
    apply Rmult_le_compat_r; [|exact Hcurve].
    left. apply Rdiv_lt_0_compat; lra. }
  pose proof (powf_monotone 1 _ (1.0 / 2.2) ltac:(lra) H1) as Hp.
  rewrite powf_base_1 in Hp.
  unfold Rmax, Rmin. repeat destruct Rle_dec; lra.
Qed.

(** X20. For a texel without negative components, the colour stored
    does not decrease, on any component, when the exposure value grows
    (between exposure values that are not negative). *)
Theorem ToneMapping_monotone_in_exposure (colorBuffer : Int2 -> Float4) (size : Int2)
  (exposure1 exposure2 : list R) (blockIdx blockDim threadIdx : dim2) :
  outside (global_idx blockIdx blockDim threadIdx) size = false ->
  le3 (splat3 0) (f4xyz (colorBuffer (global_idx blockIdx blockDim threadIdx))) ->
  0 <= nth 0 exposure1 0 <= nth 0 exposure2 0 ->
  exists c1 c2,
    ToneMapping colorBuffer size exposure1 blockIdx blockDim threadIdx
    = Some (global_idx blockIdx blockDim threadIdx, mkFloat4 c1 1.0) /\
    ToneMapping colorBuffer size exposure2 blockIdx blockDim threadIdx
    = Some (global_idx blockIdx blockDim threadIdx, mkFloat4 c2 1.0) /\
    le3 c1 c2.
Proof.
  intros Hin (Hx & Hy & Hz) He. cbn [splat3 f3x f3y f3z] in *.
  rewrite !ToneMapping_channels by exact Hin.
  eexists. eexists. split; [reflexivity|]. split; [reflexivity|].
  unfold le3; cbn [f3x f3y f3z]. auto using tone_monotone.
Qed.

(** X21. For a texel without negative components and an exposure value
    that is not negative, the colour raised to the power 1/2.2 has no
    negative component, every component of the colour stored is within
    [0, 1], and a texel whose components times the exposure value are
    at least 5.6 (so that the curve's argument reaches the white point
    11.2) is stored as white, (1, 1, 1). *)
Theorem ToneMapping_range_and_white (colorBuffer : Int2 -> Float4) (size : Int2)
  (exposure : list R) (blockIdx blockDim threadIdx : dim2) :
  outside (global_idx blockIdx blockDim threadIdx) size = false ->
  le3 (splat3 0) (f4xyz (colorBuffer (global_idx blockIdx blockDim threadIdx))) ->
  0 <= nth 0 exposure 0 ->
  le3 (splat3 0)
      (mul3 (Uncharted2Tonemap
               (smul3 2.0 (scale3 (f4xyz (colorBuffer (global_idx blockIdx blockDim threadIdx)))
                                  (nth 0 exposure 0))))
            (sdiv3 1.0 (Uncharted2Tonemap (splat3 11.2)))) /\
  exists c,
    ToneMapping colorBuffer size exposure blockIdx blockDim threadIdx
    = Some (global_idx blockIdx blockDim threadIdx, mkFloat4 c 1.0) /\
    le3 (splat3 0) c /\ le3 c (splat3 1) /\
    (le3 (splat3 5.6)
         (scale3 (f4xyz (colorBuffer (global_idx blockIdx blockDim threadIdx)))
                 (nth 0 exposure 0)) ->
     c = splat3 1).
Proof.
  intros Hin (Hx & Hy & Hz) He. cbn [splat3 f3x f3y f3z] in Hx, Hy, Hz.
  split.
  - rewrite !Uncharted2Tonemap_channels.
    unfold le3; cbn [splat3 mul3 sdiv3 smul3 scale3 f3x f3y f3z].
    pose proof curve_W as HW.
    assert (Hs : 0 < 1.0 / curve 11.2) by (apply Rdiv_lt_0_compat; lra).
    repeat split; apply Rmult_le_pos; try lra; apply curve_nonneg; nra.
  - rewrite ToneMapping_channels by exact Hin.
    eexists. split; [reflexivity|].
    unfold le3; cbn [splat3 scale3 f3x f3y f3z].
    repeat split; try apply tone_range.
    intros (Hx' & Hy' & Hz'). rewrite !tone_white by lra. reflexivity.
Qed.

Lemma ToneMapping_monotone_in_exposure_witness :
  exists c1 c2,
    ToneMapping (fun _ => mkFloat4 (splat3 0.5) 1) (mkInt2 4 4) [1; 1; 1; 0]
                (mkDim2 0 0) (mkDim2 8 8) (mkDim2 1 2)
    = Some (global_idx (mkDim2 0 0) (mkDim2 8 8) (mkDim2 1 2), mkFloat4 c1 1.0) /\
    ToneMapping (fun _ => mkFloat4 (splat3 0.5) 1) (mkInt2 4 4) [2; 1; 1; 0]
                (mkDim2 0 0) (mkDim2 8 8) (mkDim2 1 2)
    = Some (global_idx (mkDim2 0 0) (mkDim2 8 8) (mkDim2 1 2), mkFloat4 c2 1.0) /\
    le3 c1 c2.
Proof.
  apply (ToneMapping_monotone_in_exposure (fun _ => mkFloat4 (splat3 0.5) 1) (mkInt2 4 4)
           [1; 1; 1; 0] [2; 1; 1; 0] (mkDim2 0 0) (mkDim2 8 8) (mkDim2 1 2)).
  - reflexivity.
  - unfold le3; simpl; lra.
  - simpl; lra.
Defined.

Lemma ToneMapping_range_and_white_witness :
  le3 (splat3 0)
      (mul3 (Uncharted2Tonemap
               (smul3 2.0 (scale3 (f4xyz ((fun _ => mkFloat4 (splat3 6) 1)
                                            (global_idx (mkDim2 0 0) (mkDim2 8 8) (mkDim2 1 2))))
                                  (nth 0 [1; 1; 1; 0] 0))))
            (sdiv3 1.0 (Uncharted2Tonemap (splat3 11.2)))) /\
  exists c,
    ToneMapping (fun _ => mkFloat4 (splat3 6) 1) (mkInt2 4 4) [1; 1; 1; 0]
                (mkDim2 0 0) (mkDim2 8 8) (mkDim2 1 2)
    = Some (global_idx (mkDim2 0 0) (mkDim2 8 8) (mkDim2 1 2), mkFloat4 c 1.0) /\
    le3 (splat3 0) c /\ le3 c (splat3 1) /\
    (le3 (splat3 5.6)
         (scale3 (f4xyz ((fun _ => mkFloat4 (splat3 6) 1)
                           (global_idx (mkDim2 0 0) (mkDim2 8 8) (mkDim2 1 2))))
                 (nth 0 [1; 1; 1; 0] 0)) ->
     c = splat3 1).
Proof.
  apply (ToneMapping_range_and_white (fun _ => mkFloat4 (splat3 6) 1) (mkInt2 4 4)
           [1; 1; 1; 0] (mkDim2 0 0) (mkDim2 8 8) (mkDim2 1 2)).
  - reflexivity.
  - unfold le3; simpl; lra.
  - simpl; lra.
Defined.

End ToneMappingFacts.

(** ** Sharpening *)

Module SharpeningFilterFacts.
Import SharpeningFilter.

Lemma weight_sqrt a : weight a = - sqrt a / 5.
Proof.
  unfold weight, sharpness.
  replace (8.0 - 3.0 * 1.0) with 5 by lra. replace (Ropp 1.0) with (Ropp 1) by lra.
  destruct (Req_dec (sqrt a) 0) as [E | NE].
  - rewrite E. unfold Rdiv. rewrite Rinv_0. rewrite !Rmult_0_r, Rmult_0_l, Rinv_0. lra.
  - field. lra.
Qed.

Lemma weight_range a : 0 <= a <= 1 -> - 0.2 <= weight a <= 0.
Proof.
  intros Ha. rewrite weight_sqrt.
  pose proof (sqrt_pos a). assert (sqrt a <= 1).
  { rewrite <- sqrt_1. apply sqrt_le_1; lra. }
  lra.
Qed.

(** With a weight in [-0.2, 0] the result moves the centre away from
    the mean of the four neighbours, by at most four times their
    distance. *)
Lemma sharpened_gain c s w :
  - 0.2 <= w <= 0 ->
  exists g, 0 <= g <= 4 /\ sharpened c s w = c + g * (c - s / 4).
Proof.
  intros Hw. exists (- 4 * w / (1 + 4 * w)).
  assert (Hd : 0.2 <= 1 + 4 * w <= 1) by lra.
  split.
  - split.
    + apply Rmult_le_pos; [lra|]. left. apply Rinv_0_lt_compat. lra.
    + apply Rmult_le_reg_r with (1 + 4 * w); [lra|].
      unfold Rdiv. rewrite Rmult_assoc, Rinv_l by lra. lra.
  - unfold sharpened. replace (1.0 + 4.0 * w) with (1 + 4 * w) by lra. field. lra.
Qed.

Section Kernel.
Variable clamp3f : Float3 -> Float3.
Variables min3f max3f : Float3 -> Float3 -> Float3.

(** The kernel on its three channels. *)
Lemma SharpeningFilter_channels colorBuffer texSize blockIdx blockDim threadIdx :
  outside (global_idx blockIdx blockDim threadIdx) texSize = false ->
  exists a,
    SharpeningFilter clamp3f min3f max3f colorBuffer texSize blockIdx blockDim threadIdx
    = Some (global_idx blockIdx blockDim threadIdx,
            mkFloat4
              (mkFloat3
                 (sharpened
                    (f3x (texel_at colorBuffer (global_idx blockIdx blockDim threadIdx) 0 0))
                    (f3x (cross_sum colorBuffer (global_idx blockIdx blockDim threadIdx)))
                    (weight (f3x (clamp3f a))))
                 (sharpened
                    (f3y (texel_at colorBuffer (global_idx blockIdx blockDim threadIdx) 0 0))
                    (f3y (cross_sum colorBuffer (global_idx blockIdx blockDim threadIdx)))
                    (weight (f3y (clamp3f a))))
                 (sharpened
                    (f3z (texel_at colorBuffer (global_idx blockIdx blockDim threadIdx) 0 0))
                    (f3z (cross_sum colorBuffer (global_idx blockIdx blockDim threadIdx)))
                    (weight (f3z (clamp3f a)))))
              1.0).
Proof.
  intros Hin. unfold SharpeningFilter. rewrite Hin. cbv zeta.
  eexists. reflexivity.
Qed.

(** X22. Whatever [min3f] and [max3f] are, with a one-argument clamp
    whose result is within [0, 1], a thread inside the image whose
    centre texel is positive stores, on every component,
    centre + g * (centre - mean of the four axis neighbours) with a
    gain g between 0 and 4: the filter moves a pixel away from its
    neighbours' mean, never towards it, and by at most four times their
    distance. *)
Theorem SharpeningFilter_gain (colorBuffer : Int2 -> Float4) (texSize : Int2)
  (blockIdx blockDim threadIdx : dim2) :
  (forall v, unit3 (clamp3f v)) ->
  outside (global_idx blockIdx blockDim threadIdx) texSize = false ->
  0 < f3x (texel_at colorBuffer (global_idx blockIdx blockDim threadIdx) 0 0) ->
  0 < f3y (texel_at colorBuffer (global_idx blockIdx blockDim threadIdx) 0 0) ->
  0 < f3z (texel_at colorBuffer (global_idx blockIdx blockDim threadIdx) 0 0) ->
  exists out g,
    SharpeningFilter clamp3f min3f max3f colorBuffer texSize blockIdx blockDim threadIdx
    = Some (global_idx blockIdx blockDim threadIdx, mkFloat4 out 1.0) /\
    (0 <= f3x g <= 4 /\ 0 <= f3y g <= 4 /\ 0 <= f3z g <= 4) /\
    out = add3 (texel_at colorBuffer (global_idx blockIdx blockDim threadIdx) 0 0)
               (mul3 g (sub3 (texel_at colorBuffer
                                (global_idx blockIdx blockDim threadIdx) 0 0)
                             (scale3 (cross_sum colorBuffer
                                        (global_idx blockIdx blockDim threadIdx)) (1 / 4)))).
Proof.
  intros Hclamp Hin _ _ _.
  destruct (SharpeningFilter_channels colorBuffer texSize blockIdx blockDim threadIdx Hin)
    as (a & ->).
  destruct (Hclamp a) as (Hx & Hy & Hz).
  set (idx := global_idx blockIdx blockDim threadIdx).
  destruct (sharpened_gain (f3x (texel_at colorBuffer idx 0 0))
              (f3x (cross_sum colorBuffer idx)) _ (weight_range _ Hx)) as (gx & Hgx & Ex).
  destruct (sharpened_gain (f3y (texel_at colorBuffer idx 0 0))
              (f3y (cross_sum colorBuffer idx)) _ (weight_range _ Hy)) as (gy & Hgy & Ey).
  destruct (sharpened_gain (f3z (texel_at colorBuffer idx 0 0))
              (f3z (cross_sum colorBuffer idx)) _ (weight_range _ Hz)) as (gz & Hgz & Ez).
  eexists. exists (mkFloat3 gx gy gz). split; [reflexivity|].
  split; [cbn [f3x f3y f3z]; auto|].
  rewrite Ex, Ey, Ez. unfold add3, mul3, sub3, scale3. cbn [f3x f3y f3z].
  f_equal; lra.
Qed.

(** X23. With such a clamp, where the four axis neighbours hold the
    same positive colour as the centre, the thread stores that colour:
    flat regions are left as they are, whatever the diagonal
    neighbours hold. *)
Theorem SharpeningFilter_flat (colorBuffer : Int2 -> Float4) (texSize : Int2)
  (blockIdx blockDim threadIdx : dim2) (c : Float3) :
  (forall v, unit3 (clamp3f v)) ->
  outside (global_idx blockIdx blockDim threadIdx) texSize = false ->
  0 < f3x c -> 0 < f3y c -> 0 < f3z c ->
  texel_at colorBuffer (global_idx blockIdx blockDim threadIdx) 0 0 = c ->
  texel_at colorBuffer (global_idx blockIdx blockDim threadIdx) (-1) 0 = c ->
  texel_at colorBuffer (global_idx blockIdx blockDim threadIdx) 1 0 = c ->
  texel_at colorBuffer (global_idx blockIdx blockDim threadIdx) 0 (-1) = c ->
  texel_at colorBuffer (global_idx blockIdx blockDim threadIdx) 0 1 = c ->
  SharpeningFilter clamp3f min3f max3f colorBuffer texSize blockIdx blockDim threadIdx
  = Some (global_idx blockIdx blockDim threadIdx, mkFloat4 c 1.0).
Proof.
  intros Hclamp Hin _ _ _ Hc Hw He Hn Hs.
  destruct (SharpeningFilter_channels colorBuffer texSize blockIdx blockDim threadIdx Hin)
    as (a & ->).
  destruct (Hclamp a) as (Hx & Hy & Hz).
  unfold cross_sum. rewrite Hc, Hw, He, Hn, Hs.
  destruct (sharpened_gain (f3x c) (f3x (add3 (add3 (add3 c c) c) c)) _ (weight_range _ Hx))
    as (gx & _ & ->).
  destruct (sharpened_gain (f3y c) (f3y (add3 (add3 (add3 c c) c) c)) _ (weight_range _ Hy))
    as (gy & _ & ->).
  destruct (sharpened_gain (f3z c) (f3z (add3 (add3 (add3 c c) c) c)) _ (weight_range _ Hz))
    as (gz & _ & ->).
  destruct c as [cx cy cz]. cbn [add3 f3x f3y f3z].
  do 4 f_equal; lra.
Qed.

End Kernel.

(** The clamp to [0, 1] is such a clamp. *)
Lemma clamp01_unit v : unit3 (clamp3f_std v).
Proof.
  unfold unit3, clamp3f_std, CopyToOutput.clamp3f, splat3, Rmax, Rmin; cbn [f3x f3y f3z].
  repeat destruct Rle_dec; lra.
Qed.

Lemma SharpeningFilter_flat_witness :
  SharpeningFilter clamp3f_std min3f_std max3f_std
                   (fun _ => mkFloat4 (splat3 0.5) 1) (mkInt2 4 4)
                   (mkDim2 0 0) (mkDim2 8 8) (mkDim2 1 2)
  = Some (global_idx (mkDim2 0 0) (mkDim2 8 8) (mkDim2 1 2), mkFloat4 (splat3 0.5) 1.0).
Proof.
  apply (SharpeningFilter_flat clamp3f_std min3f_std max3f_std
           (fun _ => mkFloat4 (splat3 0.5) 1) (mkInt2 4 4)
           (mkDim2 0 0) (mkDim2 8 8) (mkDim2 1 2) (splat3 0.5));
    first [exact clamp01_unit | reflexivity | simpl; lra].
Defined.

Lemma SharpeningFilter_gain_witness :
  exists out g,
    SharpeningFilter clamp3f_std min3f_std max3f_std
                     (fun _ => mkFloat4 (splat3 0.5) 1) (mkInt2 4 4)
                     (mkDim2 0 0) (mkDim2 8 8) (mkDim2 1 2)
    = Some (global_idx (mkDim2 0 0) (mkDim2 8 8) (mkDim2 1 2), mkFloat4 out 1.0) /\
    (0 <= f3x g <= 4 /\ 0 <= f3y g <= 4 /\ 0 <= f3z g <= 4) /\
    out = add3 (texel_at (fun _ => mkFloat4 (splat3 0.5) 1)
                         (global_idx (mkDim2 0 0) (mkDim2 8 8) (mkDim2 1 2)) 0 0)
               (mul3 g (sub3 (texel_at (fun _ => mkFloat4 (splat3 0.5) 1)
                                (global_idx (mkDim2 0 0) (mkDim2 8 8) (mkDim2 1 2)) 0 0)
                             (scale3 (cross_sum (fun _ => mkFloat4 (splat3 0.5) 1)
                                        (global_idx (mkDim2 0 0) (mkDim2 8 8) (mkDim2 1 2)))
                                     (1 / 4)))).
Proof.
  apply (SharpeningFilter_gain clamp3f_std min3f_std max3f_std
           (fun _ => mkFloat4 (splat3 0.5) 1) (mkInt2 4 4)
           (mkDim2 0 0) (mkDim2 8 8) (mkDim2 1 2));
    first [exact clamp01_unit | reflexivity | simpl; lra].
Defined.

End SharpeningFilterFacts.

(** ** The bytes of the output *)

Module QuantiseFacts.
Import CopyToOutput CopyToOutputFacts Quantise.

Lemma uchar_of_float_nearest c :
  nearest_byte c (uchar_of_float (Rmax 0 (Rmin c 1) * 255 + 0.5)).
Proof.
  unfold nearest_byte, uchar_of_float.
  assert (0 <= Rmax 0 (Rmin c 1) <= 1)
    by (unfold Rmax, Rmin; repeat destruct Rle_dec; lra).
  rewrite truncate_nonneg by lra.
  destruct (base_Int_part (Rmax 0 (Rmin c 1) * 255 + 0.5)) as [H1 H2]. lra.
Qed.

Lemma uchar_of_float_byte (k : Z) :
  (0 <= k <= 255)%Z ->
  uchar_of_float (Rmax 0 (Rmin (IZR k / 255) 1) * 255 + 0.5) = k.
Proof.
  intros Hk.
  assert (H0 : 0 <= IZR k) by (apply IZR_le; lia).
  assert (H1 : IZR k <= 255) by (apply IZR_le; lia).
  assert (Hc : Rmax 0 (Rmin (IZR k / 255) 1) = IZR k / 255).
  { unfold Rmax, Rmin; repeat destruct Rle_dec; lra. }
  rewrite Hc. unfold uchar_of_float. rewrite truncate_nonneg by lra.
  assert (H : (k <= Int_part (IZR k / 255 * 255 + 0.5) <= k)%Z)
    by (apply Int_part_between; lra).
  lia.
Qed.

(** X24. Every colour byte CopyToOutput writes is the nearest byte to
    255 times the channel clamped to [0, 1] (a tie going up): the
    quantisation error is at most half a step. *)
Theorem CopyToOutput_rounds_to_nearest (outputResColor : Int2 -> Float4) (outSize : Int2)
  (blockIdx blockDim threadIdx : dim2) :
  outside (global_idx blockIdx blockDim threadIdx) outSize = false ->
  exists u : uchar4,
    CopyToOutput outputResColor outSize blockIdx blockDim threadIdx
    = Some ((i2x (global_idx blockIdx blockDim threadIdx) * 4)%Z,
            i2y (global_idx blockIdx blockDim threadIdx), u)
    /\ nearest_byte (f3x (f4xyz (outputResColor (global_idx blockIdx blockDim threadIdx))))
                    (ucx u)
    /\ nearest_byte (f3y (f4xyz (outputResColor (global_idx blockIdx blockDim threadIdx))))
                    (ucy u)
    /\ nearest_byte (f3z (f4xyz (outputResColor (global_idx blockIdx blockDim threadIdx))))
                    (ucz u).
Proof.
  intros Hin. unfold CopyToOutput. rewrite Hin.
  eexists. split; [reflexivity|]. cbn [ucx ucy ucz clamp3f splat3 f3x f3y f3z].
  repeat split; apply uchar_of_float_nearest.
Qed.

Lemma CopyToOutput_rounds_to_nearest_witness :
  exists u : uchar4,
    CopyToOutput (fun _ => mkFloat4 (mkFloat3 0.25 2 (-1)) 1) (mkInt2 4 4)
                 (mkDim2 0 0) (mkDim2 8 8) (mkDim2 1 2)
    = Some ((i2x (global_idx (mkDim2 0 0) (mkDim2 8 8) (mkDim2 1 2)) * 4)%Z,
            i2y (global_idx (mkDim2 0 0) (mkDim2 8 8) (mkDim2 1 2)), u)
    /\ nearest_byte (f3x (f4xyz ((fun _ => mkFloat4 (mkFloat3 0.25 2 (-1)) 1)
                                   (global_idx (mkDim2 0 0) (mkDim2 8 8) (mkDim2 1 2)))))
                    (ucx u)
    /\ nearest_byte (f3y (f4xyz ((fun _ => mkFloat4 (mkFloat3 0.25 2 (-1)) 1)
                                   (global_idx (mkDim2 0 0) (mkDim2 8 8) (mkDim2 1 2)))))
                    (ucy u)
    /\ nearest_byte (f3z (f4xyz ((fun _ => mkFloat4 (mkFloat3 0.25 2 (-1)) 1)
                                   (global_idx (mkDim2 0 0) (mkDim2 8 8) (mkDim2 1 2)))))
                    (ucz u).
Proof.
  apply (CopyToOutput_rounds_to_nearest (fun _ => mkFloat4 (mkFloat3 0.25 2 (-1)) 1)
           (mkInt2 4 4) (mkDim2 0 0) (mkDim2 8 8) (mkDim2 1 2)).
  reflexivity.
Defined.

(** X25. Eight-bit colours survive the output: a texel whose channels
    are r/255, g/255, b/255 for bytes r, g, b is written as the bytes
    r, g, b (and alpha 1). *)
Theorem CopyToOutput_bytes_round_trip (outputResColor : Int2 -> Float4) (outSize : Int2)
  (blockIdx blockDim threadIdx : dim2) (r g b : Z) :
  outside (global_idx blockIdx blockDim threadIdx) outSize = false ->
  (0 <= r <= 255)%Z -> (0 <= g <= 255)%Z -> (0 <= b <= 255)%Z ->
  f4xyz (outputResColor (global_idx blockIdx blockDim threadIdx))
  = mkFloat3 (IZR r / 255) (IZR g / 255) (IZR b / 255) ->
  CopyToOutput outputResColor outSize blockIdx blockDim threadIdx
  = Some ((i2x (global_idx blockIdx blockDim threadIdx) * 4)%Z,
          i2y (global_idx blockIdx blockDim threadIdx), make_uchar4 r g b 1).
Proof.
  intros Hin Hr Hg Hb Hc. unfold CopyToOutput. rewrite Hin, Hc.
  cbn [clamp3f splat3 f3x f3y f3z].
  rewrite !uchar_of_float_byte by assumption.
  rewrite uchar_of_float_one. reflexivity.
Qed.

Lemma CopyToOutput_bytes_round_trip_witness :
  CopyToOutput (fun _ => mkFloat4 (mkFloat3 (IZR 0 / 255) (IZR 128 / 255) (IZR 255 / 255)) 1)
               (mkInt2 4 4) (mkDim2 0 0) (mkDim2 8 8) (mkDim2 1 2)
  = Some ((i2x (global_idx (mkDim2 0 0) (mkDim2 8 8) (mkDim2 1 2)) * 4)%Z,
          i2y (global_idx (mkDim2 0 0) (mkDim2 8 8) (mkDim2 1 2)),
          make_uchar4 0 128 255 1).
Proof.
  apply (CopyToOutput_bytes_round_trip
           (fun _ => mkFloat4 (mkFloat3 (IZR 0 / 255) (IZR 128 / 255) (IZR 255 / 255)) 1)
           (mkInt2 4 4) (mkDim2 0 0) (mkDim2 8 8) (mkDim2 1 2) 0 128 255);
    first [reflexivity | lia].
Defined.

End QuantiseFacts.

(** ** The Gaussian kernels *)

Module GaussianFacts.
Import Gaussian.

Lemma fold_left_Rsum {A} (f : A -> R) l a :
  fold_left (fun acc x => acc + f x) l a = a + Rsum (map f l).
Proof.
  revert a; induction l as [|x l IH]; intros a; simpl; [lra|].
  rewrite IH. lra.
Qed.

Lemma fold_left_ext {A B} (f g : A -> B -> A) l a :
  (forall a x, In x l -> f a x = g a x) -> fold_left f l a = fold_left g l a.
Proof.
  revert a; induction l as [|x l IH]; intros a H; simpl; [reflexivity|].
  rewrite H by (left; reflexivity). apply IH. intros; apply H; right; assumption.
Qed.

Lemma Rsum_ext {A} (f g : A -> R) l :
  (forall x, In x l -> f x = g x) -> Rsum (map f l) = Rsum (map g l).
Proof.
  induction l as [|x l IH]; intros H; simpl; [reflexivity|].
  rewrite H by (left; reflexivity). rewrite IH; [reflexivity|].
  intros; apply H; right; assumption.
Qed.

Lemma Rsum_plus {A} (f g : A -> R) l :
  Rsum (map (fun x => f x + g x) l) = Rsum (map f l) + Rsum (map g l).
Proof. induction l as [|x l IH]; simpl; [lra|]. rewrite IH. lra. Qed.

Lemma Rsum_0 {A} (l : list A) : Rsum (map (fun _ => 0) l) = 0.
Proof. induction l as [|x l IH]; simpl; [reflexivity|]. rewrite IH. lra. Qed.

(** The order of two nested sums does not matter. *)
Lemma Rsum_swap {A B} (f : A -> B -> R) la lb :
  Rsum (map (fun a => Rsum (map (fun b => f a b) lb)) la)
  = Rsum (map (fun b => Rsum (map (fun a => f a b) la)) lb).
Proof.
  induction la as [|a la IH]; simpl.
  - rewrite Rsum_0. reflexivity.
  - rewrite IH, <- Rsum_plus. reflexivity.
Qed.

Lemma Rsum_bounds {A} (f : A -> R) l lo hi :
  (forall x, In x l -> lo <= f x <= hi) ->
  INR (length l) * lo <= Rsum (map f l) <= INR (length l) * hi.
Proof.
  induction l as [|x l IH]; intros H.
  - simpl. lra.
  - cbn [map Rsum fold_right length]. rewrite S_INR.
    pose proof (H x (or_introl eq_refl)).
    fold (Rsum (map f l)).
    assert (INR (length l) * lo <= Rsum (map f l) <= INR (length l) * hi)
      by (apply IH; intros; apply H; right; assumption).
    lra.
Qed.

Lemma Rsum_pos {A} (f : A -> R) l :
  (0 < length l)%nat -> (forall x, In x l -> 0 < f x) -> 0 < Rsum (map f l).
Proof.
  destruct l as [|a l]; [simpl; lia|]. intros _ H.
  pose proof (Rsum_bounds f l 0 (Rsum (map f l) + 1)) as Hb.
  assert (0 <= Rsum (map f l)).
  { clear Hb. induction l as [|b l IH]; simpl; [lra|].
    assert (0 < f b) by (apply H; right; left; reflexivity).
    assert (0 <= Rsum (map f l)).
    { apply IH. intros x [<- | Hx]; apply H; [left | right; right]; auto. }
    unfold Rsum in *. lra. }
  simpl. pose proof (H a (or_introl eq_refl)). unfold Rsum in *. lra.
Qed.

Section Kernel.
Variables (sigma : R) (radius : nat).
Hypothesis sigma_nonzero : sigma <> 0.

(** The sample at grid point (x, y). *)
Lemma sampleData_at x y :
  (x < sampleDimSize radius)%nat -> (y < sampleDimSize radius)%nat ->
  nth (y * sampleDimSize radius + x) (sampleData sigma radius) 0
  = GaussianIsotropic2D (INR x / INR step - INR (size radius) / 2)
                        (INR y / INR step - INR (size radius) / 2) sigma.
Proof.
  intros Hx Hy. unfold sampleData.
  rewrite nth_map_seq.
  2:{ unfold sampleCount. nia. }
  cbv zeta.
  rewrite Nat.add_comm, Nat.Div0.mod_add, Nat.div_add by lia.
  rewrite Nat.mod_small, Nat.div_small by exact Hx.
  reflexivity.
Qed.

Lemma Gaussian_range x y :
  0 < GaussianIsotropic2D x y sigma <= 1 / (2 * PI * sigma * sigma).
Proof.
  unfold GaussianIsotropic2D.
  assert (Hs : 0 < sigma * sigma) by nra.
  pose proof PI_RGT_0 as Hpi.
  assert (Hd : 0 < 2 * PI * sigma * sigma) by nra.
  pose proof (exp_pos (- (x * x + y * y) / (2 * sigma * sigma))) as He.
  assert (Hle : exp (- (x * x + y * y) / (2 * sigma * sigma)) <= 1).
  { rewrite <- exp_0.
    assert (Hneg : - (x * x + y * y) / (2 * sigma * sigma) <= 0).
    { unfold Rdiv. assert (0 < / (2 * sigma * sigma)) by (apply Rinv_0_lt_compat; lra).
      assert (0 <= x * x + y * y) by nra. nra. }
    destruct Hneg as [Hlt | ->]; [left; apply exp_increasing; exact Hlt | right; reflexivity]. }
  unfold Rdiv. assert (0 < / (2 * PI * sigma * sigma)) by (apply Rinv_0_lt_compat; lra).
  split; nra.
Qed.

Lemma Gaussian_symmetric x y :
  GaussianIsotropic2D x y sigma = GaussianIsotropic2D y x sigma.
Proof. unfold GaussianIsotropic2D. do 3 f_equal. lra. Qed.

(** The loops as a double sum over the grid points of the cell. *)
Lemma valSum_sum xi yi :
  (xi < size radius)%nat -> (yi < size radius)%nat ->
  valSum sigma radius xi yi
  = Rsum (map (fun x =>
        Rsum (map (fun y =>
                GaussianIsotropic2D (INR x / INR step - INR (size radius) / 2)
                                    (INR y / INR step - INR (size radius) / 2) sigma)
             (seq (yi * step) step)))
      (seq (xi * step) step)).
Proof.
  intros Hxi Hyi. unfold valSum.
  rewrite (fold_left_ext _
             (fun valSum x => valSum + Rsum (map (fun y =>
                GaussianIsotropic2D (INR x / INR step - INR (size radius) / 2)
                                    (INR y / INR step - INR (size radius) / 2) sigma)
                (seq (yi * step) step)))).
  - rewrite fold_left_Rsum. lra.
  - intros a x Hx. rewrite fold_left_Rsum. f_equal.
    apply Rsum_ext. intros y Hy. apply in_seq in Hx, Hy.
    apply sampleData_at; unfold sampleDimSize; nia.
Qed.

Lemma kernel_cell xi yi :
  (xi < size radius)%nat -> (yi < size radius)%nat ->
  nth (xi + yi * size radius) (CalculateGaussianKernel sigma radius) 0
  = valSum sigma radius xi yi / INR (step * step).
Proof.
  intros Hxi Hyi. unfold CalculateGaussianKernel.
  rewrite nth_map_seq by (unfold kernelSize; nia).
  cbv zeta. rewrite Nat.Div0.mod_add, Nat.div_add by lia.
  rewrite Nat.mod_small, Nat.div_small by exact Hxi. reflexivity.
Qed.

Lemma INR_step : INR step = 100.
Proof. unfold step. rewrite INR_IZR_INZ. reflexivity. Qed.

Lemma valSum_range xi yi :
  (xi < size radius)%nat -> (yi < size radius)%nat ->
  0 < valSum sigma radius xi yi <= 10000 * (1 / (2 * PI * sigma * sigma)).
Proof.
  intros Hxi Hyi. rewrite valSum_sum by assumption.
  set (g := fun x y : nat => GaussianIsotropic2D (INR x / INR step - INR (size radius) / 2)
                               (INR y / INR step - INR (size radius) / 2) sigma).
  assert (Hg : forall x y, 0 < g x y <= 1 / (2 * PI * sigma * sigma))
    by (intros; apply Gaussian_range).
  assert (Hpeak : 0 < 1 / (2 * PI * sigma * sigma)) by (pose proof (Hg 0 0)%nat; lra).
  assert (Hin : forall x, 0 < Rsum (map (fun y => g x y) (seq (yi * step) step))
                          <= 100 * (1 / (2 * PI * sigma * sigma))).
  { intros x. split.
    - apply Rsum_pos; [rewrite length_seq; unfold step; lia | intros; apply Hg].
    - pose proof (Rsum_bounds (fun y => g x y) (seq (yi * step) step)
                    0 (1 / (2 * PI * sigma * sigma))) as Hb.
      rewrite length_seq, INR_step in Hb. apply Hb. intros y _. pose proof (Hg x y). lra. }
  split.
  - apply Rsum_pos; [rewrite length_seq; unfold step; lia | intros; apply Hin].
  - pose proof (Rsum_bounds (fun x => Rsum (map (fun y => g x y) (seq (yi * step) step)))
                  (seq (xi * step) step) 0 (100 * (1 / (2 * PI * sigma * sigma)))) as Hb.
    rewrite length_seq, INR_step in Hb.
    destruct Hb as [_ Hhi]; [intros x _; pose proof (Hin x); lra |].
    eapply Rle_trans; [exact Hhi | lra].
Qed.

Lemma valSum_transpose xi yi :
  (xi < size radius)%nat -> (yi < size radius)%nat ->
  valSum sigma radius xi yi = valSum sigma radius yi xi.
Proof.
  intros Hxi Hyi. rewrite !valSum_sum by assumption.
  rewrite Rsum_swap. apply Rsum_ext. intros y _. apply Rsum_ext. intros x _.
  apply Gaussian_symmetric.
Qed.

Lemma INR_step2 : INR (step * step) = 10000.
Proof. rewrite mult_INR, INR_step. lra. Qed.

End Kernel.

(** X26. For a sigma other than 0, CalculateGaussianKernel fills
    (2 * radius + 1) squared coefficients, and each of them is positive
    and at most the peak 1 / (2 pi sigma^2) of the Gaussian. *)
Theorem CalculateGaussianKernel_positive (sigma : R) (radius : nat) :
  sigma <> 0 ->
  length (CalculateGaussianKernel sigma radius) = (size radius * size radius)%nat /\
  forall xi yi, (xi < size radius)%nat -> (yi < size radius)%nat ->
    0 < nth (xi + yi * size radius) (CalculateGaussianKernel sigma radius) 0
      <= 1 / (2 * PI * sigma * sigma).
Proof.
  intros Hs. split.
  - unfold CalculateGaussianKernel. rewrite length_map, length_seq. reflexivity.
  - intros xi yi Hxi Hyi. rewrite kernel_cell by assumption. rewrite INR_step2.
    pose proof (valSum_range sigma radius Hs xi yi Hxi Hyi). lra.
Qed.

Lemma CalculateGaussianKernel_positive_witness :
  length (CalculateGaussianKernel GAUSSIAN_5x5_SIGMA 2) = (size 2 * size 2)%nat /\
  forall xi yi, (xi < size 2)%nat -> (yi < size 2)%nat ->
    0 < nth (xi + yi * size 2) (CalculateGaussianKernel GAUSSIAN_5x5_SIGMA 2) 0
      <= 1 / (2 * PI * GAUSSIAN_5x5_SIGMA * GAUSSIAN_5x5_SIGMA).
Proof.
  apply (CalculateGaussianKernel_positive GAUSSIAN_5x5_SIGMA 2).
  unfold GAUSSIAN_5x5_SIGMA. lra.
Defined.

(** X27. The kernel is symmetric under transposition: the coefficient
    of cell (xi, yi) equals that of cell (yi, xi). *)
Theorem CalculateGaussianKernel_transpose (sigma : R) (radius xi yi : nat) :
  (xi < size radius)%nat -> (yi < size radius)%nat ->
  nth (xi + yi * size radius) (CalculateGaussianKernel sigma radius) 0
  = nth (yi + xi * size radius) (CalculateGaussianKernel sigma radius) 0.
Proof.
  intros Hxi Hyi. rewrite !kernel_cell by assumption.
  rewrite (valSum_transpose sigma radius xi yi) by assumption. reflexivity.
Qed.

Lemma CalculateGaussianKernel_transpose_witness :
  nth (1 + 3 * size 2) (CalculateGaussianKernel GAUSSIAN_5x5_SIGMA 2) 0
  = nth (3 + 1 * size 2) (CalculateGaussianKernel GAUSSIAN_5x5_SIGMA 2) 0.
Proof.
  apply (CalculateGaussianKernel_transpose GAUSSIAN_5x5_SIGMA 2 1 3);
    unfold size; lia.
Defined.

End GaussianFacts.

(** ** The Gaussian kernels are not mirror-symmetric *)

Module GaussianMirrorFacts.
Import Gaussian GaussianFacts.

Lemma Rsum_app l1 l2 : Rsum (l1 ++ l2) = Rsum l1 + Rsum l2.
Proof. induction l1 as [|a l1 IH]; simpl; [lra|]. unfold Rsum in *. rewrite IH. lra. Qed.

(** A sum over [seq a n], by offset from [a]. *)
Lemma Rsum_seq_shift (h : nat -> R) a n :
  Rsum (map h (seq a n)) = Rsum (map (fun k => h (a + k)%nat) (seq 0 n)).
Proof.
  induction n as [|n IH]; [reflexivity|].
  rewrite !seq_S, !map_app, !Rsum_app, IH. reflexivity.
Qed.

(** A sum over [seq 0 n], from the last term to the first. *)
Lemma Rsum_seq_rev (f : nat -> R) n :
  Rsum (map f (seq 0 n)) = Rsum (map (fun k => f (n - 1 - k)%nat) (seq 0 n)).
Proof.
  revert f; induction n as [|n IH]; intros f; [reflexivity|].
  rewrite seq_S at 1. rewrite map_app, Rsum_app. cbn [seq map].
  rewrite <- seq_shift, map_map.
  change (Rsum (f (S n - 1 - 0)%nat :: map (fun k => f (S n - 1 - S k)%nat) (seq 0 n)))
    with (f (S n - 1 - 0)%nat + Rsum (map (fun k => f (S n - 1 - S k)%nat) (seq 0 n))).
  rewrite (IH f).
  replace (S n - 1 - 0)%nat with n by lia.
  rewrite (Rsum_ext (fun k => f (S n - 1 - S k)%nat) (fun k => f (n - 1 - k)%nat))
    by (intros; f_equal; lia).
  simpl. lra.
Qed.

Lemma Rsum_lt {A} (f g : A -> R) l :
  (0 < length l)%nat -> (forall x, In x l -> f x < g x) ->
  Rsum (map f l) < Rsum (map g l).
Proof.
  intros Hl H.
  assert (E : Rsum (map g l) = Rsum (map f l) + Rsum (map (fun x => g x - f x) l)).
  { rewrite <- Rsum_plus. apply Rsum_ext. intros; lra. }
  rewrite E.
  assert (0 < Rsum (map (fun x => g x - f x) l)).
  { apply Rsum_pos; [exact Hl|]. intros x Hx. specialize (H x Hx). lra. }
  lra.
Qed.

Section Kernel.
Variables (sigma : R) (radius : nat).
Hypothesis sigma_nonzero : sigma <> 0.

(** Nearer to the axis the Gaussian is larger. *)
Lemma Gaussian_nearer x x' y :
  x' * x' < x * x ->
  GaussianIsotropic2D x y sigma < GaussianIsotropic2D x' y sigma.
Proof.
  intros Hx. unfold GaussianIsotropic2D.
  assert (Hs : 0 < sigma * sigma) by nra.
  pose proof PI_RGT_0 as Hpi.
  assert (Hd : 0 < / (2 * PI * sigma * sigma)) by (apply Rinv_0_lt_compat; nra).
  unfold Rdiv. apply Rmult_lt_compat_r; [exact Hd|].
  apply exp_increasing.
  assert (Hi : 0 < / (2 * sigma * sigma)) by (apply Rinv_0_lt_compat; lra).
  nra.
Qed.

(** The grid points of a cell left of the centre and those of its mirror
    image, paired from the outside in: the point on the right is 0.01
    nearer to the axis. *)
Lemma mirror_points xi k :
  (xi < radius)%nat -> (k < step)%nat ->
  (INR ((size radius - 1 - xi) * step + (step - 1 - k)) / INR step - INR (size radius) / 2)
  * (INR ((size radius - 1 - xi) * step + (step - 1 - k)) / INR step - INR (size radius) / 2)
  < (INR (xi * step + k) / INR step - INR (size radius) / 2)
    * (INR (xi * step + k) / INR step - INR (size radius) / 2).
Proof.
  intros Hxi Hk. unfold size, step in *.
  rewrite !plus_INR, !mult_INR, !minus_INR, !plus_INR, !mult_INR by lia.
  replace (INR 100) with 100 by (rewrite INR_IZR_INZ; reflexivity).
  replace (INR 2) with 2 by (rewrite INR_IZR_INZ; reflexivity).
  replace (INR 1) with 1 by (rewrite INR_IZR_INZ; reflexivity).
  assert (Hr : INR xi + 1 <= INR radius).
  { rewrite <- S_INR. apply le_INR. lia. }
  assert (Hk' : INR k <= 99).
  { replace 99 with (INR 99) by (rewrite INR_IZR_INZ; reflexivity). apply le_INR. lia. }
  pose proof (pos_INR xi). pose proof (pos_INR k).
  set (r := INR radius) in *. set (a := INR xi) in *. set (b := INR k) in *.
  replace (((r * 2 + 1 - 1 - a) * 100 + (100 - 1 - b)) / 100 - (r * 2 + 1) / 2)
    with (- ((a * 100 + b) / 100 - (r * 2 + 1) / 2) - 0.01) by lra.
  assert ((a * 100 + b) / 100 - (r * 2 + 1) / 2 <= - 0.51) by lra.
  nra.
Qed.

Lemma valSum_mirror xi yi :
  (xi < radius)%nat -> (yi < size radius)%nat ->
  valSum sigma radius xi yi < valSum sigma radius (size radius - 1 - xi) yi.
Proof.
  intros Hxi Hyi.
  assert (Hs : (radius < size radius)%nat) by (unfold size; lia).
  rewrite !valSum_sum by lia.
  rewrite (Rsum_seq_shift _ (xi * step) step).
  rewrite (Rsum_seq_shift _ ((size radius - 1 - xi) * step) step).
  eapply Rlt_le_trans; [| right; symmetry; apply (Rsum_seq_rev _ step)].
  apply Rsum_lt; [rewrite length_seq; unfold step; lia|].
  intros k Hk. apply in_seq in Hk. cbv beta.
  apply Rsum_lt; [rewrite length_seq; unfold step; lia|].
  intros y _. apply Gaussian_nearer. apply mirror_points; lia.
Qed.

End Kernel.

(** X30. The kernel is not symmetric under reflection: for a sigma other
    than 0, every coefficient left of the centre column is strictly
    smaller than its mirror image on the right, because each cell is
    sampled from its left edge on (at x = xi + k/100, k = 0..99) and
    never at its right edge. *)
Theorem CalculateGaussianKernel_leans_right (sigma : R) (radius xi yi : nat) :
  sigma <> 0 -> (xi < radius)%nat -> (yi < size radius)%nat ->
  nth (xi + yi * size radius) (CalculateGaussianKernel sigma radius) 0
  < nth (size radius - 1 - xi + yi * size radius) (CalculateGaussianKernel sigma radius) 0.
Proof.
  intros Hs Hxi Hyi.
  assert (Hr : (radius < size radius)%nat) by (unfold size; lia).
  rewrite !kernel_cell by lia. rewrite INR_step2.
  pose proof (valSum_mirror sigma radius Hs xi yi Hxi Hyi). lra.
Qed.

Lemma CalculateGaussianKernel_leans_right_witness :
  nth (0 + 2 * size 2) (CalculateGaussianKernel GAUSSIAN_5x5_SIGMA 2) 0
  < nth (size 2 - 1 - 0 + 2 * size 2) (CalculateGaussianKernel GAUSSIAN_5x5_SIGMA 2) 0.
Proof.
  apply (CalculateGaussianKernel_leans_right GAUSSIAN_5x5_SIGMA 2 0 2).
  - unfold GAUSSIAN_5x5_SIGMA. lra.
  - lia.
  - unfold size. lia.
Defined.

End GaussianMirrorFacts.

(** ** sort3 *)

(* FACTS *)
Module Sort3Facts.
Import Sort9 Sort9Facts.

(** A permutation of three elements, by at most three transpositions. *)
Ltac perm3 :=
  first
    [ apply Permutation_refl
    | apply perm_swap
    | apply perm_skip, perm_swap
    | eapply perm_trans; [apply perm_swap|]; apply perm_skip, perm_swap
    | eapply perm_trans; [apply perm_skip, perm_swap|]; apply perm_swap
    | eapply perm_trans; [apply perm_swap|];
      eapply perm_trans; [apply perm_skip, perm_swap|]; apply perm_swap ].

(** X29. sort3 sorts: on an array of three pairs it leaves the same three
    pairs, in ascending order of luminance. *)
Theorem sort3_sorts (a b c : LumaIdxPair) :
  exists x y z,
    sort3 0 1 2 [a; b; c] = [x; y; z] /\
    Permutation [a; b; c] [x; y; z] /\
    luma x <= luma y <= luma z.
Proof.
  unfold sort3, sort2, swap, get; simpl.
  decide_cmp;
    (do 3 eexists; split; [reflexivity|]; split; [perm3 | lra]).
Qed.

End Sort3Facts.
